(** * Courthouse: a shallow embedding of the courtroom simulation

    The development follows the Python sources file by file:
    - [llm_engine.py]            the two text-generation providers;
    - [tinytroupe/agent.py]      [TinyPerson]: persona, memory, mode flag;
    - [case_manager.py]          [Case] and [load_case];
    - [courtroom_simulation.py]  [SimulationController] (a coroutine) and
                                 [create_courtroom_agents];
    - [server.py]                the websocket [handler]: session setup, the
                                 inbound-message loop and cancellation;
    - [tinytroupe/environment.py] [TinyWorld], which runs its agents in turns.

    Python objects shared by reference (the [agents] dict and the
    [TinyPerson]s in it, the input queue, the websocket) live in one
    [world]; the controller task and the handler both act on it.  The
    asyncio event loop is modelled by an explicit schedule that interleaves
    the two at the controller's [await] points. *)

From Stdlib Require Import Ascii.
From stdpp Require Import base option list strings gmap fin_maps pretty.

Local Open Scope string_scope.
Local Open Scope list_scope.
Local Open Scope Z_scope.

(** ** Python values and built-ins *)

(** The values that reach this program from JSON text and from the persona
    literals of [create_courtroom_agents].  Dicts keep insertion order, as
    Python's do.  A float is only ever printed here, so it is kept as the
    text [repr] gives for it. *)
#[warnings="-register-all"]
Inductive pyval : Type :=
  | PNone
  | PBool (b : bool)
  | PInt (z : Z)
  | PFloat (repr : string)
  | PStr (s : string)
  | PList (l : list pyval)
  | PDict (d : list (string * pyval)).

Inductive exn : Type :=
  | KeyError (key : string)
  | IndexError
  | TypeError
  | AttributeError
  | ValueError (msg : string)
  | Exception (msg : string)
  | ConnectionClosed
  | OSError (msg : string)
  | UnicodeDecodeError (msg : string).

(** A Python call either returns or raises. *)
Inductive result (A : Type) : Type :=
  | Ok (a : A)
  | Raised (e : exn).
Arguments Ok {A} a.
Arguments Raised {A} e.

Definition result_bind {A B} (f : A → result B) (r : result A) : result B :=
  match r with Ok a => f a | Raised e => Raised e end.

#[global] Instance result_mret : MRet result := λ A a, Ok a.
#[global] Instance result_mbind : MBind result := λ A B f r, result_bind f r.

Definition newline : string := String "010"%char "".

(** [sep.join(parts)] *)
Fixpoint join (sep : string) (parts : list string) : string :=
  match parts with
  | [] => ""
  | [s] => s
  | s :: rest => s +:+ sep +:+ join sep rest
  end.

(** [str.strip()] on the ASCII white space of Python ([\t \n \v \f \r],
    [\x1c]-[\x1f] and the blank). *)
Definition isspace (c : ascii) : bool :=
  let n := nat_of_ascii c in
  ((9 <=? n)%nat && (n <=? 13)%nat) || ((28 <=? n)%nat && (n <=? 32)%nat).

Fixpoint lstrip (s : string) : string :=
  match s with
  | String c s' => if isspace c then lstrip s' else s
  | EmptyString => EmptyString
  end.

Definition strip (s : string) : string :=
  String.rev (lstrip (String.rev (lstrip s))).

(** [str.lower()] on ASCII letters. *)
Definition lower_ascii (c : ascii) : ascii :=
  let n := nat_of_ascii c in
  if ((65 <=? n)%nat && (n <=? 90)%nat) then ascii_of_nat (n + 32) else c.

Fixpoint lower (s : string) : string :=
  match s with
  | String c s' => String (lower_ascii c) (lower s')
  | EmptyString => EmptyString
  end.

Fixpoint contains_char (c : ascii) (s : string) : bool :=
  match s with
  | String c' s' => if Ascii.eqb c c' then true else contains_char c s'
  | EmptyString => false
  end.

Definition hex_digit (n : nat) : ascii :=
  if (n <? 10)%nat then ascii_of_nat (48 + n) else ascii_of_nat (87 + n).

Definition repr_char (quote : ascii) (c : ascii) : string :=
  let n := nat_of_ascii c in
  if Ascii.eqb c "\"%char then "\\"
  else if Ascii.eqb c quote then String "\"%char (String c "")
  else if (n =? 10)%nat then "\n"
  else if (n =? 13)%nat then "\r"
  else if (n =? 9)%nat then "\t"
  else if ((n <? 32)%nat || (n =? 127)%nat)
       then String "\"%char (String "x"%char
              (String (hex_digit (n / 16)) (String (hex_digit (n mod 16)) "")))
  else String c "".

Fixpoint repr_chars (quote : ascii) (s : string) : string :=
  match s with
  | String c s' => repr_char quote c +:+ repr_chars quote s'
  | EmptyString => EmptyString
  end.

Definition double_quote : ascii := ascii_of_nat 34.

(** [repr] of a [str]: single quotes, unless the text has a single quote
    and no double quote. *)
Definition repr_str (s : string) : string :=
  let quote : ascii :=
    if contains_char "'"%char s && negb (contains_char double_quote s)
    then double_quote else "'"%char in
  String quote (repr_chars quote s) +:+ String quote "".

Fixpoint py_repr (v : pyval) : string :=
  match v with
  | PNone => "None"
  | PBool true => "True"
  | PBool false => "False"
  | PInt z => pretty z
  | PFloat repr => repr
  | PStr s => repr_str s
  | PList l => "[" +:+ join ", " (map py_repr l) +:+ "]"
  | PDict d =>
      "{" +:+ join ", " (map (λ kv, repr_str kv.1 +:+ ": " +:+ py_repr kv.2) d) +:+ "}"
  end.

(** [str(v)], which is what an f-string field [{v}] inserts. *)
Definition py_str (v : pyval) : string :=
  match v with
  | PStr s => s
  | _ => py_repr v
  end.

(** [v == 'text'] for a string literal. *)
Definition eq_str (v : pyval) (s : string) : bool :=
  match v with
  | PStr s' => String.eqb s' s
  | _ => false
  end.

(** *** Dicts with string keys, in insertion order *)

Fixpoint dict_find (d : list (string * pyval)) (key : string) : option pyval :=
  match d with
  | [] => None
  | (k, v) :: rest => if String.eqb k key then Some v else dict_find rest key
  end.

(** [d[key] = value]: an existing key keeps its place. *)
Fixpoint dict_set (d : list (string * pyval)) (key : string) (value : pyval)
  : list (string * pyval) :=
  match d with
  | [] => [(key, value)]
  | (k, v) :: rest =>
      if String.eqb k key then (k, value) :: rest
      else (k, v) :: dict_set rest key value
  end.

(** [d[key]] *)
Definition dict_getitem (d : list (string * pyval)) (key : string) : result pyval :=
  match dict_find d key with
  | Some v => Ok v
  | None => Raised (KeyError key)
  end.

(** [d.get(key, default)] *)
Definition dict_get (d : list (string * pyval)) (key : string) (default : pyval) : pyval :=
  match dict_find d key with
  | Some v => v
  | None => default
  end.

(** [v[key]] on an arbitrary value, with a string key: a dict looks the key
    up, [None], numbers, strings and lists raise [TypeError]. *)
Definition subscript (v : pyval) (key : string) : result pyval :=
  match v with
  | PDict d => dict_getitem d key
  | _ => Raised TypeError
  end.

(** [v.get(key)] and [v.get(key, default)] on an arbitrary value: only a
    dict has the method. *)
Definition method_get (v : pyval) (key : string) (default : pyval) : result pyval :=
  match v with
  | PDict d => Ok (dict_get d key default)
  | _ => Raised AttributeError
  end.

(** ** llm_engine.py *)

(** The two concrete subclasses of the abstract [LLMProvider]. *)
Inductive LLMProvider : Type :=
  | OpenAIProvider (api_key : string)
  | OllamaProvider (host : string).

(** What the body of a provider's [try] block does on one call: the remote
    service answers with a text (the field the code reads, before
    [strip]), or something in the block raises.  [str(e)] is kept. *)
Inductive api_outcome : Type :=
  | Completed (text : string)
  | RequestException (e : string)
  | OtherException (e : string).

(** The remote services, outside the program: the answer may depend on
    which call it is (the n-th of the session), on the provider and on the
    request. *)
Definition backend : Type := nat → LLMProvider → string → nat → api_outcome.

(** [OpenAIProvider.generate] and [OllamaProvider.generate];
    [max_tokens] defaults to 150 at the only call site. *)
Definition generate (self : LLMProvider) (service : LLMProvider → string → nat → api_outcome)
    (prompt : string) (max_tokens : nat) : string :=
  match self with
  | OpenAIProvider _ =>
      match service self prompt max_tokens with
      | Completed text => strip text
      | RequestException e | OtherException e =>
          "Error generating text with OpenAI: " +:+ e
      end
  | OllamaProvider _ =>
      match service self prompt max_tokens with
      | Completed text => strip text
      | RequestException e => "Error communicating with Ollama: " +:+ e
      | OtherException e => "Error generating text with Ollama: " +:+ e
      end
  end.

(** The process environment read by [OpenAIProvider.__init__]. *)
Record environ : Type := { OPENAI_API_KEY : option string }.

(** [get_llm_provider(provider_name)], with no keyword arguments. *)
Definition get_llm_provider (env : environ) (provider_name : string) : result LLMProvider :=
  if String.eqb (lower provider_name) "openai" then
    match OPENAI_API_KEY env with
    | Some key =>
        if String.eqb key "" then
          Raised (ValueError "OpenAI API key not provided. Set the OPENAI_API_KEY environment variable.")
        else Ok (OpenAIProvider key)
    | None =>
        Raised (ValueError "OpenAI API key not provided. Set the OPENAI_API_KEY environment variable.")
    end
  else if String.eqb (lower provider_name) "ollama" then
    Ok (OllamaProvider "http://localhost:11434")
  else Raised (ValueError ("Unknown LLM provider: " +:+ provider_name)).

(** ** tinytroupe/agent.py *)

Record TinyPerson : Type := {
  persona : list (string * pyval);
  memory : list string;
  llm_provider : LLMProvider;
  is_user_controlled : bool;
}.

Definition set_persona (d : list (string * pyval)) (self : TinyPerson) : TinyPerson :=
  {| persona := d; memory := memory self;
     llm_provider := llm_provider self; is_user_controlled := is_user_controlled self |}.

Definition set_memory (m : list string) (self : TinyPerson) : TinyPerson :=
  {| persona := persona self; memory := m;
     llm_provider := llm_provider self; is_user_controlled := is_user_controlled self |}.

Definition set_is_user_controlled (b : bool) (self : TinyPerson) : TinyPerson :=
  {| persona := persona self; memory := memory self;
     llm_provider := llm_provider self; is_user_controlled := b |}.

Module TinyPerson.

(** [TinyPerson(name, llm_provider=...)] *)
Definition init (env : environ) (name : pyval) (provider_name : string) : result TinyPerson :=
  provider ← get_llm_provider env provider_name;
  mret {| persona := [("name", name)]; memory := [];
          llm_provider := provider; is_user_controlled := false |}.

Definition define (key : string) (value : pyval) (self : TinyPerson) : TinyPerson :=
  set_persona (dict_set (persona self) key value) self.

(** [listen]: the [print] reads [persona['name']] first, then the
    message is remembered. *)
Definition listen (message : string) (self : TinyPerson) : result TinyPerson :=
  _ ← dict_getitem (persona self) "name";
  mret (set_memory (memory self ++ ["Heard: " +:+ message]) self).

(** The loop of [_build_prompt] over [persona.items()]. *)
Fixpoint describe (items : list (string * pyval)) (persona_desc : string) : string :=
  match items with
  | [] => persona_desc
  | (key, value) :: rest =>
      if String.eqb key "name" then describe rest persona_desc
      else describe rest
             (persona_desc +:+ "Your " +:+ key +:+ " is " +:+ py_str value +:+ ". ")
  end.

(** [xs[-n:]] *)
Definition last_n {A} (n : nat) (xs : list A) : list A :=
  drop (length xs - n) xs.

Definition _build_prompt (self : TinyPerson) : result string :=
  name ← dict_getitem (persona self) "name";
  let persona_desc := describe (persona self) ("You are " +:+ py_str name +:+ ". ") in
  let memory_str := join newline (last_n 5 (memory self)) in
  mret (persona_desc +:+ newline +:+ newline +:+ "Recent conversation:" +:+ newline
        +:+ memory_str +:+ newline +:+ newline +:+ "What do you say or do next?").

(** [act]: in human-controlled mode the last memory entry, [IndexError]
    on an empty memory; otherwise one call of the provider, whose answer
    is remembered and returned. *)
Definition act (service : LLMProvider → string → nat → api_outcome) (self : TinyPerson)
  : result string * TinyPerson :=
  if is_user_controlled self then
    match last (memory self) with
    | Some entry => (Ok entry, self)
    | None => (Raised IndexError, self)
    end
  else
    match _build_prompt self with
    | Raised e => (Raised e, self)
    | Ok prompt =>
        let response := generate (llm_provider self) service prompt 150 in
        (Ok response, set_memory (memory self ++ ["Said: " +:+ response]) self)
    end.

End TinyPerson.

(** ** case_manager.py *)

Record Case : Type := {
  case_number : pyval;
  title : pyval;
  summary : pyval;
  legal_system : pyval;
  plaintiff : pyval;
  defendant : pyval;
  evidence : pyval;
  witnesses : pyval;
}.

Module Case.

(** [Case(case_data)]: every field is read with [.get], so a missing key
    gives [None] (or the empty list); a value that is no dict has no
    [.get] at all. *)
Definition init (case_data : pyval) : result Case :=
  case_number ← method_get case_data "case_number" PNone;
  title ← method_get case_data "title" PNone;
  summary ← method_get case_data "summary" PNone;
  legal_system ← method_get case_data "legal_system" PNone;
  plaintiff ← method_get case_data "plaintiff" PNone;
  defendant ← method_get case_data "defendant" PNone;
  evidence ← method_get case_data "evidence" (PList []);
  witnesses ← method_get case_data "witnesses" (PList []);
  mret {| case_number := case_number; title := title; summary := summary;
          legal_system := legal_system; plaintiff := plaintiff;
          defendant := defendant; evidence := evidence; witnesses := witnesses |}.

End Case.

(** What [open(filepath)] followed by [json.load] does: [open] raises
    [FileNotFoundError], [json.load] raises [JSONDecodeError], the text
    parses, or one of the two raises anything else (the path is a
    directory, the file may not be read, its bytes are no text). *)
Inductive file_read : Type :=
  | NoSuchFile
  | NotJson
  | Parsed (case_data : pyval)
  | Unreadable (e : exn).

Definition filesystem : Type := string → file_read.

(** [load_case] catches [FileNotFoundError] and [JSONDecodeError] only:
    what [Case(case_data)] raises, and any other failure of the read,
    propagates as it is. *)
Definition load_case (fs : filesystem) (filepath : string) : result Case :=
  match fs filepath with
  | Parsed case_data => Case.init case_data
  | NoSuchFile => Raised (Exception ("Case file not found at: " +:+ filepath))
  | NotJson => Raised (Exception ("Error decoding JSON from file: " +:+ filepath))
  | Unreadable e => Raised e
  end.

(** ** courtroom_simulation.py *)

Inductive TrialPhase : Type :=
  | PRE_TRIAL
  | OPENING_STATEMENTS
  | WITNESS_EXAMINATION
  | CLOSING_STATEMENTS
  | DELIBERATION
  | VERDICT.

(** The websocket as the controller sees it: [send] on a closed connection
    raises [ConnectionClosed]. *)
Inductive channel : Type := Open | Closed.

(** An outbound event is the dict handed to [json.dumps]. *)
Definition event : Type := list (string * pyval).

(** Everything the controller task and the handler share.  [case],
    [agents], [websocket], [user_input_queue] and [phase] are the fields of
    [SimulationController]; [agents] and the queue are the very objects the
    handler holds.  [outbound] is the stream of messages the websocket has
    accepted; [service] and [llm_calls] stand for the remote generation
    services and the number of calls made so far. *)
Record world : Type := {
  case : Case;
  agents : gmap string TinyPerson;
  websocket : option channel;
  user_input_queue : list pyval;
  phase : TrialPhase;
  outbound : list event;
  service : backend;
  llm_calls : nat;
}.

Definition set_agents (a : gmap string TinyPerson) (w : world) : world :=
  {| case := case w; agents := a; websocket := websocket w;
     user_input_queue := user_input_queue w; phase := phase w;
     outbound := outbound w; service := service w; llm_calls := llm_calls w |}.

Definition set_websocket (c : option channel) (w : world) : world :=
  {| case := case w; agents := agents w; websocket := c;
     user_input_queue := user_input_queue w; phase := phase w;
     outbound := outbound w; service := service w; llm_calls := llm_calls w |}.

Definition set_user_input_queue (q : list pyval) (w : world) : world :=
  {| case := case w; agents := agents w; websocket := websocket w;
     user_input_queue := q; phase := phase w;
     outbound := outbound w; service := service w; llm_calls := llm_calls w |}.

Definition set_phase (p : TrialPhase) (w : world) : world :=
  {| case := case w; agents := agents w; websocket := websocket w;
     user_input_queue := user_input_queue w; phase := p;
     outbound := outbound w; service := service w; llm_calls := llm_calls w |}.

Definition set_outbound (o : list event) (w : world) : world :=
  {| case := case w; agents := agents w; websocket := websocket w;
     user_input_queue := user_input_queue w; phase := phase w;
     outbound := o; service := service w; llm_calls := llm_calls w |}.

Definition set_llm_calls (n : nat) (w : world) : world :=
  {| case := case w; agents := agents w; websocket := websocket w;
     user_input_queue := user_input_queue w; phase := phase w;
     outbound := outbound w; service := service w; llm_calls := n |}.

(** *** Coroutines

    An [async def] is a tree of synchronous blocks separated by the three
    awaits the controller uses.  A synchronous block runs atomically on the
    shared [world]; at an await the event loop may run the handler. *)
Inductive coro (A : Type) : Type :=
  | Return (a : A)
  | Throw (e : exn)
  | Sync {X : Type} (f : world → result X * world) (k : X → coro A)
  | AwaitSend (payload : event) (k : coro A)
  | AwaitSleep (seconds : nat) (k : coro A)
  | AwaitGet (k : pyval → coro A).
Arguments Return {A} a.
Arguments Throw {A} e.
Arguments Sync {A X} f k.
Arguments AwaitSend {A} payload k.
Arguments AwaitSleep {A} seconds k.
Arguments AwaitGet {A} k.

Fixpoint coro_bind {A B} (k : A → coro B) (c : coro A) : coro B :=
  match c with
  | Return a => k a
  | Throw e => Throw e
  | Sync f k' => Sync f (λ x, coro_bind k (k' x))
  | AwaitSend payload k' => AwaitSend payload (coro_bind k k')
  | AwaitSleep seconds k' => AwaitSleep seconds (coro_bind k k')
  | AwaitGet k' => AwaitGet (λ x, coro_bind k (k' x))
  end.

#[global] Instance coro_mret : MRet coro := λ A a, Return a.
#[global] Instance coro_mbind : MBind coro := λ A B k c, coro_bind k c.

(** A synchronous block that only reads, and one that only writes. *)
Definition read {X} (f : world → X) : coro X :=
  Sync (λ w, (Ok (f w), w)) Return.

Definition write (f : world → world) : coro () :=
  Sync (λ w, (Ok (), f w)) Return.

(** A [TinyPerson] is held by reference: a reference is the key under which
    the object sits in [agents], and a method call acts on the object in the
    shared dict. *)
Definition with_agent {X} (agent : string)
    (method : world → TinyPerson → result X * TinyPerson) : coro X :=
  Sync (λ w, match agents w !! agent with
             | Some self =>
                 let '(r, self') := method w self in
                 (r, set_agents (<[agent := self']> (agents w)) w)
             | None => (Raised (KeyError agent), w)
             end) Return.

(** Reading through a reference changes nothing. *)
Definition agent_get {X} (agent : string) (get : TinyPerson → result X) : coro X :=
  Sync (λ w, match agents w !! agent with
             | Some self => (get self, w)
             | None => (Raised (KeyError agent), w)
             end) Return.

Definition agent_field {X} (agent : string) (field : TinyPerson → X) : coro X :=
  agent_get agent (λ self, Ok (field self)).

Module SimulationController.

Definition send_event (event_data : event) : coro () :=
  ws ← read websocket;
  match ws with
  | Some _ => AwaitSend event_data (Return ())
  | None => Return ()
  end.

Definition listen (agent : string) (message : string) : coro () :=
  with_agent agent (λ _ self,
    match TinyPerson.listen message self with
    | Ok self' => (Ok (), self')
    | Raised e => (Raised e, self)
    end).

(** [agent.act()]: an autonomous agent makes the next call of the
    session to its provider. *)
Definition act (agent : string) : coro string :=
  Sync (λ w, match agents w !! agent with
             | Some self =>
                 let '(r, self') := TinyPerson.act (service w (llm_calls w)) self in
                 (r, set_llm_calls
                       (if is_user_controlled self then llm_calls w else S (llm_calls w))
                       (set_agents (<[agent := self']> (agents w)) w))
             | None => (Raised (KeyError agent), w)
             end) Return.

Definition remember (agent : string) (entry : string) : coro () :=
  with_agent agent (λ _ self, (Ok (), set_memory (memory self ++ [entry]) self)).

Definition get_agent_action (agent : string) (prompt : string) : coro pyval :=
  listen agent prompt;;
  user_controlled ← agent_field agent is_user_controlled;
  if user_controlled : bool then
    role ← agent_field agent (λ self, dict_get (persona self) "role" (PStr "unknown"));
    send_event [("event", PStr "request_user_input"); ("role", role)];;
    user_message ← AwaitGet Return;
    remember agent ("Said: " +:+ py_str user_message);;
    mret user_message
  else
    response ← act agent;
    mret (PStr response).

(** [self.agents['prosecutor']]: the reference, or [KeyError]. *)
Definition agents_getitem (key : string) : coro string :=
  Sync (λ w, match agents w !! key with
             | Some _ => (Ok key, w)
             | None => (Raised (KeyError key), w)
             end) Return.

Definition persona_name (agent : string) : coro pyval :=
  agent_get agent (λ self, dict_getitem (persona self) "name").

(** The two f-strings of [run_opening_statements]. *)
Definition prompt_p (c : Case) : string :=
  "The trial for '" +:+ py_str (title c)
  +:+ "' has begun. As the prosecutor, present your opening statement. Summarize the case: "
  +:+ py_str (summary c) +:+ ".".

Definition prompt_d (name_p name_d : pyval) : string :=
  "Thank you, " +:+ py_str name_p +:+ ". Now, " +:+ py_str name_d
  +:+ ", you may present your opening statement.".

Definition run_opening_statements : coro () :=
  send_event [("event", PStr "phase_starts"); ("phase", PStr "Opening Statements")];;
  prosecutor ← agents_getitem "prosecutor";
  defense_lawyer ← agents_getitem "defense_lawyer";
  c ← read case;
  prosecutor_statement ← get_agent_action prosecutor (prompt_p c);
  name_p ← persona_name prosecutor;
  send_event [("event", PStr "agent_speaks"); ("agent_name", name_p);
              ("message", prosecutor_statement)];;
  AwaitSleep 1 (Return ());;
  name_p ← persona_name prosecutor;
  name_d ← persona_name defense_lawyer;
  defense_statement ← get_agent_action defense_lawyer (prompt_d name_p name_d);
  name_d ← persona_name defense_lawyer;
  send_event [("event", PStr "agent_speaks"); ("agent_name", name_d);
              ("message", defense_statement)];;
  AwaitSleep 1 (Return ()).

Definition run : coro () :=
  c ← read case;
  send_event [("event", PStr "trial_starts"); ("case_title", title c)];;
  write (set_phase OPENING_STATEMENTS);;
  run_opening_statements;;
  send_event [("event", PStr "trial_finished")].

End SimulationController.

(** [create_courtroom_agents(case, llm_provider)] *)
Definition create_courtroom_agents (env : environ) (c : Case) (llm_provider : string)
  : result (gmap string TinyPerson) :=
  let agents : gmap string TinyPerson := ∅ in
  judge ← TinyPerson.init env (PStr "Judge Reynolds") llm_provider;
  let judge := TinyPerson.define "age" (PInt 65) judge in
  let judge := TinyPerson.define "occupation"
      (PDict [("title", PStr "Judge"); ("organization", PStr "District Court")]) judge in
  let judge := TinyPerson.define "personality"
      (PDict [("traits", PList [PStr "impartial"; PStr "stern";
                                PStr "knowledgeable in law"; PStr "patient"])]) judge in
  let agents := <["judge" := judge]> agents in
  name ← subscript (plaintiff c) "lawyer";
  prosecutor ← TinyPerson.init env name llm_provider;
  let prosecutor := TinyPerson.define "age" (PInt 35) prosecutor in
  let prosecutor := TinyPerson.define "occupation"
      (PDict [("title", PStr "Prosecutor");
              ("organization", PStr "District Attorney's Office")]) prosecutor in
  let prosecutor := TinyPerson.define "personality"
      (PDict [("traits", PList [PStr "ambitious"; PStr "skilled orator";
                                PStr "determined"; PStr "believes in evidence"])]) prosecutor in
  let agents := <["prosecutor" := prosecutor]> agents in
  name ← subscript (defendant c) "lawyer";
  defense_lawyer ← TinyPerson.init env name llm_provider;
  let defense_lawyer := TinyPerson.define "age" (PInt 42) defense_lawyer in
  let defense_lawyer := TinyPerson.define "occupation"
      (PDict [("title", PStr "Defense Lawyer");
              ("organization", PStr "Faye & Associates")]) defense_lawyer in
  let defense_lawyer := TinyPerson.define "personality"
      (PDict [("traits", PList [PStr "charismatic"; PStr "persuasive";
                                PStr "staunch defender"; PStr "empathetic"])]) defense_lawyer in
  let agents := <["defense_lawyer" := defense_lawyer]> agents in
  mret agents.

(** ** server.py *)

(** The controller task, as [asyncio] holds it. *)
Inductive task : Type :=
  | Pending (c : coro ())
  | Finished
  | Crashed (e : exn)
  | Cancelled.

(** One connection: the shared objects, the task created for
    [controller.run()], and whether [handler] is still in its loop. *)
Record session : Type := {
  store : world;
  simulation_task : task;
  handler_running : bool;
}.

(** The first lines of [handler], up to [asyncio.create_task]. *)
Definition connect (env : environ) (fs : filesystem) (remote : backend) : result session :=
  let case_file := "cases/case-001.json" in
  c ← load_case fs case_file;
  agents ← create_courtroom_agents env c "openai";
  mret {| store := {| case := c; agents := agents; websocket := Some Open;
                      user_input_queue := []; phase := PRE_TRIAL;
                      outbound := []; service := remote; llm_calls := 0 |};
          simulation_task := Pending SimulationController.run;
          handler_running := true |}.

(** [agents[key].is_user_controlled = b] *)
Definition assign_mode (key : string) (b : bool) (w : world) : result () * world :=
  match agents w !! key with
  | Some self => (Ok (), set_agents (<[key := set_is_user_controlled b self]> (agents w)) w)
  | None => (Raised (KeyError key), w)
  end.

(** Two statements in a row: the second runs unless the first raised. *)
Definition and_then (f g : world → result () * world) (w : world) : result () * world :=
  match f w with
  | (Ok _, w') => g w'
  | (Raised e, w') => (Raised e, w')
  end.

(** The body of the [async for] loop, after [json.loads]. *)
Definition on_message (data : pyval) (w : world) : result () * world :=
  match subscript data "event" with
  | Raised e => (Raised e, w)
  | Ok ev =>
      if eq_str ev "set_role" then
        match subscript data "role" with
        | Raised e => (Raised e, w)
        | Ok role =>
            if eq_str role "prosecutor" then
              and_then (assign_mode "prosecutor" true)
                       (assign_mode "defense_lawyer" false) w
            else if eq_str role "defense" then
              and_then (assign_mode "defense_lawyer" true)
                       (assign_mode "prosecutor" false) w
            else
              and_then (assign_mode "prosecutor" false)
                       (assign_mode "defense_lawyer" false) w
        end
      else if eq_str ev "user_input" then
        match subscript data "message" with
        | Raised e => (Raised e, w)
        | Ok message =>
            (Ok (), set_user_input_queue (user_input_queue w ++ [message]) w)
        end
      else (Ok (), w)
  end.

(** *** The event loop

    [advance] runs the controller task from where it stands to its next
    suspension.  [websocket.send] and [asyncio.sleep] are taken as
    suspension points (the loop may, but need not, run the handler there);
    [queue.get] returns at once when the queue holds an item and leaves
    the task waiting otherwise. *)
Fixpoint advance (c : coro ()) (w : world) : task * world :=
  match c with
  | Return _ => (Finished, w)
  | Throw e => (Crashed e, w)
  | Sync f k =>
      match f w with
      | (Ok x, w') => advance (k x) w'
      | (Raised e, w') => (Crashed e, w')
      end
  | AwaitSend payload k =>
      match websocket w with
      | Some Open => (Pending k, set_outbound (outbound w ++ [payload]) w)
      | Some Closed => (Crashed ConnectionClosed, w)
      | None => (Crashed AttributeError, w)
      end
  | AwaitSleep _ k => (Pending k, w)
  | AwaitGet k =>
      match user_input_queue w with
      | item :: rest => advance (k item) (set_user_input_queue rest w)
      | [] => (Pending c, w)
      end
  end.

(** What the loop can do next. *)
Inductive action : Type :=
  | Tick                     (* the controller task is resumed *)
  | Receive (data : pyval)   (* the handler reads a message that parses *)
  | ReceiveGarbage           (* the handler reads text json.loads rejects *)
  | Break                    (* the connection closes or breaks *)
  | Hangup.                  (* the handler sees the closed connection *)

(** [simulation_task.cancel()] *)
Definition cancel (t : task) : task :=
  match t with
  | Pending _ => Cancelled
  | _ => t
  end.

Definition step (a : action) (s : session) : session :=
  match a with
  | Tick =>
      match simulation_task s with
      | Pending c =>
          let '(t, w) := advance c (store s) in
          {| store := w; simulation_task := t; handler_running := handler_running s |}
      | _ => s
      end
  | Receive data =>
      if handler_running s then
        match on_message data (store s) with
        | (Ok _, w) =>
            {| store := w; simulation_task := simulation_task s; handler_running := true |}
        | (Raised _, w) =>
            {| store := w; simulation_task := cancel (simulation_task s);
               handler_running := false |}
        end
      else s
  | ReceiveGarbage =>
      if handler_running s then
        {| store := store s; simulation_task := cancel (simulation_task s);
           handler_running := false |}
      else s
  | Break =>
      {| store := set_websocket (match websocket (store s) with
                                 | Some _ => Some Closed
                                 | None => None
                                 end) (store s);
         simulation_task := simulation_task s; handler_running := handler_running s |}
  | Hangup =>
      match websocket (store s), handler_running s with
      | Some Closed, true =>
          {| store := store s; simulation_task := cancel (simulation_task s);
             handler_running := false |}
      | _, _ => s
      end
  end.

Definition exec (schedule : list action) (s : session) : session :=
  foldl (λ s a, step a s) s schedule.

(** [handler]: the session is set up, then the loop runs the controller
    task and the inbound reader as the schedule says.  A failure of the
    set-up is raised before any task exists. *)
Definition handler (env : environ) (fs : filesystem) (remote : backend)
    (schedule : list action) : result session :=
  s ← connect env fs remote;
  mret (exec schedule s).

(** ** tinytroupe/environment.py *)

(** [agent.act()] on the object a reference stands for.  The provider is
    called when the agent is autonomous and its prompt could be built. *)
Definition act_through (agent : string) (w : world) : result string * world :=
  match agents w !! agent with
  | Some self =>
      let '(r, self') := TinyPerson.act (service w (llm_calls w)) self in
      (r, set_llm_calls
            (match r with
             | Ok _ => if is_user_controlled self then llm_calls w else S (llm_calls w)
             | Raised _ => llm_calls w
             end)
            (set_agents (<[agent := self']> (agents w)) w))
  | None => (Raised (KeyError agent), w)
  end.

Module TinyWorld.

(** [agents] is a list of references to [TinyPerson]s; the same object may
    be listed more than once. *)
Record TinyWorld : Type := {
  name : string;
  agents : list string;
  current_turn : Z;
}.

Definition init (name : string) (agents : list string) : TinyWorld :=
  {| name := name; agents := agents; current_turn := 0 |}.

(** [for agent in self.agents: agent.act()] *)
Fixpoint everyone_acts (agents : list string) (w : world) : result () * world :=
  match agents with
  | [] => (Ok (), w)
  | agent :: rest =>
      match act_through agent w with
      | (Ok _, w') => everyone_acts rest w'
      | (Raised e, w') => (Raised e, w')
      end
  end.

(** The loop over [range(steps)], for a number of iterations. *)
Fixpoint turns (n : nat) (self : TinyWorld) (w : world)
  : result () * (TinyWorld * world) :=
  match n with
  | O => (Ok (), (self, w))
  | S n' =>
      match everyone_acts (agents self) w with
      | (Ok _, w') =>
          turns n' {| name := name self; agents := agents self;
                      current_turn := current_turn self + 1 |} w'
      | (Raised e, w') => (Raised e, (self, w'))
      end
  end.

(** [run(steps)]: [range] of a negative number is empty. *)
Definition run (steps : Z) (self : TinyWorld) (w : world)
  : result () * (TinyWorld * world) :=
  turns (Z.to_nat steps) self w.

End TinyWorld.

(** * The vocabulary of the statements *)

(** ** Schedules, and what a client observes *)

(** The number of resumptions of the controller task in a schedule. *)
Definition is_tick (a : action) : bool :=
  match a with Tick => true | _ => false end.

Fixpoint ticks (schedule : list action) : nat :=
  match schedule with
  | [] => 0
  | a :: rest => if is_tick a then S (ticks rest) else ticks rest
  end.

(** The outbound stream of a connection. *)
Definition events_of (r : result session) : list event :=
  match r with
  | Ok s => outbound (store s)
  | Raised _ => []
  end.

(** The controller task ran to completion. *)
Definition completed (r : result session) : bool :=
  match r with
  | Ok s => match simulation_task s with Finished => true | _ => false end
  | Raised _ => false
  end.

(** What became of the controller task. *)
Definition crashed_with (r : result session) : option exn :=
  match r with
  | Ok s => match simulation_task s with Crashed e => Some e | _ => None end
  | Raised _ => None
  end.

(** The controller task stands at [queue.get]: a role awaits input. *)
Definition awaiting_input (r : result session) : bool :=
  match r with
  | Ok s => match simulation_task s with Pending (AwaitGet _) => true | _ => false end
  | Raised _ => false
  end.

Definition memory_of (r : result session) (agent : string) : option (list string) :=
  match r with
  | Ok s => memory <$> agents (store s) !! agent
  | Raised _ => None
  end.

Definition event_kind (e : event) : pyval := dict_get e "event" PNone.

Definition is_phase_starts (e : event) : bool := eq_str (event_kind e) "phase_starts".

Definition phase_starts_of (stream : list event) : list event :=
  List.filter is_phase_starts stream.

Definition opening_event : event :=
  [("event", PStr "phase_starts"); ("phase", PStr "Opening Statements")].

(** The enumeration [TrialPhase], in order. *)
Definition all_phases : list TrialPhase :=
  [PRE_TRIAL; OPENING_STATEMENTS; WITNESS_EXAMINATION; CLOSING_STATEMENTS;
   DELIBERATION; VERDICT].

Definition is_ok {A} (r : result A) : Prop :=
  match r with Ok _ => True | Raised _ => False end.

(** ** Weakest preconditions under interference

    [wp R waits c n Φ w]: started in [w] after [n] suspensions, the
    coroutine [c] ends only in outcomes that satisfy [Φ], whatever the
    handler does to the world at each suspension within the rely [R].
    [waits] says whether the task may be left waiting on an empty queue. *)
Section weakest_pre.
Context (R : relation world) (waits : Prop).

Fixpoint wp {A} (c : coro A) (n : nat) (Φ : result A → nat → world → Prop)
    (w : world) : Prop :=
  match c with
  | Return a => Φ (Ok a) n w
  | Throw e => Φ (Raised e) n w
  | Sync f k =>
      match f w with
      | (Ok x, w') => wp (k x) n Φ w'
      | (Raised e, w') => Φ (Raised e) n w'
      end
  | AwaitSend payload k =>
      match websocket w with
      | Some Open =>
          ∀ w', R (set_outbound (outbound w ++ [payload]) w) w' → wp k (S n) Φ w'
      | Some Closed => Φ (Raised ConnectionClosed) n w
      | None => Φ (Raised AttributeError) n w
      end
  | AwaitSleep _ k => ∀ w', R w w' → wp k (S n) Φ w'
  | AwaitGet k =>
      (user_input_queue w = [] → waits) ∧
      ∀ w', R w w' → ∀ item rest, user_input_queue w' = item :: rest →
            wp (k item) n Φ (set_user_input_queue rest w')
  end.

(** An action of the environment that stays within the rely. *)
Definition respects (a : action) : Prop :=
  a = Tick ∨ ∀ s, R (store s) (store (step a s)).

(** One that in addition leaves the task alone. *)
Definition harmless (a : action) : Prop :=
  a = Tick ∨ ∀ s, R (store s) (store (step a s)) ∧
                  simulation_task (step a s) = simulation_task s.

(** What is known of the task of a session after [t] resumptions. *)
Definition task_inv (Φ : result () → nat → world → Prop) (t : nat) (s : session) : Prop :=
  match simulation_task s with
  | Pending k => ∃ n, (waits ∨ n = t) ∧ ∀ w', R (store s) w' → wp k n Φ w'
  | Finished => ∃ n w1, Φ (Ok ()) n w1 ∧ R w1 (store s)
  | Crashed e => ∃ n w1, Φ (Raised e) n w1 ∧ R w1 (store s)
  | Cancelled => True
  end.

End weakest_pre.

(** ** What the handler may do to the world between two resumptions *)

(** The handler never writes to the outbound stream and never detaches the
    websocket; it may do anything else. *)
Definition any_env (w w' : world) : Prop :=
  outbound w' = outbound w ∧ (websocket w ≠ None → websocket w' ≠ None).

Definition same_stream (w w' : world) : Prop :=
  outbound w' = outbound w ∧ websocket w' = websocket w.

(** The handler only puts utterances on the queue: everything else in the
    world is as the controller left it. *)
Definition queue_only (w w' : world) : Prop :=
  w' = set_user_input_queue (user_input_queue w') w.

(** Inbound messages that are no role assignment and do not make the
    handler raise: an utterance, or an event the handler ignores. *)
Definition quiet_message (data : pyval) : bool :=
  match subscript data "event" with
  | Ok ev =>
      if eq_str ev "set_role" then false
      else if eq_str ev "user_input" then
        match subscript data "message" with Ok _ => true | Raised _ => false end
      else true
  | Raised _ => false
  end.

Definition quiet (a : action) : bool :=
  match a with
  | Tick => true
  | Receive data => quiet_message data
  | _ => false
  end.

(** [emits c L]: run to a return under any interference, [c] adds exactly
    the phase events [L] to the stream. *)
Definition emits {A} (c : coro A) (L : list event) : Prop :=
  ∀ n w, websocket w ≠ None →
    wp any_env True c n
       (λ r _ w', is_ok r →
          websocket w' ≠ None
          ∧ phase_starts_of (outbound w') = phase_starts_of (outbound w) ++ L) w.

(** ** Inbound messages *)

(** An utterance, as the handler reads it. *)
Definition is_utterance (data message : pyval) : Prop :=
  subscript data "event" = Ok (PStr "user_input")
  ∧ subscript data "message" = Ok message.

Definition is_role_assignment (data role : pyval) : Prop :=
  subscript data "event" = Ok (PStr "set_role")
  ∧ subscript data "role" = Ok role.

(** The agent a role assignment hands to the client, if any: the handler
    knows the roles [prosecutor] and [defense]; any other value is the
    spectator. *)
Definition human_agent (role : pyval) : option string :=
  if eq_str role "prosecutor" then Some "prosecutor"
  else if eq_str role "defense" then Some "defense_lawyer"
  else None.

(** The modes a role assignment leaves the two lawyers in. *)
Definition assigned (role : pyval) (key : string) : bool :=
  bool_decide (human_agent role = Some key).

(** ** The two autonomous turns of a session *)
Section turns.
Context (w0 : world) (p d : TinyPerson) (name_p name_d : pyval).

(** What each of the two lawyers has heard when the provider is called, and
    what [act] then returns. *)
Definition heard_p : TinyPerson :=
  set_memory (memory p ++ ["Heard: " +:+ SimulationController.prompt_p (case w0)]) p.

Definition heard_d : TinyPerson :=
  set_memory (memory d ++ ["Heard: " +:+ SimulationController.prompt_d name_p name_d]) d.

Definition statement_p : result string :=
  (TinyPerson.act (service w0 (llm_calls w0)) heard_p).1.

Definition statement_d : result string :=
  (TinyPerson.act (service w0 (S (llm_calls w0))) heard_d).1.

End turns.

(** ** Human turns *)

(** The rest of the human branch of [get_agent_action], once the request
    for input has been sent. *)
Definition await_user_message (agent : string) : coro pyval :=
  user_message ← AwaitGet Return;
  SimulationController.remember agent ("Said: " +:+ py_str user_message);;
  mret user_message.

Definition request_user_input (self : TinyPerson) : event :=
  [("event", PStr "request_user_input");
   ("role", dict_get (persona self) "role" (PStr "unknown"))].

(** ** Generation failures and unusable case files *)

(** What a client sees of a failed generation: the text of the turn starts
    with this word. *)
Definition error_indicator : string := "Error".

Definition has_error_indicator (message : string) : bool :=
  String.prefix error_indicator message.

(** The [call]-th request of the session fails, whatever is asked. *)
Definition fails (remote : backend) (call : nat) : Prop :=
  ∀ provider prompt max_tokens,
    match remote call provider prompt max_tokens with
    | Completed _ => False
    | _ => True
    end.

(** The case file cannot be used: it is missing, it cannot be read, it is
    no JSON, the JSON is no object, or the object gives no lawyer for the
    plaintiff or for the defendant. *)
Definition names_lawyer (party : pyval) : bool :=
  match subscript party "lawyer" with Ok _ => true | Raised _ => false end.

Definition unusable (f : file_read) : bool :=
  match f with
  | NoSuchFile | NotJson | Unreadable _ => true
  | Parsed (PDict d) =>
      negb (names_lawyer (dict_get d "plaintiff" PNone)
            && names_lawyer (dict_get d "defendant" PNone))
  | Parsed _ => true
  end.

(** ** The modes of the agents *)

(** The mode of every agent of the session. *)
Definition modes (w : world) : gmap string bool := is_user_controlled <$> agents w.

(** No synchronous block of the coroutine touches a mode. *)
Fixpoint keeps_modes {A} (c : coro A) : Prop :=
  match c with
  | Return _ | Throw _ => True
  | Sync f k => (∀ w, modes (f w).2 = modes w) ∧ ∀ x, keeps_modes (k x)
  | AwaitSend _ k => keeps_modes k
  | AwaitSleep _ k => keeps_modes k
  | AwaitGet k => ∀ x, keeps_modes (k x)
  end.

(** The agents of a courtroom session and their modes: the judge is never
    human-controlled. *)
Definition courtroom_modes (bp bd : bool) : gmap string bool :=
  <["defense_lawyer" := bd]> (<["prosecutor" := bp]> (<["judge" := false]> ∅)).

Definition courtroom (w : world) : Prop :=
  ∃ bp bd, modes w = courtroom_modes bp bd.

(** What holds of every session the handler can be in. *)
Definition session_inv (s : session) : Prop :=
  courtroom (store s)
  ∧ match simulation_task s with Pending k => keeps_modes k | _ => True end.

(** ** A running example *)

Definition state_v_doe : pyval :=
  PDict [("title", PStr "State v. Doe"); ("summary", PStr "A theft.");
         ("plaintiff", PDict [("lawyer", PStr "Ann")]);
         ("defendant", PDict [("lawyer", PStr "Bob")])].

(** The [Case] object made from it. *)
Definition doe_case : Case :=
  {| case_number := PNone; title := PStr "State v. Doe"; summary := PStr "A theft.";
     legal_system := PNone;
     plaintiff := PDict [("lawyer", PStr "Ann")];
     defendant := PDict [("lawyer", PStr "Bob")];
     evidence := PList []; witnesses := PList [] |}.

Definition disk (case_data : pyval) : filesystem :=
  λ path, if String.eqb path "cases/case-001.json" then Parsed case_data else NoSuchFile.

Definition with_key : environ := {| OPENAI_API_KEY := Some "sk-test" |}.

(** A service that answers every request with the same text. *)
Definition echo (text : string) : backend := λ _ _ _ _, Completed text.

(** A service whose first call fails. *)
Definition flaky (text : string) : backend :=
  λ n _ _ _, match n with O => OtherException "timeout" | _ => Completed text end.

(** The session of the running example, as [connect] makes it. *)
Definition doe_agents : gmap string TinyPerson :=
  match create_courtroom_agents with_key doe_case "openai" with
  | Ok agents => agents
  | Raised _ => ∅
  end.

Definition doe_start (remote : backend) : session :=
  {| store := {| case := doe_case; agents := doe_agents; websocket := Some Open;
                 user_input_queue := []; phase := PRE_TRIAL;
                 outbound := []; service := remote; llm_calls := 0 |};
     simulation_task := Pending SimulationController.run;
     handler_running := true |}.

Definition hello : pyval :=
  PDict [("event", PStr "user_input"); ("message", PStr "hello?")].

Definition take_prosecution : pyval :=
  PDict [("event", PStr "set_role"); ("role", PStr "prosecutor")].

Definition take_defense : pyval :=
  PDict [("event", PStr "set_role"); ("role", PStr "defense")].

(** A session in which nothing happens any more. *)
Definition lobby : session :=
  {| store := {| case := doe_case; agents := ∅; websocket := Some Open;
                 user_input_queue := [PStr "first"]; phase := OPENING_STATEMENTS;
                 outbound := []; service := echo "Your Honour."; llm_calls := 2 |};
     simulation_task := Finished;
     handler_running := true |}.

Definition juror : TinyPerson :=
  {| persona := [("name", PStr "Ann")];
     memory := ["Heard: All rise."; "Said: Good morning."; "Heard: Please proceed."];
     llm_provider := OllamaProvider "http://localhost:11434";
     is_user_controlled := true |}.

Definition ann : TinyPerson :=
  {| persona := [("name", PStr "Ann")];
     memory := ["Heard: Your opening statement."; "Said: Your Honour."];
     llm_provider := OpenAIProvider "sk-test"; is_user_controlled := false |}.

Definition bob : TinyPerson :=
  {| persona := [("name", PStr "Bob")]; memory := ["Heard: Thank you, Ann."];
     llm_provider := OpenAIProvider "sk-test"; is_user_controlled := true |}.

(** Bob's turn is waiting for the client. *)
Definition bob_waits : session :=
  {| store := {| case := doe_case;
                 agents := <["defense_lawyer" := bob]> (<["prosecutor" := ann]> ∅);
                 websocket := Some Open; user_input_queue := [];
                 phase := OPENING_STATEMENTS;
                 outbound := [request_user_input bob];
                 service := echo "Your Honour."; llm_calls := 1 |};
     simulation_task := Pending (await_user_message "defense_lawyer" ≫= λ _, Return ());
     handler_running := true |}.

(** ** Personas and prompts *)

(** The keys of a dict, in order. *)
Definition keys (d : list (string * pyval)) : list string := map fst d.

(** ** A [TinyWorld] and its agents *)

(** Whether [act] returns for an agent: in human-controlled mode it needs a
    memory entry, otherwise a name to build the prompt with. *)
Definition can_act (self : TinyPerson) : bool :=
  if is_user_controlled self then
    match memory self with [] => false | _ => true end
  else
    match dict_find (persona self) "name" with Some _ => true | None => false end.

(** What [act] raises otherwise. *)
Definition act_error (self : TinyPerson) : exn :=
  if is_user_controlled self then IndexError else KeyError "name".

Definition ready (w : world) (agent : string) : bool :=
  match agents w !! agent with
  | Some self => can_act self
  | None => false
  end.

Definition autonomous (w : world) (agent : string) : bool :=
  match agents w !! agent with
  | Some self => negb (is_user_controlled self)
  | None => false
  end.

(** The provider calls of one turn of a world, and how often an agent is
    listed in it. *)
Definition calls_per_turn (w : world) (agents : list string) : nat :=
  length (List.filter (autonomous w) agents).

Definition occurrences (agent : string) (agents : list string) : nat :=
  length (List.filter (String.eqb agent) agents).

(** An utterance the agent itself has remembered. *)
Definition is_said (entry : string) : bool := String.prefix "Said: " entry.

(** [self'] is [self] with [n] more utterances of its own remembered. *)
Definition said_more (n : nat) (self self' : TinyPerson) : Prop :=
  ∃ said, self' = set_memory (memory self ++ said) self
          ∧ length said = n
          ∧ Forall (λ entry, is_said entry = true) said.

(** The agents of [w'] are those of [w]; each autonomous one has remembered
    [count] more utterances of its own, each human-controlled one is as it
    was. *)
Definition after_turns (count : string → nat) (w w' : world) : Prop :=
  ∀ key, match agents w !! key with
         | Some self =>
             ∃ self', agents w' !! key = Some self'
                      ∧ said_more (if is_user_controlled self then 0 else count key)
                                  self self'
         | None => agents w' !! key = None
         end.

(** ** Relations every step of a session stays within *)

(** The lawyers' references, as [run_opening_statements] holds them. *)
Definition is_lawyer (key : string) : Prop :=
  key = "prosecutor" ∨ key = "defense_lawyer".

(** Everything about an agent but its mode. *)
Definition profile (self : TinyPerson) : list (string * pyval) * list string * LLMProvider :=
  (persona self, memory self, llm_provider self).

(** What the body of the handler's loop may do to the world: put an item on
    the queue, and set the modes of the two lawyers. *)
Definition handler_step (w w' : world) : Prop :=
  outbound w' = outbound w ∧ websocket w' = websocket w
  ∧ case w' = case w ∧ service w' = service w
  ∧ llm_calls w' = llm_calls w ∧ phase w' = phase w
  ∧ (∀ key, profile <$> agents w' !! key = profile <$> agents w !! key)
  ∧ (∀ key, ¬ is_lawyer key → agents w' !! key = agents w !! key).

(** Every synchronous block of the coroutine moves the world within [R];
    [P] holds of what the coroutine returns. *)
Fixpoint sync_within {A} (R : relation world) (c : coro A) (P : A → Prop) : Prop :=
  match c with
  | Return a => P a
  | Throw _ => True
  | Sync f k => ∀ w, R w (f w).2 ∧ ∀ x, (f w).1 = Ok x → sync_within R (k x) P
  | AwaitSend _ k => sync_within R k P
  | AwaitSleep _ k => sync_within R k P
  | AwaitGet k => ∀ x, sync_within R (k x) P
  end.

(** What the event loop and the handler do on their own stays within [R]. *)
Record session_relation (R : relation world) : Prop := {
  relation_preorder : PreOrder R;
  relation_send w e :
    websocket w = Some Open → R w (set_outbound (outbound w ++ [e]) w);
  relation_get w item rest :
    user_input_queue w = item :: rest → R w (set_user_input_queue rest w);
  relation_message data w : R w (on_message data w).2;
  relation_break w :
    R w (set_websocket (match websocket w with
                        | Some _ => Some Closed
                        | None => None
                        end) w);
}.

Definition task_within (R : relation world) (s : session) : Prop :=
  match simulation_task s with
  | Pending k => sync_within R k (λ _, True)
  | _ => True
  end.

(** An agent keeps its persona and its provider, and its memory only grows
    at its end. *)
Definition extends (self self' : TinyPerson) : Prop :=
  memory self `prefix_of` memory self'
  ∧ persona self' = persona self
  ∧ llm_provider self' = llm_provider self.

(** What a turn does to the world: the agent whose turn it is remembers
    more, and the provider may have been called. *)
Definition turn_step (agent : string) (w w' : world) : Prop :=
  ∃ self self' calls,
    agents w !! agent = Some self
    ∧ extends self self'
    ∧ is_user_controlled self' = is_user_controlled self
    ∧ w' = set_llm_calls calls (set_agents (<[agent := self']> (agents w)) w).

(** The stream only grows at its end. *)
Definition stream_grows (w w' : world) : Prop :=
  outbound w `prefix_of` outbound w'.

Definition histories_grow (w w' : world) : Prop :=
  ∀ key self, agents w !! key = Some self →
    ∃ self', agents w' !! key = Some self' ∧ extends self self'.

(** The websocket stays attached; once closed it stays closed, and nothing
    is sent on it. *)
Definition once_closed (w w' : world) : Prop :=
  (websocket w ≠ None → websocket w' ≠ None)
  ∧ (websocket w = Some Closed →
     websocket w' = Some Closed ∧ outbound w' = outbound w).

(** The queue is left as it is. *)
Definition same_queue (w w' : world) : Prop :=
  user_input_queue w' = user_input_queue w.

(** [takes b c Q]: no synchronous block of [c] touches the queue, and before
    it next suspends at a send or a sleep [c] takes at most [b] items from
    it; [Q] holds of what [c] returns and of what is then left of [b]. *)
Fixpoint takes {A} (b : nat) (c : coro A) (Q : A → nat → Prop) : Prop :=
  match c with
  | Return a => Q a b
  | Throw _ => True
  | Sync f k => (∀ w, same_queue w (f w).2) ∧ ∀ x, takes b (k x) Q
  | AwaitSend _ k => takes 1 k Q
  | AwaitSleep _ k => takes 1 k Q
  | AwaitGet k =>
      match b with
      | O => False
      | S b' => ∀ x, takes b' (k x) Q
      end
  end.

(** The item a parsed message makes the handler put on the queue: the
    [message] of a [user_input]. *)
Definition utterance_of (data : pyval) : option pyval :=
  match subscript data "event" with
  | Ok ev =>
      if eq_str ev "set_role" then None
      else if eq_str ev "user_input" then
        match subscript data "message" with
        | Ok message => Some message
        | Raised _ => None
        end
      else None
  | Raised _ => None
  end.

(** What arrives on the queue with one action of the loop, and along a
    schedule, in order of arrival: the utterances a running handler
    reads. *)
Definition arrival (a : action) (s : session) : list pyval :=
  match a with
  | Receive data =>
      if handler_running s then
        match utterance_of data with
        | Some message => [message]
        | None => []
        end
      else []
  | _ => []
  end.

Fixpoint arrivals (schedule : list action) (s : session) : list pyval :=
  match schedule with
  | [] => []
  | a :: rest => arrival a s ++ arrivals rest (step a s)
  end.

(** The case, the services and every agent other than the two lawyers are
    left as they are; the phase is kept or set to the opening statements. *)
Definition lawyers_only (w w' : world) : Prop :=
  case w' = case w ∧ service w' = service w
  ∧ (phase w' = phase w ∨ phase w' = OPENING_STATEMENTS)
  ∧ ∀ key, key ≠ "prosecutor" → key ≠ "defense_lawyer" →
           agents w' !! key = agents w !! key.


Definition agent_of (r : result session) (key : string) : option TinyPerson :=
  match r with
  | Ok s => agents (store s) !! key
  | Raised _ => None
  end.

(** ** The end of the handler *)

(** An inbound message the loop body accepts: an object with an [event]
    field; a role assignment has a [role], an utterance a [message]. *)
Definition well_formed (data : pyval) : bool :=
  match subscript data "event" with
  | Ok ev =>
      if eq_str ev "set_role" then
        match subscript data "role" with Ok _ => true | Raised _ => false end
      else if eq_str ev "user_input" then
        match subscript data "message" with Ok _ => true | Raised _ => false end
      else true
  | Raised _ => false
  end.

(** The actions that make a running handler leave its loop. *)
Definition ends_handler (a : action) (s : session) : bool :=
  match a with
  | ReceiveGarbage => true
  | Receive data => negb (well_formed data)
  | Hangup => match websocket (store s) with Some Closed => true | _ => false end
  | _ => false
  end.


(** ** Transcripts *)

(** What the handler may do between two resumptions of the controller, for
    a given property [link] of the connection that it keeps: it leaves the
    stream, the case, the number of calls and every persona alone. *)
Definition handler_env (link : option channel → Prop) (w w' : world) : Prop :=
  outbound w' = outbound w
  ∧ (link (websocket w) → link (websocket w'))
  ∧ case w' = case w
  ∧ llm_calls w' = llm_calls w
  ∧ ∀ key, persona <$> agents w' !! key = persona <$> agents w !! key.

(** The session plays case [c], and the two lawyers have these personas. *)
Definition cast (link : option channel → Prop) (c : Case)
    (persona_p persona_d : list (string * pyval)) (w : world) : Prop :=
  link (websocket w) ∧ case w = c
  ∧ persona <$> agents w !! "prosecutor" = Some persona_p
  ∧ persona <$> agents w !! "defense_lawyer" = Some persona_d.

(** [says R I E c Q]: started where [I] holds, under interference within
    [R], the coroutine [c] either raises an exception of [E] or returns an
    [a], having sent the events [L] and made [m] provider calls, with
    [Q a L m]; [I] holds again. *)
Definition says (R : relation world) (I : world → Prop) (E : exn → Prop)
    {A} (c : coro A) (Q : A → list event → nat → Prop) : Prop :=
  ∀ n w, I w →
    wp R True c n
       (λ r _ w', match r with
                  | Ok a => I w' ∧ ∃ L m, Q a L m
                                         ∧ outbound w' = outbound w ++ L
                                         ∧ llm_calls w' = (llm_calls w + m)%nat
                  | Raised e => E e
                  end) w.

(** The events of a turn: a request for input when the turn is the
    client's, then the statement. *)
Definition turn_events (human : bool) (role name message : pyval) : list event :=
  (if human then [ [("event", PStr "request_user_input"); ("role", role)] ] else [])
  ++ [ [("event", PStr "agent_speaks"); ("agent_name", name); ("message", message)] ].

(** The stream of a session that ran to its end. *)
Definition transcript (c : Case) (role_p role_d name_p name_d : pyval)
    (human_p human_d : bool) (m_p m_d : pyval) : list event :=
  [ [("event", PStr "trial_starts"); ("case_title", title c)]; opening_event ]
  ++ turn_events human_p role_p name_p m_p
  ++ turn_events human_d role_d name_d m_d
  ++ [ [("event", PStr "trial_finished")] ].

(** The provider calls of a session with these turns. *)
Definition generated (human_p human_d : bool) : nat :=
  ((if human_p then 0 else 1) + (if human_d then 0 else 1))%nat.

(** ** A small world *)

(** A human-controlled agent that has not heard anything yet. *)
Definition silent_bob : TinyPerson :=
  {| persona := [("name", PStr "Bob")]; memory := [];
     llm_provider := OpenAIProvider "sk-test"; is_user_controlled := true |}.

Definition chamber (second : TinyPerson) : world :=
  {| case := doe_case; agents := <["bob" := second]> (<["ann" := ann]> ∅);
     websocket := None; user_input_queue := []; phase := PRE_TRIAL;
     outbound := []; service := echo "Your Honour."; llm_calls := 0 |}.

(** * The program logic of the controller task *)

(** ** The rules of the weakest precondition *)
Section weakest_pre_rules.
Context (R : relation world) (waits : Prop).
Local Abbreviation wp := (wp R waits).
Local Abbreviation respects := (respects R).
Local Abbreviation harmless := (harmless R).
Local Abbreviation task_inv := (task_inv R waits).

Lemma wp_mono {A} (c : coro A) n (Φ Ψ : result A → nat → world → Prop) w :
  (∀ r m w', Φ r m w' → Ψ r m w') → wp c n Φ w → wp c n Ψ w.
Proof.
  intros HΦ. revert n w.
  induction c as [a|e|X f k IH|payload k IH|secs k IH|k IH]; intros n w; simpl.
  - apply HΦ.
  - apply HΦ.
  - destruct (f w) as [[x|e] w']; [apply IH | apply HΦ].
  - destruct (websocket w) as [[]|]; [|apply HΦ..].
    intros H w' Hw'. apply IH, H, Hw'.
  - intros H w' Hw'. apply IH, H, Hw'.
  - intros [Hempty H]. split; [exact Hempty|].
    intros w' Hw' item rest Hq. apply IH. by eapply H.
Qed.

Lemma wp_bind {A B} (c : coro A) (k : A → coro B) n Φ w :
  wp c n (λ r m w', match r with
                    | Ok a => wp (k a) m Φ w'
                    | Raised e => Φ (Raised e) m w'
                    end) w →
  wp (c ≫= k) n Φ w.
Proof.
  unfold mbind, coro_mbind. revert n w.
  induction c as [a|e|X f k' IH|payload k' IH|secs k' IH|k' IH]; intros n w; simpl.
  - done.
  - done.
  - destruct (f w) as [[x|e] w']; [apply IH | done].
  - destruct (websocket w) as [[]|]; [|done..].
    intros H w' Hw'. apply IH, H, Hw'.
  - intros H w' Hw'. apply IH, H, Hw'.
  - intros [Hempty H]. split; [exact Hempty|].
    intros w' Hw' item rest Hq. apply IH. by eapply H.
Qed.

Context `{!PreOrder R}.

(** One resumption of the task. *)
Lemma wp_advance (c : coro ()) n Φ w :
  wp c n Φ w →
  match advance c w with
  | (Pending k, w1) =>
      (∀ w', R w1 w' → wp k (S n) Φ w') ∨ (waits ∧ ∀ w', R w1 w' → wp k n Φ w')
  | (Finished, w1) => Φ (Ok ()) n w1
  | (Crashed e, w1) => Φ (Raised e) n w1
  | (Cancelled, _) => False
  end.
Proof.
  revert w.
  induction c as [[]|e|X f k IH|payload k IH|secs k IH|k IH]; intros w; simpl.
  - done.
  - done.
  - destruct (f w) as [[x|e] w']; [apply IH | done].
  - destruct (websocket w) as [[]|]; [|done..]. intros H. by left.
  - intros H. by left.
  - intros [Hempty H]. destruct (user_input_queue w) as [|item rest] eqn:Hq.
    + right. split; [by apply Hempty|]. intros w' Hw'. simpl. split.
      * intros _. by apply Hempty.
      * intros w'' Hw''. apply H. by etrans.
    + apply IH. by eapply H.
Qed.

(** ** Adequacy: from [wp] to sessions under a schedule *)

Lemma task_inv_tick Φ t s : task_inv Φ t s → task_inv Φ (S t) (step Tick s).
Proof.
  unfold task_inv. simpl. destruct (simulation_task s) as [k| |e|] eqn:Ht;
    rewrite ?Ht; try done.
  intros (n & Hn & H).
  pose proof (wp_advance k n Φ (store s) (H _ (reflexivity _))) as Hadv.
  destruct (advance k (store s)) as [[k'| |e|] w1]; simpl.
  - destruct Hadv as [Hadv|[Hw Hadv]].
    + exists (S n). split; [|done]. destruct Hn as [?| ->]; [by left|by right].
    + exists n. split; [by left|done].
  - exists n, w1. split; [done|reflexivity].
  - exists n, w1. split; [done|reflexivity].
  - done.
Qed.

Lemma cancel_cases (t : task) :
  cancel t = t ∨ cancel t = Cancelled.
Proof. destruct t; auto. Qed.

Lemma step_task (a : action) s :
  a ≠ Tick →
  simulation_task (step a s) = simulation_task s
  ∨ simulation_task (step a s) = Cancelled.
Proof.
  intros Ha. destruct a; [done|..]; simpl.
  - destruct (handler_running s); [|by left].
    destruct (on_message data (store s)) as [[|] ?]; simpl;
      [by left | apply cancel_cases].
  - destruct (handler_running s); [|by left]. apply cancel_cases.
  - by left.
  - destruct (websocket (store s)) as [[]|], (handler_running s); simpl;
      try (by left). apply cancel_cases.
Qed.

Lemma task_inv_env Φ t a s :
  a ≠ Tick → (∀ s, R (store s) (store (step a s))) →
  task_inv Φ t s → task_inv Φ t (step a s).
Proof.
  intros Ha HR. specialize (HR s). unfold task_inv.
  destruct (step_task a s Ha) as [-> | ->]; [|done].
  destruct (simulation_task s) as [k| |e|]; [| | |done].
  - intros (n & Hn & H). exists n. split; [done|].
    intros w' Hw'. apply H. by etrans.
  - intros (n & w1 & H & Hw1). exists n, w1. split; [done|by etrans].
  - intros (n & w1 & H & Hw1). exists n, w1. split; [done|by etrans].
Qed.

Lemma exec_snoc schedule a s : exec (schedule ++ [a]) s = step a (exec schedule s).
Proof. unfold exec. by rewrite foldl_app. Qed.

Lemma ticks_snoc schedule a :
  ticks (schedule ++ [a]) = (ticks schedule + if is_tick a then 1 else 0)%nat.
Proof.
  induction schedule as [|b schedule IH]; simpl.
  - by destruct (is_tick a).
  - rewrite IH. by destruct (is_tick b).
Qed.

Lemma is_tick_spec a : is_tick a = true ↔ a = Tick.
Proof. by destruct a. Qed.

Theorem adequacy Φ schedule s :
  Forall respects schedule →
  task_inv Φ 0 s →
  task_inv Φ (ticks schedule) (exec schedule s).
Proof.
  induction schedule as [|a schedule IH] using rev_ind; [done|].
  rewrite Forall_app, Forall_singleton. intros [Hall Ha] Hs.
  rewrite exec_snoc, ticks_snoc. specialize (IH Hall Hs).
  destruct (is_tick a) eqn:Htick.
  - apply is_tick_spec in Htick as ->. rewrite Nat.add_1_r. by apply task_inv_tick.
  - rewrite Nat.add_0_r. destruct Ha as [-> |Ha]; [done|].
    apply task_inv_env; [by intros -> | done..].
Qed.

(** *** Termination within a known number of resumptions *)

Lemma wp_bound {A} (c : coro A) n N (Φ : result A → nat → world → Prop) w :
  ¬ waits →
  (∀ e m w', ¬ Φ (Raised e) m w') →
  (∀ a m w', Φ (Ok a) m w' → m ≤ N)%nat →
  wp c n Φ w → (n ≤ N)%nat.
Proof.
  intros Hwaits Hraise Hok. revert n w.
  induction c as [a|e|X f k IH|payload k IH|secs k IH|k IH]; intros n w; simpl.
  - apply Hok.
  - intros H. by apply Hraise in H.
  - destruct (f w) as [[x|e] w']; [apply IH|]. intros H. by apply Hraise in H.
  - destruct (websocket w) as [[]|].
    + intros H. specialize (IH _ _ (H _ (reflexivity _))). lia.
    + intros H. by apply Hraise in H.
    + intros H. by apply Hraise in H.
  - intros H. specialize (IH _ _ (H _ (reflexivity _))). lia.
  - intros [Hempty H]. destruct (user_input_queue w) as [|item rest] eqn:Hq.
    + destruct Hwaits. by apply Hempty.
    + eapply IH, H; [reflexivity|done].
Qed.

Lemma task_inv_harmless Φ t a s :
  harmless a →
  task_inv Φ t s ∧ simulation_task s ≠ Cancelled →
  task_inv Φ (t + if is_tick a then 1 else 0) (step a s)
  ∧ simulation_task (step a s) ≠ Cancelled.
Proof.
  intros Ha [Hinv Hc]. destruct (is_tick a) eqn:Htick.
  - apply is_tick_spec in Htick as ->. rewrite Nat.add_1_r.
    split; [by apply task_inv_tick|].
    simpl. destruct (simulation_task s) as [k| |e|] eqn:Ht; rewrite ?Ht; try done.
    destruct (advance k (store s)) as [[k'| |e|] w1] eqn:Hadv; simpl; try done.
    unfold task_inv in Hinv. rewrite Ht in Hinv. destruct Hinv as (n & _ & H).
    pose proof (wp_advance k n Φ (store s) (H _ (reflexivity _))) as Hk.
    by rewrite Hadv in Hk.
  - rewrite Nat.add_0_r. destruct Ha as [-> |Ha]; [done|].
    destruct (Ha s) as [HR Hsame]. split; [|by rewrite Hsame].
    unfold task_inv in *. rewrite Hsame.
    destruct (simulation_task s) as [k| |e|]; [| | |done].
    + destruct Hinv as (n & Hn & H). exists n. split; [done|].
      intros w' Hw'. apply H. by etrans.
    + destruct Hinv as (n & w1 & H & Hw1). exists n, w1. split; [done|by etrans].
    + destruct Hinv as (n & w1 & H & Hw1). exists n, w1. split; [done|by etrans].
Qed.

Theorem termination Φ N schedule s :
  ¬ waits →
  (∀ e m w', ¬ Φ (Raised e) m w') →
  (∀ m w', Φ (Ok ()) m w' → m ≤ N)%nat →
  Forall harmless schedule →
  task_inv Φ 0 s → simulation_task s ≠ Cancelled →
  (N < ticks schedule)%nat →
  simulation_task (exec schedule s) = Finished
  ∧ ∃ n w1, Φ (Ok ()) n w1 ∧ R w1 (store (exec schedule s)).
Proof.
  intros Hwaits Hraise Hok Hall Hs Hc Hticks.
  assert (task_inv Φ (ticks schedule) (exec schedule s)
          ∧ simulation_task (exec schedule s) ≠ Cancelled) as [Hinv Hnc].
  { clear Hticks. induction schedule as [|a schedule IH] using rev_ind; [done|].
    apply Forall_app in Hall as [Hall Ha]. rewrite Forall_singleton in Ha.
    rewrite exec_snoc, ticks_snoc. apply task_inv_harmless; [done|]. by apply IH. }
  unfold task_inv in Hinv.
  destruct (simulation_task (exec schedule s)) as [k| |e|]; [| | |done].
  - destruct Hinv as (n & [?| ->] & H); [done|].
    assert (ticks schedule ≤ N)%nat; [|lia].
    eapply wp_bound; [done|done| |apply (H _ (reflexivity _))].
    intros []. apply Hok.
  - done.
  - destruct Hinv as (n & w1 & H & _). by apply Hraise in H.
Qed.

End weakest_pre_rules.

(** * Phase events under any schedule *)

#[global] Instance any_env_preorder : PreOrder any_env.
Proof.
  split.
  - by intros w.
  - intros w1 w2 w3 [Ho1 Hw1] [Ho2 Hw2]. split; [congruence|auto].
Qed.

Lemma emits_bind {A B} (c : coro A) (k : A → coro B) L1 L2 :
  emits c L1 → (∀ a, emits (k a) L2) → emits (c ≫= k) (L1 ++ L2).
Proof.
  intros Hc Hk n w Hw. apply wp_bind. eapply wp_mono; [|by apply Hc].
  intros [a|e] m w' H; simpl; [|done].
  destruct H as [Hw' Hlog]; [done|].
  eapply wp_mono; [|by apply Hk].
  intros r m' w'' H Hr. destruct (H Hr) as [? ->]. split; [done|].
  by rewrite Hlog, (assoc_L (++)).
Qed.

Lemma emits_seq {A B} (c : coro A) (c' : coro B) L1 L2 :
  emits c L1 → emits c' L2 → emits (c ;; c') (L1 ++ L2).
Proof. intros Hc Hc'. by apply emits_bind. Qed.

Lemma emits_ret {A} (a : A) : emits (Return a) [].
Proof. intros n w Hw _. simpl. by rewrite app_nil_r. Qed.

Lemma emits_sync {X} (f : world → result X * world) :
  (∀ w, outbound (f w).2 = outbound w ∧ websocket (f w).2 = websocket w) →
  emits (Sync f Return) [].
Proof.
  intros Hf n w Hw. simpl. destruct (Hf w) as [Ho Hws].
  destruct (f w) as [[x|e] w']; simpl in *; [|done].
  intros _. rewrite Ho, Hws, app_nil_r. done.
Qed.

Lemma emits_with_agent {X} agent (method : world → TinyPerson → result X * TinyPerson) :
  emits (with_agent agent method) [].
Proof.
  apply emits_sync. intros w. destruct (agents w !! agent); [|done].
  by destruct (method w t).
Qed.

Lemma emits_agent_get {X} agent (get : TinyPerson → result X) :
  emits (agent_get agent get) [].
Proof. apply emits_sync. intros w. by destruct (agents w !! agent). Qed.

Lemma emits_send_event (e : event) :
  emits (SimulationController.send_event e) (if is_phase_starts e then [e] else []).
Proof.
  intros n w Hw. simpl. destruct (websocket w) as [[]|] eqn:Hws; simpl.
  - rewrite Hws. intros w' [Ho Hw'] _. split.
    + apply Hw'. simpl. by rewrite Hws.
    + rewrite Ho. simpl. unfold phase_starts_of. rewrite List.filter_app. simpl.
      by destruct (is_phase_starts e).
  - rewrite Hws. by intros [].
  - done.
Qed.

Lemma emits_sleep secs : emits (AwaitSleep secs (Return ())) [].
Proof.
  intros n w Hw. simpl. intros w' [Ho Hw'] _. split; [auto|].
  by rewrite Ho, app_nil_r.
Qed.

Lemma emits_get : emits (AwaitGet Return) [].
Proof.
  intros n w Hw. simpl. split; [done|].
  intros w' [Ho Hw'] item rest Hq _. simpl. split; [auto|].
  by rewrite Ho, app_nil_r.
Qed.

Lemma emits_send_other (e : event) :
  is_phase_starts e = false → emits (SimulationController.send_event e) [].
Proof. intros He. pose proof (emits_send_event e) as H. by rewrite He in H. Qed.

(** The pieces of the controller that add no phase event. *)
Ltac emits_nothing :=
  first
    [ apply emits_ret
    | apply emits_with_agent
    | apply emits_agent_get
    | apply emits_get
    | apply emits_sleep
    | apply emits_send_other; reflexivity
    | apply emits_sync; intros ?; simpl; repeat case_match; done ].

Ltac emits_next :=
  first [ apply (emits_seq _ _ [] _); [emits_nothing|]
        | apply (emits_bind _ _ [] _); [emits_nothing|intros ?] ].

Lemma emits_get_agent_action agent prompt :
  emits (SimulationController.get_agent_action agent prompt) [].
Proof.
  unfold SimulationController.get_agent_action, SimulationController.listen,
    SimulationController.remember, agent_field.
  do 2 emits_next. destruct a; repeat emits_next; emits_nothing.
Qed.

Lemma emits_run_opening_statements :
  emits SimulationController.run_opening_statements [opening_event].
Proof.
  unfold SimulationController.run_opening_statements,
    SimulationController.agents_getitem, SimulationController.persona_name, read.
  apply (emits_seq _ _ [opening_event] []); [apply (emits_send_event opening_event)|].
  do 3 emits_next.
  apply (emits_bind _ _ [] []); [apply emits_get_agent_action|intros ?].
  do 5 emits_next.
  apply (emits_bind _ _ [] []); [apply emits_get_agent_action|intros ?].
  do 2 emits_next. emits_nothing.
Qed.

Lemma emits_run : emits SimulationController.run [opening_event].
Proof.
  unfold SimulationController.run, read, write.
  do 3 emits_next.
  apply (emits_seq _ _ [opening_event] []); [apply emits_run_opening_statements|].
  emits_nothing.
Qed.

(** ** What the handler can do to the shared world *)

Lemma assign_mode_frame key b w :
  let w' := (assign_mode key b w).2 in
  outbound w' = outbound w ∧ websocket w' = websocket w
  ∧ user_input_queue w' = user_input_queue w ∧ case w' = case w
  ∧ service w' = service w ∧ llm_calls w' = llm_calls w ∧ phase w' = phase w.
Proof. unfold assign_mode. by destruct (agents w !! key). Qed.

Lemma and_then_frame (P : world → world → Prop) `{!PreOrder P} f g w :
  (∀ w, P w (f w).2) → (∀ w, P w (g w).2) → P w (and_then f g w).2.
Proof.
  intros Hf Hg. unfold and_then. specialize (Hf w).
  destruct (f w) as [[|e] w']; simpl in *; [|done].
  etrans; [exact Hf|apply Hg].
Qed.

#[global] Instance same_stream_preorder : PreOrder same_stream.
Proof.
  split; [by intros w|].
  intros w1 w2 w3 [? ?] [? ?]. split; congruence.
Qed.

Lemma on_message_stream data w : same_stream w (on_message data w).2.
Proof.
  unfold on_message.
  destruct (subscript data "event") as [ev|]; [|done].
  destruct (eq_str ev "set_role").
  - destruct (subscript data "role") as [role|]; [|done].
    repeat case_match; apply and_then_frame; try apply _;
      intros w0; split; apply assign_mode_frame.
  - destruct (eq_str ev "user_input"); [|done].
    by destruct (subscript data "message").
Qed.

Lemma every_action_respects (a : action) : respects any_env a.
Proof.
  destruct a; [by left|right; intros s; simpl..].
  - destruct (handler_running s); [|done].
    pose proof (on_message_stream data (store s)) as [Ho Hws].
    destruct (on_message data (store s)) as [[|e] w']; simpl in *;
      split; congruence.
  - by destruct (handler_running s).
  - split; [done|]. simpl. by destruct (websocket (store s)).
  - by destruct (websocket (store s)) as [[]|], (handler_running s).
Qed.

(** ** The session [connect] sets up *)

Lemma connect_ok env fs remote s :
  connect env fs remote = Ok s →
  ∃ c agents0,
    load_case fs "cases/case-001.json" = Ok c
    ∧ create_courtroom_agents env c "openai" = Ok agents0
    ∧ s = {| store := {| case := c; agents := agents0; websocket := Some Open;
                         user_input_queue := []; phase := PRE_TRIAL;
                         outbound := []; service := remote; llm_calls := 0 |};
             simulation_task := Pending SimulationController.run;
             handler_running := true |}.
Proof.
  unfold connect. intros H.
  destruct (load_case fs "cases/case-001.json") as [c|] eqn:Hc; [|done].
  simpl in H.
  destruct (create_courtroom_agents env c "openai") as [agents0|] eqn:Ha; [|done].
  simpl in H. injection H as <-. by exists c, agents0.
Qed.

Lemma run_task_inv s Φ :
  simulation_task s = Pending SimulationController.run →
  websocket (store s) ≠ None →
  (∀ w', websocket w' ≠ None →
         phase_starts_of (outbound w')
         = phase_starts_of (outbound (store s)) ++ [opening_event] →
         Φ w') →
  task_inv any_env True (λ r _ w', is_ok r → Φ w') 0 s.
Proof.
  intros Ht Hws HΦ. unfold task_inv. rewrite Ht. exists 0%nat. split; [by left|].
  intros w' [Ho Hw']. eapply wp_mono; [|apply emits_run; auto].
  intros r m w'' H Hr. destruct (H Hr) as [? Hlog]. apply HΦ; [done|].
  by rewrite Hlog, Ho.
Qed.

(** C1 (as amended).  Whatever the client sends and whenever, a session
    whose controller task runs to completion has put exactly one
    [phase_starts] event on the outbound stream, the one for the opening
    statements: the controller runs that single phase. *)
Theorem phase_starts_once env fs remote schedule :
  completed (handler env fs remote schedule) = true →
  phase_starts_of (events_of (handler env fs remote schedule)) = [opening_event].
Proof.
  unfold handler. destruct (connect env fs remote) as [s|] eqn:Hs; [|done].
  simpl. apply connect_ok in Hs as (c & agents0 & _ & _ & ->).
  set (s := {| store := _ |}).
  pose proof (adequacy any_env True
    (λ r _ w', is_ok r → phase_starts_of (outbound w') = [opening_event])
    schedule s) as Had.
  destruct (simulation_task (exec schedule s)) eqn:Hfin; try done. intros _.
  unfold task_inv in Had. rewrite Hfin in Had.
  destruct Had as (n & w1 & H & Ho & _).
  - apply Forall_forall. intros a _. apply every_action_respects.
  - by apply (run_task_inv s (λ w', phase_starts_of (outbound w') = [opening_event])).
  - rewrite Ho. by apply H.
Qed.

Lemma phase_starts_once_witness :
  let r := handler with_key (disk state_v_doe) (echo "Your Honour.") (replicate 9 Tick) in
  completed r = true ∧ phase_starts_of (events_of r) = [opening_event].
Proof.
  split; [vm_compute; reflexivity|].
  apply (phase_starts_once with_key (disk state_v_doe) (echo "Your Honour.")
           (replicate 9 Tick)).
  vm_compute. reflexivity.
Defined.

(** C1, as the specification words it, fails: a completed session shows one
    phase event, not one per member of [TrialPhase]. *)
Lemma six_phases_counterexample :
  let r := handler with_key (disk state_v_doe) (echo "Your Honour.") (replicate 9 Tick) in
  completed r = true
  ∧ phase_starts_of (events_of r) = [opening_event]
  ∧ length (phase_starts_of (events_of r)) ≠ length all_phases.
Proof. vm_compute. repeat split; try reflexivity. discriminate. Qed.

(** * Autonomous sessions *)

#[global] Instance queue_only_preorder : PreOrder queue_only.
Proof.
  split.
  - by intros [].
  - intros w1 w2 w3 H12 H23. unfold queue_only in *.
    rewrite H23 at 1. by rewrite H12 at 1.
Qed.

Lemma quiet_harmless a : quiet a = true → harmless queue_only a.
Proof.
  destruct a as [|data| | |]; try done; [by left|].
  simpl. unfold quiet_message. intros Hq. right. intros s. simpl.
  destruct (handler_running s) eqn:Hrun; [|split; [reflexivity|done]].
  unfold on_message.
  destruct (subscript data "event") as [ev|]; [|done].
  destruct (eq_str ev "set_role"); [done|].
  destruct (eq_str ev "user_input").
  - destruct (subscript data "message"); [|done]. by split.
  - split; [reflexivity|done].
Qed.

(** ** Specifications of the controller's methods *)

Lemma act_autonomous service self name :
  is_user_controlled self = false →
  dict_find (persona self) "name" = Some name →
  ∃ prompt,
    TinyPerson._build_prompt self = Ok prompt ∧
    TinyPerson.act service self =
      (Ok (generate (llm_provider self) service prompt 150),
       set_memory (memory self
                   ++ ["Said: " +:+ generate (llm_provider self) service prompt 150]) self).
Proof.
  intros Hauto Hname. unfold TinyPerson.act, TinyPerson._build_prompt, dict_getitem.
  rewrite Hauto, Hname. simpl. by eexists.
Qed.

Lemma listen_named message self name :
  dict_find (persona self) "name" = Some name →
  TinyPerson.listen message self
  = Ok (set_memory (memory self ++ ["Heard: " +:+ message]) self).
Proof. intros Hname. unfold TinyPerson.listen, dict_getitem. by rewrite Hname. Qed.

Section specs.
Context (R : relation world) (waits : Prop).

Lemma wp_sync {X} (f : world → result X * world) n Φ w :
  Φ (f w).1 n (f w).2 → wp R waits (Sync f Return) n Φ w.
Proof. simpl. by destruct (f w) as [[x|e] w']. Qed.

Lemma wp_agent_get {X} agent (get : TinyPerson → result X) self n Φ w :
  agents w !! agent = Some self →
  Φ (get self) n w → wp R waits (agent_get agent get) n Φ w.
Proof. intros Hself H. apply wp_sync. by rewrite Hself. Qed.

Lemma wp_agents_getitem key self n Φ w :
  agents w !! key = Some self →
  Φ (Ok key) n w → wp R waits (SimulationController.agents_getitem key) n Φ w.
Proof. intros Hself H. apply wp_sync. by rewrite Hself. Qed.

Lemma wp_send_event e n Φ w :
  websocket w = Some Open →
  (∀ w', R (set_outbound (outbound w ++ [e]) w) w' → Φ (Ok ()) (S n) w') →
  wp R waits (SimulationController.send_event e) n Φ w.
Proof. intros Hws H. simpl. rewrite Hws. simpl. by rewrite Hws. Qed.

Lemma wp_sleep secs n Φ w :
  (∀ w', R w w' → Φ (Ok ()) (S n) w') →
  wp R waits (AwaitSleep secs (Return ())) n Φ w.
Proof. done. Qed.

(** An autonomous turn: the prompt is heard, the provider is called once,
    its answer is remembered and returned. *)
Lemma wp_get_agent_action_autonomous agent prompt self name n Φ w :
  agents w !! agent = Some self →
  is_user_controlled self = false →
  dict_find (persona self) "name" = Some name →
  let heard := set_memory (memory self ++ ["Heard: " +:+ prompt]) self in
  (∀ m self', TinyPerson.act (service w (llm_calls w)) heard = (Ok m, self') →
      Φ (Ok (PStr m)) n
        (set_llm_calls (S (llm_calls w)) (set_agents (<[agent := self']> (agents w)) w))) →
  wp R waits (SimulationController.get_agent_action agent prompt) n Φ w.
Proof.
  intros Hself Hauto Hname heard H.
  destruct (act_autonomous (service w (llm_calls w)) heard name) as (pr & _ & Hact);
    [done..|].
  specialize (H _ _ Hact).
  unfold SimulationController.get_agent_action. simpl.
  rewrite Hself, (listen_named _ _ name Hname). simpl.
  rewrite lookup_insert_eq. simpl. rewrite Hauto. simpl.
  rewrite lookup_insert_eq. fold heard. rewrite Hact. simpl.
  rewrite Hauto, insert_insert_eq. exact H.
Qed.

End specs.

(** The interference of the handler at a suspension: only the queue. *)
Ltac interfere :=
  let w := fresh "w" in
  let H := fresh "H" in
  intros w H; rewrite H; clear H; generalize (user_input_queue w); clear w;
  intros ?.

(** Looking an agent up in the world reached so far. *)
Ltac find_agent :=
  simpl; rewrite ?lookup_insert_eq, ?lookup_insert_ne by done; done.

(** Beta and pair reductions, without running the rest of the program. *)
Ltac wp_pure := lazy beta iota delta [fst snd].

Section autonomous.
Context (w0 : world) (p d : TinyPerson) (name_p name_d : pyval).
Local Abbreviation heard_p := (heard_p w0 p).
Local Abbreviation heard_d := (heard_d d name_p name_d).
Local Abbreviation statement_p := (statement_p w0 p).
Local Abbreviation statement_d := (statement_d w0 d name_p name_d).
Hypothesis Hws : websocket w0 = Some Open.
Hypothesis Hp : agents w0 !! "prosecutor" = Some p.
Hypothesis Hd : agents w0 !! "defense_lawyer" = Some d.
Hypothesis Hp_auto : is_user_controlled p = false.
Hypothesis Hd_auto : is_user_controlled d = false.
Hypothesis Hp_name : dict_find (persona p) "name" = Some name_p.
Hypothesis Hd_name : dict_find (persona d) "name" = Some name_d.

Lemma statements_ok : ∃ m_p m_d, statement_p = Ok m_p ∧ statement_d = Ok m_d.
Proof.
  destruct (act_autonomous (service w0 (llm_calls w0)) heard_p name_p)
    as (pr_p & _ & Hact_p); [done..|].
  destruct (act_autonomous (service w0 (S (llm_calls w0))) heard_d name_d)
    as (pr_d & _ & Hact_d); [done..|].
  unfold statement_p, statement_d. rewrite Hact_p, Hact_d. by eexists _, _.
Qed.

Lemma run_autonomous m_p m_d :
  statement_p = Ok m_p → statement_d = Ok m_d →
  wp queue_only False SimulationController.run 0
    (λ r n w, r = Ok () ∧ n = 7%nat ∧
       outbound w = outbound w0 ++
         [ [("event", PStr "trial_starts"); ("case_title", title (case w0))];
           opening_event;
           [("event", PStr "agent_speaks"); ("agent_name", name_p);
            ("message", PStr m_p)];
           [("event", PStr "agent_speaks"); ("agent_name", name_d);
            ("message", PStr m_d)];
           [("event", PStr "trial_finished")] ]) w0.
Proof.
  destruct (act_autonomous (service w0 (llm_calls w0)) heard_p name_p)
    as (pr_p & _ & Hact_p); [done..|].
  destruct (act_autonomous (service w0 (S (llm_calls w0))) heard_d name_d)
    as (pr_d & _ & Hact_d); [done..|].
  unfold statement_p, statement_d. rewrite Hact_p, Hact_d.
  intros [= <-] [= <-].
  unfold SimulationController.run.
  apply wp_bind, wp_sync. wp_pure.
  apply wp_bind, wp_send_event; [done|]. interfere. wp_pure.
  apply wp_bind, wp_sync. wp_pure.
  apply wp_bind. unfold SimulationController.run_opening_statements.
  apply wp_bind, wp_send_event; [done|]. interfere. wp_pure.
  apply wp_bind, (wp_agents_getitem _ _ _ p); [done|]. wp_pure.
  apply wp_bind, (wp_agents_getitem _ _ _ d); [done|]. wp_pure.
  apply wp_bind, wp_sync. wp_pure.
  apply wp_bind, (wp_get_agent_action_autonomous _ _ _ _ p name_p); [done..|].
  intros m self' Hact. pose proof (eq_trans (eq_sym Hact) Hact_p) as [= -> ->].
  clear Hact. wp_pure.
  apply wp_bind; eapply wp_agent_get; [find_agent|].
  unfold dict_getitem. simpl persona. rewrite Hp_name. wp_pure.
  apply wp_bind, wp_send_event; [done|]. interfere. wp_pure.
  apply wp_bind, wp_sleep. interfere. wp_pure.
  apply wp_bind; eapply wp_agent_get; [find_agent|].
  unfold dict_getitem. simpl persona. rewrite Hp_name. wp_pure.
  apply wp_bind; eapply wp_agent_get; [find_agent|].
  unfold dict_getitem. rewrite Hd_name. wp_pure.
  apply wp_bind, (wp_get_agent_action_autonomous _ _ _ _ d name_d);
    [find_agent|done..|].
  intros m self' Hact. pose proof (eq_trans (eq_sym Hact) Hact_d) as [= -> ->].
  clear Hact. wp_pure.
  apply wp_bind; eapply wp_agent_get; [find_agent|].
  unfold dict_getitem. simpl persona. rewrite Hd_name. wp_pure.
  apply wp_bind, wp_send_event; [done|]. interfere. wp_pure.
  apply wp_sleep. interfere. wp_pure.
  apply wp_send_event; [done|]. interfere.
  split; [done|]. split; [done|]. simpl. by rewrite <- !(assoc_L (++)).
Qed.

End autonomous.

(** ** The agents [create_courtroom_agents] builds *)

Lemma create_courtroom_agents_ok env c provider name_p name_d :
  get_llm_provider env "openai" = Ok provider →
  subscript (plaintiff c) "lawyer" = Ok name_p →
  subscript (defendant c) "lawyer" = Ok name_d →
  ∃ agents0 j p d,
    create_courtroom_agents env c "openai" = Ok agents0
    ∧ agents0 = <["defense_lawyer" := d]> (<["prosecutor" := p]> (<["judge" := j]> ∅))
    ∧ is_user_controlled j = false
    ∧ is_user_controlled p = false ∧ is_user_controlled d = false
    ∧ memory p = [] ∧ memory d = []
    ∧ llm_provider p = provider ∧ llm_provider d = provider
    ∧ dict_find (persona p) "name" = Some name_p
    ∧ dict_find (persona d) "name" = Some name_d
    ∧ dict_find (persona p) "role" = None
    ∧ dict_find (persona d) "role" = None.
Proof.
  intros Hprov Hnp Hnd. unfold create_courtroom_agents, TinyPerson.init.
  rewrite Hprov, Hnp, Hnd. cbn [mbind result_mbind result_bind mret result_mret].
  eexists _, _, _, _. split; [reflexivity|]. split; [reflexivity|].
  repeat split.
Qed.

Lemma connect_courtroom env fs remote c provider name_p name_d :
  load_case fs "cases/case-001.json" = Ok c →
  get_llm_provider env "openai" = Ok provider →
  subscript (plaintiff c) "lawyer" = Ok name_p →
  subscript (defendant c) "lawyer" = Ok name_d →
  ∃ j p d,
    connect env fs remote =
      Ok {| store := {| case := c;
                        agents := <["defense_lawyer" := d]>
                                    (<["prosecutor" := p]> (<["judge" := j]> ∅));
                        websocket := Some Open; user_input_queue := [];
                        phase := PRE_TRIAL; outbound := [];
                        service := remote; llm_calls := 0 |};
            simulation_task := Pending SimulationController.run;
            handler_running := true |}
    ∧ is_user_controlled j = false
    ∧ is_user_controlled p = false ∧ is_user_controlled d = false
    ∧ memory p = [] ∧ memory d = []
    ∧ llm_provider p = provider ∧ llm_provider d = provider
    ∧ dict_find (persona p) "name" = Some name_p
    ∧ dict_find (persona d) "name" = Some name_d
    ∧ dict_find (persona p) "role" = None
    ∧ dict_find (persona d) "role" = None.
Proof.
  intros Hc Hprov Hnp Hnd.
  destruct (create_courtroom_agents_ok env c provider name_p name_d)
    as (agents0 & j & p & d & Hagents & -> & H); [done..|].
  exists j, p, d. split; [|exact H].
  unfold connect. rewrite Hc. cbn [mbind result_mbind result_bind].
  rewrite Hagents. reflexivity.
Qed.

Lemma forallb_quiet_harmless schedule :
  forallb quiet schedule = true → Forall (harmless queue_only) schedule.
Proof.
  intros H. apply Forall_forall. intros a Ha. apply quiet_harmless.
  rewrite forallb_forall in H. apply H. by apply list_elem_of_In.
Qed.

(** A session whose task is about to start [run], with both lawyers
    autonomous and the channel open: every schedule of resumptions and
    quiet messages with at least eight resumptions completes the task,
    which has then sent exactly five events. *)
Lemma autonomous_session s schedule p d name_p name_d :
  simulation_task s = Pending SimulationController.run →
  websocket (store s) = Some Open →
  agents (store s) !! "prosecutor" = Some p →
  agents (store s) !! "defense_lawyer" = Some d →
  is_user_controlled p = false →
  is_user_controlled d = false →
  dict_find (persona p) "name" = Some name_p →
  dict_find (persona d) "name" = Some name_d →
  forallb quiet schedule = true →
  (8 ≤ ticks schedule)%nat →
  ∃ m_p m_d,
    statement_p (store s) p = Ok m_p
    ∧ statement_d (store s) d name_p name_d = Ok m_d
    ∧ simulation_task (exec schedule s) = Finished
    ∧ outbound (store (exec schedule s)) =
        outbound (store s) ++
        [ [("event", PStr "trial_starts"); ("case_title", title (case (store s)))];
          opening_event;
          [("event", PStr "agent_speaks"); ("agent_name", name_p);
           ("message", PStr m_p)];
          [("event", PStr "agent_speaks"); ("agent_name", name_d);
           ("message", PStr m_d)];
          [("event", PStr "trial_finished")] ].
Proof.
  intros Htask Hws Hp Hd Hpa Hda Hpn Hdn Hquiet Hticks.
  destruct (statements_ok (store s) p d name_p name_d) as (m_p & m_d & Hmp & Hmd);
    [done..|].
  exists m_p, m_d. do 2 (split; [done|]).
  destruct (termination queue_only False
    (λ r n w, r = Ok () ∧ n = 7%nat ∧
       outbound w = outbound (store s) ++
         [ [("event", PStr "trial_starts"); ("case_title", title (case (store s)))];
           opening_event;
           [("event", PStr "agent_speaks"); ("agent_name", name_p);
            ("message", PStr m_p)];
           [("event", PStr "agent_speaks"); ("agent_name", name_d);
            ("message", PStr m_d)];
           [("event", PStr "trial_finished")] ])
    7%nat schedule s) as (Hfin & n & w1 & (_ & _ & Hout) & Hw1).
  - tauto.
  - by intros e m w' [? _].
  - intros m w' (_ & -> & _). done.
  - by apply forallb_quiet_harmless.
  - unfold task_inv. rewrite Htask.
    exists 0%nat. split; [by right|]. intros w' Hw'. rewrite Hw'.
    generalize (user_input_queue w'). intros q.
    apply (run_autonomous (set_user_input_queue q (store s)) p d name_p name_d);
      done.
  - by rewrite Htask.
  - lia.
  - split; [done|]. rewrite Hw1. simpl. by rewrite Hout.
Qed.

(** C2.  A case is on disk with both lawyers named, the provider can be
    built, nobody takes a role (the client sends at most utterances and
    events the handler ignores) and the channel stays open: once the
    controller task has been resumed eight times it has completed, and the
    outbound stream is exactly [trial_starts], [phase_starts] for the
    opening statements, [agent_speaks] of the prosecutor, [agent_speaks] of
    the defense lawyer, [trial_finished]. *)
Theorem opening_statements_scenario env fs remote schedule c provider name_p name_d :
  load_case fs "cases/case-001.json" = Ok c →
  get_llm_provider env "openai" = Ok provider →
  subscript (plaintiff c) "lawyer" = Ok name_p →
  subscript (defendant c) "lawyer" = Ok name_d →
  forallb quiet schedule = true →
  (8 ≤ ticks schedule)%nat →
  completed (handler env fs remote schedule) = true
  ∧ ∃ m_p m_d : string,
      events_of (handler env fs remote schedule) =
        [ [("event", PStr "trial_starts"); ("case_title", title c)];
          [("event", PStr "phase_starts"); ("phase", PStr "Opening Statements")];
          [("event", PStr "agent_speaks"); ("agent_name", name_p);
           ("message", PStr m_p)];
          [("event", PStr "agent_speaks"); ("agent_name", name_d);
           ("message", PStr m_d)];
          [("event", PStr "trial_finished")] ].
Proof.
  intros Hc Hprov Hnp Hnd Hquiet Hticks.
  destruct (connect_courtroom env fs remote c provider name_p name_d)
    as (j & p & d & Hs & Hj & Hpa & Hda & _ & _ & _ & _ & Hpn & Hdn & _);
    [done..|].
  set (s := {| store := _ |}) in Hs.
  destruct (autonomous_session s schedule p d name_p name_d)
    as (m_p & m_d & _ & _ & Hfin & Hout); try done; try find_agent.
  unfold handler. rewrite Hs. simpl. rewrite Hfin. split; [done|].
  by exists m_p, m_d.
Qed.

Lemma opening_statements_scenario_witness :
  let r := handler with_key (disk state_v_doe) (echo "  Your Honour. ")
             [Tick; Tick; Receive (PDict [("event", PStr "user_input");
                                          ("message", PStr "hello?")]);
              Tick; Tick; Tick; Tick; Tick; Tick] in
  completed r = true
  ∧ ∃ m_p m_d : string,
      events_of r =
        [ [("event", PStr "trial_starts"); ("case_title", PStr "State v. Doe")];
          [("event", PStr "phase_starts"); ("phase", PStr "Opening Statements")];
          [("event", PStr "agent_speaks"); ("agent_name", PStr "Ann");
           ("message", PStr m_p)];
          [("event", PStr "agent_speaks"); ("agent_name", PStr "Bob");
           ("message", PStr m_d)];
          [("event", PStr "trial_finished")] ].
Proof.
  eapply (opening_statements_scenario with_key (disk state_v_doe)
            (echo "  Your Honour. ") _ doe_case _ (PStr "Ann") (PStr "Bob")).
  - vm_compute. reflexivity.
  - vm_compute. reflexivity.
  - vm_compute. reflexivity.
  - vm_compute. reflexivity.
  - vm_compute. reflexivity.
  - vm_compute. lia.
Defined.

(** * Generation failures *)

Lemma generate_failure provider service prompt max_tokens :
  match service provider prompt max_tokens with
  | Completed _ => False
  | _ => True
  end →
  has_error_indicator (generate provider service prompt max_tokens) = true.
Proof.
  unfold generate.
  destruct provider; destruct (service _ prompt max_tokens); done.
Qed.

Lemma statement_failure w self m :
  is_user_controlled self = false →
  (TinyPerson.act (service w (llm_calls w)) self).1 = Ok m →
  fails (service w) (llm_calls w) →
  has_error_indicator m = true.
Proof.
  intros Hauto Hact Hfails. unfold TinyPerson.act in Hact. rewrite Hauto in Hact.
  destruct (TinyPerson._build_prompt self) as [prompt|]; [|done].
  simpl in Hact. injection Hact as <-. apply generate_failure, Hfails.
Qed.

(** An autonomous turn never raises and never suspends: the prompt is
    heard, the provider is asked once, and the controller goes on with the
    text [generate] returned, which is also remembered as said. *)
Lemma autonomous_turn agent prompt (k : pyval → coro ()) w self name :
  agents w !! agent = Some self →
  is_user_controlled self = false →
  dict_find (persona self) "name" = Some name →
  let heard := set_memory (memory self ++ ["Heard: " +:+ prompt]) self in
  ∃ text,
    TinyPerson._build_prompt heard = Ok text ∧
    let m := generate (llm_provider self) (service w (llm_calls w)) text 150 in
    advance (SimulationController.get_agent_action agent prompt ≫= k) w =
      advance (k (PStr m))
        (set_llm_calls (S (llm_calls w))
           (set_agents
              (<[agent := set_memory (memory heard ++ ["Said: " +:+ m]) heard]> (agents w))
              w)).
Proof.
  intros Hself Hauto Hname heard.
  destruct (act_autonomous (service w (llm_calls w)) heard name) as (text & Htext & Hact);
    [done..|].
  exists text. split; [done|]. simpl.
  rewrite Hself, (listen_named _ _ name Hname). simpl.
  rewrite lookup_insert_eq. simpl. rewrite Hauto. simpl.
  rewrite lookup_insert_eq. fold heard. rewrite Hact. simpl.
  by rewrite Hauto, insert_insert_eq.
Qed.

(** C5.  An autonomous turn whose generation request fails does not raise:
    the controller goes on to the next step with a text that starts with
    the error indicator.  So in a session where nobody takes a role, each
    turn still yields its one [agent_speaks] event, with that text when its
    request failed, and the controller task completes. *)
Theorem backend_failure_is_one_turn env fs remote schedule c provider name_p name_d :
  load_case fs "cases/case-001.json" = Ok c →
  get_llm_provider env "openai" = Ok provider →
  subscript (plaintiff c) "lawyer" = Ok name_p →
  subscript (defendant c) "lawyer" = Ok name_d →
  forallb quiet schedule = true →
  (8 ≤ ticks schedule)%nat →
  completed (handler env fs remote schedule) = true
  ∧ (∃ m_p m_d : string,
      events_of (handler env fs remote schedule) =
        [ [("event", PStr "trial_starts"); ("case_title", title c)];
          [("event", PStr "phase_starts"); ("phase", PStr "Opening Statements")];
          [("event", PStr "agent_speaks"); ("agent_name", name_p);
           ("message", PStr m_p)];
          [("event", PStr "agent_speaks"); ("agent_name", name_d);
           ("message", PStr m_d)];
          [("event", PStr "trial_finished")] ]
      ∧ (fails remote 0 → has_error_indicator m_p = true)
      ∧ (fails remote 1 → has_error_indicator m_d = true))
  ∧ (∀ w agent prompt (k : pyval → coro ()) self name,
       agents w !! agent = Some self →
       is_user_controlled self = false →
       dict_find (persona self) "name" = Some name →
       fails (service w) (llm_calls w) →
       ∃ m w',
         advance (SimulationController.get_agent_action agent prompt ≫= k) w
         = advance (k (PStr m)) w'
         ∧ has_error_indicator m = true
         ∧ (memory <$> agents w' !! agent)
           = Some (memory self ++ ["Heard: " +:+ prompt; "Said: " +:+ m])).
Proof.
  intros Hc Hprov Hnp Hnd Hquiet Hticks.
  destruct (connect_courtroom env fs remote c provider name_p name_d)
    as (j & p & d & Hs & Hj & Hpa & Hda & _ & _ & _ & _ & Hpn & Hdn & _);
    [done..|].
  set (s := {| store := _ |}) in Hs.
  destruct (autonomous_session s schedule p d name_p name_d)
    as (m_p & m_d & Hmp & Hmd & Hfin & Hout); try done; try find_agent.
  unfold handler. rewrite Hs. simpl. rewrite Hfin. split; [done|]. split.
  - exists m_p, m_d. split; [done|]. split.
    + apply (statement_failure (store s) (heard_p (store s) p)); done.
    + apply (statement_failure (set_llm_calls 1 (store s))
               (heard_d d name_p name_d)); done.
  - intros w agent prompt k self name Hself Hauto Hname Hfails.
    destruct (autonomous_turn agent prompt k w self name) as (text & _ & Hturn);
      [done..|].
    eexists _, _. split; [exact Hturn|]. split.
    + apply generate_failure, Hfails.
    + simpl. by rewrite lookup_insert_eq, <- (assoc_L (++)).
Qed.

Lemma backend_failure_is_one_turn_witness :
  let r := handler with_key (disk state_v_doe) (flaky "I object.") (replicate 8 Tick) in
  completed r = true
  ∧ ∃ m_p m_d : string,
      events_of r =
        [ [("event", PStr "trial_starts"); ("case_title", PStr "State v. Doe")];
          [("event", PStr "phase_starts"); ("phase", PStr "Opening Statements")];
          [("event", PStr "agent_speaks"); ("agent_name", PStr "Ann");
           ("message", PStr m_p)];
          [("event", PStr "agent_speaks"); ("agent_name", PStr "Bob");
           ("message", PStr m_d)];
          [("event", PStr "trial_finished")] ]
      ∧ (fails (flaky "I object.") 0 → has_error_indicator m_p = true)
      ∧ (fails (flaky "I object.") 1 → has_error_indicator m_d = true).
Proof.
  destruct (backend_failure_is_one_turn with_key (disk state_v_doe)
              (flaky "I object.") (replicate 8 Tick) doe_case
              (OpenAIProvider "sk-test") (PStr "Ann") (PStr "Bob"))
    as (Hdone & Hevents & _).
  - vm_compute. reflexivity.
  - vm_compute. reflexivity.
  - vm_compute. reflexivity.
  - vm_compute. reflexivity.
  - vm_compute. reflexivity.
  - vm_compute. lia.
  - split; [exact Hdone|exact Hevents].
Defined.

(** The same run, evaluated: the failed first request is the prosecutor's
    turn, the second request succeeds. *)
Example flaky_run :
  fails (flaky "I object.") 0
  ∧ events_of (handler with_key (disk state_v_doe) (flaky "I object.") (replicate 8 Tick)) =
      [ [("event", PStr "trial_starts"); ("case_title", PStr "State v. Doe")];
        [("event", PStr "phase_starts"); ("phase", PStr "Opening Statements")];
        [("event", PStr "agent_speaks"); ("agent_name", PStr "Ann");
         ("message", PStr "Error generating text with OpenAI: timeout")];
        [("event", PStr "agent_speaks"); ("agent_name", PStr "Bob");
         ("message", PStr "I object.")];
        [("event", PStr "trial_finished")] ].
Proof. split; [by intros ? ? ?|]. vm_compute. reflexivity. Qed.

(** * [act] in human-controlled mode *)

(** C10 (as amended).  A human-controlled participant whose memory is not
    empty: [act] returns the last memory entry as it is, whatever that
    entry is and whatever the generation service would answer (it is not
    asked), and the participant is unchanged, memory and persona included;
    called through the controller it leaves the whole world as it was, the
    count of generation requests too.  The entry returned is the message
    heard when a [listen] was recorded last, and the participant's own
    utterance when that was recorded last, as the controller does at the
    end of a human turn. *)
Theorem act_human_controlled_returns_last service self older entry :
  is_user_controlled self = true →
  memory self = older ++ [entry] →
  TinyPerson.act service self = (Ok entry, self)
  ∧ (∀ w agent (k : string → coro ()),
       agents w !! agent = Some self →
       advance (SimulationController.act agent ≫= k) w = advance (k entry) w)
  ∧ (∀ message heard,
       TinyPerson.listen message self = Ok heard →
       TinyPerson.act service heard = (Ok ("Heard: " +:+ message), heard))
  ∧ (∀ text,
       let spoken := set_memory (memory self ++ ["Said: " +:+ text]) self in
       TinyPerson.act service spoken = (Ok ("Said: " +:+ text), spoken)).
Proof.
  intros Hhuman Hmem.
  assert (∀ service', TinyPerson.act service' self = (Ok entry, self)) as Hact.
  { intros service'. unfold TinyPerson.act. by rewrite Hhuman, Hmem, last_snoc. }
  split; [apply Hact|]. split; [|split].
  - intros w agent k Hself. simpl. rewrite Hself, Hact, Hhuman. simpl.
    rewrite insert_id by done. by destruct w.
  - intros message heard. unfold TinyPerson.listen.
    destruct (dict_getitem (persona self) "name"); [|done].
    intros [= <-]. unfold TinyPerson.act. simpl. by rewrite Hhuman, last_snoc.
  - intros text spoken. unfold TinyPerson.act, spoken. simpl.
    by rewrite Hhuman, last_snoc.
Qed.

Lemma act_human_controlled_returns_last_witness :
  TinyPerson.act (echo "never asked" 0%nat) juror = (Ok "Heard: Please proceed.", juror)
  ∧ memory (TinyPerson.act (echo "never asked" 0%nat) juror).2 = memory juror.
Proof.
  destruct (act_human_controlled_returns_last (echo "never asked" 0%nat) juror
              ["Heard: All rise."; "Said: Good morning."] "Heard: Please proceed.")
    as (Hact & _ & _).
  - reflexivity.
  - reflexivity.
  - split; [exact Hact|]. by rewrite Hact.
Defined.

(** C10, as the specification words it, fails: the entry returned need not
    be something the participant heard.  In the session in which the client
    takes the defense and says [hello?], the defense is human-controlled at
    the end and the last thing it recorded is its own utterance: [act]
    returns that utterance. *)
Lemma act_returns_own_utterance_counterexample :
  let r := handler with_key (disk state_v_doe) (echo "Your Honour.")
             [Tick; Tick; Tick; Tick; Receive take_defense; Tick;
              Receive hello; Tick; Tick; Tick; Tick] in
  completed r = true
  ∧ memory_of r "defense_lawyer"
    = Some [ "Heard: " +:+ SimulationController.prompt_d (PStr "Ann") (PStr "Bob");
             "Said: hello?" ]
  ∧ match agent_of r "defense_lawyer" with
    | Some defense =>
        is_user_controlled defense = true
        ∧ (TinyPerson.act (echo "never asked" 0%nat) defense).1 = Ok "Said: hello?"
    | None => False
    end
  ∧ is_said "Said: hello?" = true
  ∧ String.prefix "Heard: " "Said: hello?" = false.
Proof. vm_compute. repeat split. Qed.

(** * Emission on a closed channel *)

(** C7 (as amended).  [send_event] does exactly what the websocket does.
    On an open channel the event is sent; with no websocket attached
    nothing is sent and nothing is raised; on a closed channel the send
    raises [ConnectionClosed], [send_event] does not catch it, and the
    controller task ends there with nothing sent and the world as it
    was. *)
Theorem send_event_follows_channel (event_data : event) (rest : coro ()) (w : world) :
  advance (SimulationController.send_event event_data ;; rest) w =
    match websocket w with
    | Some Open => (Pending rest, set_outbound (outbound w ++ [event_data]) w)
    | Some Closed => (Crashed ConnectionClosed, w)
    | None => advance rest w
    end.
Proof. simpl. destruct (websocket w) as [[]|] eqn:Hws; simpl; by rewrite ?Hws. Qed.

(** C7, as the specification words it, fails: the connection breaks after
    the first event, and the next emission raises and ends the controller
    task; the lawyers never get their turn. *)
Lemma closed_channel_counterexample :
  let r := handler with_key (disk state_v_doe) (echo "Your Honour.")
             [Tick; Break; Tick; Tick; Tick] in
  crashed_with r = Some ConnectionClosed
  ∧ events_of r = [ [("event", PStr "trial_starts"); ("case_title", PStr "State v. Doe")] ].
Proof. vm_compute. split; reflexivity. Qed.

(** * Setting a session up *)

(** C8 (as amended).  With an unusable case file the set-up raises before
    the controller task is created: the handler has no session, and no
    event is emitted whatever happens next.  (A file that only lacks the
    title or the summary is usable.) *)
Theorem unusable_case_never_starts env fs remote schedule :
  unusable (fs "cases/case-001.json") = true →
  (∃ e, handler env fs remote schedule = Raised e)
  ∧ events_of (handler env fs remote schedule) = [].
Proof.
  intros Hbad.
  assert (∃ e, connect env fs remote = Raised e) as [e He].
  { unfold connect, load_case.
    destruct (fs "cases/case-001.json") as [| |data|unread];
      [by eexists|by eexists| |by eexists].
    destruct data as [| | | | | |fields]; try by eexists.
    cbn [Case.init method_get mbind result_mbind result_bind mret result_mret].
    unfold create_courtroom_agents, TinyPerson.init.
    destruct (get_llm_provider env "openai") as [provider|]; [|by eexists].
    cbn [mbind result_mbind result_bind mret result_mret plaintiff defendant].
    simpl in Hbad. unfold names_lawyer in Hbad.
    destruct (subscript (dict_get fields "plaintiff" PNone) "lawyer");
      [|by eexists].
    destruct (subscript (dict_get fields "defendant" PNone) "lawyer");
      [done|by eexists]. }
  unfold handler. rewrite He. split; [by exists e|done].
Qed.

Lemma unusable_case_never_starts_witness :
  let fs := disk (PDict [("title", PStr "State v. Doe"); ("summary", PStr "A theft.");
                         ("plaintiff", PDict [("lawyer", PStr "Ann")]);
                         ("defendant", PDict [("name", PStr "John Doe")])]) in
  (∃ e, handler with_key fs (echo "Your Honour.") (replicate 9 Tick) = Raised e)
  ∧ events_of (handler with_key fs (echo "Your Honour.") (replicate 9 Tick)) = [].
Proof.
  apply (unusable_case_never_starts with_key
           (disk (PDict [("title", PStr "State v. Doe"); ("summary", PStr "A theft.");
                         ("plaintiff", PDict [("lawyer", PStr "Ann")]);
                         ("defendant", PDict [("name", PStr "John Doe")])]))
           (echo "Your Honour.") (replicate 9 Tick)).
  vm_compute. reflexivity.
Defined.

(** C8, as the specification words it, fails for a case that lacks the
    title and the summary: the session starts, and its first event carries
    [None] as the title. *)
Lemma untitled_case_counterexample :
  let fs := disk (PDict [("plaintiff", PDict [("lawyer", PStr "Ann")]);
                         ("defendant", PDict [("lawyer", PStr "Bob")])]) in
  let r := handler with_key fs (echo "Your Honour.") (replicate 9 Tick) in
  completed r = true
  ∧ events_of r =
      [ [("event", PStr "trial_starts"); ("case_title", PNone)];
        [("event", PStr "phase_starts"); ("phase", PStr "Opening Statements")];
        [("event", PStr "agent_speaks"); ("agent_name", PStr "Ann");
         ("message", PStr "Your Honour.")];
        [("event", PStr "agent_speaks"); ("agent_name", PStr "Bob");
         ("message", PStr "Your Honour.")];
        [("event", PStr "trial_finished")] ].
Proof. vm_compute. split; reflexivity. Qed.

(** * Human turns and the input queue *)

(** The first half of a human turn: the prompt is recorded as heard, the
    request is sent, and the task stands at [queue.get]. *)
Lemma human_turn_request agent prompt (k : pyval → coro ()) w self name :
  agents w !! agent = Some self →
  is_user_controlled self = true →
  dict_find (persona self) "name" = Some name →
  websocket w = Some Open →
  advance (SimulationController.get_agent_action agent prompt ≫= k) w =
    (Pending (await_user_message agent ≫= k),
     set_outbound (outbound w ++ [request_user_input self])
       (set_agents
          (<[agent := set_memory (memory self ++ ["Heard: " +:+ prompt]) self]> (agents w))
          w)).
Proof.
  intros Hself Hhuman Hname Hws. simpl.
  rewrite Hself, (listen_named _ _ name Hname). simpl.
  rewrite lookup_insert_eq. simpl. rewrite Hhuman. simpl.
  rewrite lookup_insert_eq. simpl. rewrite Hws. simpl. rewrite Hws.
  reflexivity.
Qed.

(** The second half: the head of the queue is taken, recorded as said and
    returned; on an empty queue the task stays where it is. *)
Lemma human_turn_deliver agent (k : pyval → coro ()) w self item rest :
  agents w !! agent = Some self →
  user_input_queue w = item :: rest →
  advance (await_user_message agent ≫= k) w =
    advance (k item)
      (set_agents
         (<[agent := set_memory (memory self ++ ["Said: " +:+ py_str item]) self]>
            (agents w))
         (set_user_input_queue rest w)).
Proof. intros Hself Hq. simpl. rewrite Hq. simpl. by rewrite Hself. Qed.

Lemma human_turn_wait agent (k : pyval → coro ()) w :
  user_input_queue w = [] →
  advance (await_user_message agent ≫= k) w =
    (Pending (await_user_message agent ≫= k), w).
Proof. intros Hq. simpl. by rewrite Hq. Qed.

Lemma on_message_utterance data message w :
  is_utterance data message →
  on_message data w =
    (Ok (), set_user_input_queue (user_input_queue w ++ [message]) w).
Proof. intros [Hev Hmsg]. unfold on_message. by rewrite Hev, Hmsg. Qed.

(** C6 (as amended).  An utterance that arrives at any moment, a role
    waiting or not, puts no event on the stream and stops neither the
    handler nor the controller task; it is not thrown away but joins the
    queue.  A human-controlled turn that finds it at the head of the queue
    sends its request and then takes it as the utterance of that turn,
    without waiting for the client. *)
Theorem stray_utterance_is_queued s data message :
  handler_running s = true →
  is_utterance data message →
  step (Receive data) s =
    {| store := set_user_input_queue (user_input_queue (store s) ++ [message]) (store s);
       simulation_task := simulation_task s; handler_running := true |}
  ∧ ∀ w agent prompt (k : pyval → coro ()) self name rest,
      agents w !! agent = Some self →
      is_user_controlled self = true →
      dict_find (persona self) "name" = Some name →
      websocket w = Some Open →
      user_input_queue w = message :: rest →
      let heard := set_memory (memory self ++ ["Heard: " +:+ prompt]) self in
      let asked :=
        set_outbound (outbound w ++ [request_user_input self])
          (set_agents (<[agent := heard]> (agents w)) w) in
      let told :=
        set_agents
          (<[agent := set_memory (memory heard ++ ["Said: " +:+ py_str message]) heard]>
             (agents asked))
          (set_user_input_queue rest asked) in
      advance (SimulationController.get_agent_action agent prompt ≫= k) w
        = (Pending (await_user_message agent ≫= k), asked)
      ∧ advance (await_user_message agent ≫= k) asked = advance (k message) told.
Proof.
  intros Hrun Hdata. split.
  - simpl. by rewrite Hrun, (on_message_utterance _ _ _ Hdata).
  - intros w agent prompt k self name rest Hself Hhuman Hname Hws Hq heard asked told.
    split.
    + by apply (human_turn_request agent prompt k w self name).
    + apply (human_turn_deliver agent k asked heard message rest); [|done].
      unfold asked. simpl. by rewrite lookup_insert_eq.
Qed.

Lemma stray_utterance_is_queued_witness :
  handler_running lobby = true
  ∧ is_utterance hello (PStr "hello?")
  ∧ step (Receive hello) lobby =
      {| store := set_user_input_queue [PStr "first"; PStr "hello?"] (store lobby);
         simulation_task := Finished; handler_running := true |}.
Proof.
  split; [reflexivity|]. split; [split; reflexivity|].
  apply (stray_utterance_is_queued lobby hello (PStr "hello?")).
  - reflexivity.
  - split; reflexivity.
Defined.

(** C6, as the specification words it, fails.  The utterance arrives while
    the task sleeps after the prosecutor's autonomous turn, no role waiting.
    The client then takes the defense: the defense's turn speaks the stale
    utterance at once.  Without the utterance the same turn waits. *)
Lemma stray_utterance_counterexample :
  let run_with (schedule : list action) :=
    handler with_key (disk state_v_doe) (echo "Your Honour.") schedule in
  let before := [Tick; Tick; Tick; Tick] in
  let stray := Receive (PDict [("event", PStr "user_input"); ("message", PStr "stale")]) in
  let later := [Receive (PDict [("event", PStr "set_role"); ("role", PStr "defense")]);
                Tick; Tick] in
  awaiting_input (run_with before) = false
  ∧ events_of (run_with (before ++ [stray])) = events_of (run_with before)
  ∧ events_of (run_with (before ++ stray :: later)) =
      [ [("event", PStr "trial_starts"); ("case_title", PStr "State v. Doe")];
        [("event", PStr "phase_starts"); ("phase", PStr "Opening Statements")];
        [("event", PStr "agent_speaks"); ("agent_name", PStr "Ann");
         ("message", PStr "Your Honour.")];
        [("event", PStr "request_user_input"); ("role", PStr "unknown")];
        [("event", PStr "agent_speaks"); ("agent_name", PStr "Bob");
         ("message", PStr "stale")] ]
  ∧ events_of (run_with (before ++ later)) =
      [ [("event", PStr "trial_starts"); ("case_title", PStr "State v. Doe")];
        [("event", PStr "phase_starts"); ("phase", PStr "Opening Statements")];
        [("event", PStr "agent_speaks"); ("agent_name", PStr "Ann");
         ("message", PStr "Your Honour.")];
        [("event", PStr "request_user_input"); ("role", PStr "unknown")] ]
  ∧ awaiting_input (run_with (before ++ later)) = true.
Proof. vm_compute. repeat split; reflexivity. Qed.

(** * Role assignments *)

Lemma set_is_user_controlled_id self :
  set_is_user_controlled (is_user_controlled self) self = self.
Proof. by destruct self. Qed.

Lemma on_message_set_role data role w p d :
  is_role_assignment data role →
  agents w !! "prosecutor" = Some p →
  agents w !! "defense_lawyer" = Some d →
  on_message data w =
    (Ok (),
     set_agents
       (<["defense_lawyer" := set_is_user_controlled (assigned role "defense_lawyer") d]>
          (<["prosecutor" := set_is_user_controlled (assigned role "prosecutor") p]>
             (agents w)))
       w).
Proof.
  intros [Hev Hrole] Hp Hd. unfold on_message. rewrite Hev, Hrole. simpl.
  unfold assigned, human_agent, and_then, assign_mode.
  destruct (eq_str role "prosecutor"); [|destruct (eq_str role "defense")].
  - rewrite Hp. simpl. rewrite lookup_insert_ne by done. by rewrite Hd.
  - rewrite Hd. simpl. rewrite lookup_insert_ne by done. rewrite Hp. simpl.
    by rewrite insert_insert_ne.
  - rewrite Hp. simpl. rewrite lookup_insert_ne by done. by rewrite Hd.
Qed.

Lemma set_queue_same w :
  set_user_input_queue (user_input_queue w) w = w.
Proof. by destruct w. Qed.

Lemma on_message_keeps_queue data ev w :
  subscript data "event" = Ok ev →
  eq_str ev "user_input" = false →
  user_input_queue (on_message data w).2 = user_input_queue w.
Proof.
  intros Hev Hno. unfold on_message. rewrite Hev, Hno.
  destruct (eq_str ev "set_role"); [|done].
  destruct (subscript data "role") as [role|]; [|done].
  assert (∀ k1 b1 k2 b2,
            user_input_queue (and_then (assign_mode k1 b1) (assign_mode k2 b2) w).2
            = user_input_queue w) as Hboth.
  { intros k1 b1 k2 b2. unfold and_then.
    pose proof (assign_mode_frame k1 b1 w) as (_ & _ & Hq1 & _).
    destruct (assign_mode k1 b1 w) as [[|e] w1]; simpl in *; [|done].
    pose proof (assign_mode_frame k2 b2 w1) as (_ & _ & Hq2 & _).
    simpl in Hq2. congruence. }
  repeat case_match; apply Hboth.
Qed.

(** An utterance resumes a turn that waits on an empty queue: the task
    continues with that very message. *)
Lemma utterance_resumes s k utterance message :
  simulation_task s = Pending (AwaitGet k) →
  user_input_queue (store s) = [] →
  handler_running s = true →
  is_utterance utterance message →
  step Tick (step (Receive utterance) s) =
    {| store := (advance (k message) (store s)).2;
       simulation_task := (advance (k message) (store s)).1;
       handler_running := true |}.
Proof.
  intros Htask Hq Hrun Hutt.
  unfold step at 2. rewrite Hrun, (on_message_utterance _ _ _ Hutt). rewrite Hq.
  unfold step. cbn [simulation_task store handler_running]. rewrite Htask.
  simpl.
  replace (set_user_input_queue [] (set_user_input_queue [message] (store s)))
    with (store s).
  - by destruct (advance (k message) (store s)).
  - rewrite <- (set_queue_same (store s)) at 1. by rewrite Hq.
Qed.

(** C9 (as amended).  While a turn is suspended at [queue.get] on an empty
    queue, the handler goes on reading.  Resuming the task changes nothing:
    it waits.  A role assignment is applied to the agents at once and
    leaves the task waiting, also when it is resumed afterwards; no message
    other than an utterance puts anything on the queue.  An utterance is
    what resumes the turn, and any utterance does: the task continues with
    that very message, also after a role assignment, whichever role the
    client holds by then.  An utterance names no role. *)
Theorem reader_runs_while_turn_waits s k data role p d utterance message :
  simulation_task s = Pending (AwaitGet k) →
  user_input_queue (store s) = [] →
  handler_running s = true →
  agents (store s) !! "prosecutor" = Some p →
  agents (store s) !! "defense_lawyer" = Some d →
  is_role_assignment data role →
  is_utterance utterance message →
  let reassigned :=
    {| store :=
         set_agents
           (<["defense_lawyer" :=
                set_is_user_controlled (assigned role "defense_lawyer") d]>
              (<["prosecutor" :=
                   set_is_user_controlled (assigned role "prosecutor") p]>
                 (agents (store s))))
           (store s);
       simulation_task := Pending (AwaitGet k);
       handler_running := true |} in
  step Tick s = s
  ∧ step (Receive data) s = reassigned
  ∧ step Tick reassigned = reassigned
  ∧ (∀ other ev,
       subscript other "event" = Ok ev → eq_str ev "user_input" = false →
       user_input_queue (store (step (Receive other) s)) = [])
  ∧ step Tick (step (Receive utterance) s) =
      {| store := (advance (k message) (store s)).2;
         simulation_task := (advance (k message) (store s)).1;
         handler_running := true |}
  ∧ step Tick (step (Receive utterance) reassigned) =
      {| store := (advance (k message) (store reassigned)).2;
         simulation_task := (advance (k message) (store reassigned)).1;
         handler_running := true |}.
Proof.
  intros Htask Hq Hrun Hp Hd Hdata Hutt reassigned.
  split; [|split; [|split; [|split; [|split]]]].
  - unfold step. rewrite Htask. simpl. rewrite Hq.
    destruct s; simpl in *. by subst.
  - unfold step. rewrite Hrun, (on_message_set_role data role _ p d) by done.
    by rewrite Htask.
  - unfold step, reassigned. simpl. by rewrite Hq.
  - intros other ev Hev Hno. simpl. rewrite Hrun.
    pose proof (on_message_keeps_queue other ev (store s) Hev Hno) as Hkeep.
    destruct (on_message other (store s)) as [[|e] w']; simpl in *; congruence.
  - by apply utterance_resumes.
  - by apply utterance_resumes.
Qed.

Lemma reader_runs_while_turn_waits_witness :
  step Tick bob_waits = bob_waits
  ∧ is_user_controlled <$> agents (store (step (Receive take_prosecution) bob_waits))
    = {[ "prosecutor" := true; "defense_lawyer" := false ]}
  ∧ step Tick (step (Receive take_prosecution) bob_waits)
    = step (Receive take_prosecution) bob_waits.
Proof.
  destruct (reader_runs_while_turn_waits bob_waits
              (λ user_message,
                 (SimulationController.remember "defense_lawyer"
                    ("Said: " +:+ py_str user_message);;
                  mret user_message) ≫= λ _, Return ())
              take_prosecution (PStr "prosecutor") ann bob hello (PStr "hello?"))
    as (Hwait & Hset & Hstill & _).
  - reflexivity.
  - reflexivity.
  - reflexivity.
  - vm_compute. reflexivity.
  - vm_compute. reflexivity.
  - split; reflexivity.
  - split; reflexivity.
  - split; [exact Hwait|]. rewrite Hset. split; [|exact Hstill].
    vm_compute. reflexivity.
Defined.

(** C9, as the specification words it, fails: an utterance need not be
    addressed to the waiting role to resume its turn.  The defense's turn
    waits for the client; the client takes the prosecution instead, so the
    defense is autonomous again, and then sends an utterance: the waiting
    turn of the defense takes it, and it is spoken and recorded as the
    defense's statement. *)
Lemma unaddressed_utterance_counterexample :
  let waiting := [Tick; Tick; Tick; Tick; Receive take_defense; Tick; Tick] in
  let r := handler with_key (disk state_v_doe) (echo "Your Honour.") in
  awaiting_input (r waiting) = true
  ∧ awaiting_input (r (waiting ++ [Receive take_prosecution])) = true
  ∧ (is_user_controlled <$> agent_of (r (waiting ++ [Receive take_prosecution]))
                              "defense_lawyer") = Some false
  ∧ (is_user_controlled <$> agent_of (r (waiting ++ [Receive take_prosecution]))
                              "prosecutor") = Some true
  ∧ awaiting_input (r (waiting ++ [Receive take_prosecution; Receive hello; Tick]))
    = false
  ∧ last (events_of (r (waiting ++ [Receive take_prosecution; Receive hello; Tick])))
    = Some [("event", PStr "agent_speaks"); ("agent_name", PStr "Bob");
            ("message", PStr "hello?")]
  ∧ memory_of (r (waiting ++ [Receive take_prosecution; Receive hello; Tick]))
      "defense_lawyer"
    = Some [ "Heard: " +:+ SimulationController.prompt_d (PStr "Ann") (PStr "Bob");
             "Said: hello?" ].
Proof. vm_compute. repeat split. Qed.

(** ** Who may change a mode *)

Lemma keeps_modes_bind {A B} (c : coro A) (k : A → coro B) :
  keeps_modes c → (∀ a, keeps_modes (k a)) → keeps_modes (c ≫= k).
Proof.
  intros Hc Hk. unfold mbind, coro_mbind.
  induction c as [a|e|X f k' IH|payload k' IH|secs k' IH|k' IH]; simpl in *;
    try done; try (by apply IH).
  - destruct Hc as [Hf Hk']. split; [done|]. intros x. by apply IH.
  - intros x. by apply IH.
Qed.

Lemma modes_insert agent self self' w :
  agents w !! agent = Some self →
  is_user_controlled self' = is_user_controlled self →
  modes (set_agents (<[agent := self']> (agents w)) w) = modes w.
Proof.
  intros Hself Hsame. unfold modes. simpl. rewrite fmap_insert.
  apply insert_id. by rewrite lookup_fmap, Hself, Hsame.
Qed.

Lemma keeps_modes_with_agent {X} agent
    (method : world → TinyPerson → result X * TinyPerson) :
  (∀ w self, is_user_controlled (method w self).2 = is_user_controlled self) →
  keeps_modes (with_agent agent method).
Proof.
  intros Hmethod. split; [|done]. intros w.
  destruct (agents w !! agent) as [self|] eqn:Hself; [|done].
  specialize (Hmethod w self). destruct (method w self) as [r self'].
  by apply (modes_insert agent self).
Qed.

Lemma keeps_modes_agent_get {X} agent (get : TinyPerson → result X) :
  keeps_modes (agent_get agent get).
Proof. split; [|done]. intros w. by destruct (agents w !! agent). Qed.

Lemma keeps_modes_send_event e : keeps_modes (SimulationController.send_event e).
Proof. split; [done|]. by intros [[]|]. Qed.

Lemma act_keeps_mode service self :
  is_user_controlled (TinyPerson.act service self).2 = is_user_controlled self.
Proof.
  unfold TinyPerson.act. destruct (is_user_controlled self) eqn:Hmode.
  - by destruct (last (memory self)).
  - by destruct (TinyPerson._build_prompt self).
Qed.

Lemma keeps_modes_get_agent_action agent prompt :
  keeps_modes (SimulationController.get_agent_action agent prompt).
Proof.
  unfold SimulationController.get_agent_action.
  apply keeps_modes_bind.
  { apply keeps_modes_with_agent. intros w self. unfold TinyPerson.listen.
    by destruct (dict_getitem (persona self) "name"). }
  intros _. apply keeps_modes_bind; [apply keeps_modes_agent_get|].
  intros [].
  - apply keeps_modes_bind; [apply keeps_modes_agent_get|]. intros role.
    apply keeps_modes_bind; [apply keeps_modes_send_event|]. intros _.
    apply keeps_modes_bind; [done|]. intros user_message.
    apply keeps_modes_bind; [by apply keeps_modes_with_agent|]. done.
  - apply keeps_modes_bind; [|done]. split; [|done]. intros w.
    destruct (agents w !! agent) as [self|] eqn:Hself; [|done].
    pose proof (act_keeps_mode (service w (llm_calls w)) self) as Hmode.
    destruct (TinyPerson.act _ self) as [r self']. simpl.
    by apply (modes_insert agent self).
Qed.

Lemma keeps_modes_run : keeps_modes SimulationController.run.
Proof.
  unfold SimulationController.run, SimulationController.run_opening_statements.
  repeat first
    [ done
    | apply keeps_modes_get_agent_action
    | apply keeps_modes_send_event
    | apply keeps_modes_agent_get
    | apply keeps_modes_bind; [|intros ?]
    | split; [intros w; simpl; by repeat case_match|done] ].
Qed.

Lemma advance_modes (c : coro ()) w :
  keeps_modes c →
  modes (advance c w).2 = modes w
  ∧ match (advance c w).1 with Pending k => keeps_modes k | _ => True end.
Proof.
  revert w. induction c as [[]|e|X f k IH|payload k IH|secs k IH|k IH];
    intros w Hc; simpl in *; try done.
  - destruct Hc as [Hf Hk]. specialize (Hf w).
    destruct (f w) as [[x|e] w']; simpl in *; [|done].
    destruct (IH x w' (Hk x)) as [-> ?]. done.
  - by destruct (websocket w) as [[]|].
  - destruct (user_input_queue w) as [|item rest]; [done|].
    destruct (IH item (set_user_input_queue rest w) (Hc item)) as [-> ?]. done.
Qed.

Lemma courtroom_agents w bp bd :
  modes w = courtroom_modes bp bd →
  ∃ j p d,
    agents w !! "judge" = Some j ∧ is_user_controlled j = false
    ∧ agents w !! "prosecutor" = Some p ∧ is_user_controlled p = bp
    ∧ agents w !! "defense_lawyer" = Some d ∧ is_user_controlled d = bd
    ∧ ∀ key, key ≠ "judge" → key ≠ "prosecutor" → key ≠ "defense_lawyer" →
             agents w !! key = None.
Proof.
  intros Hmodes.
  assert (∀ key, is_user_controlled <$> agents w !! key = courtroom_modes bp bd !! key)
    as Hkey.
  { intros key. by rewrite <- Hmodes, <- lookup_fmap. }
  pose proof (Hkey "judge") as Hj. pose proof (Hkey "prosecutor") as Hp.
  pose proof (Hkey "defense_lawyer") as Hd. unfold courtroom_modes in *.
  rewrite lookup_insert_ne, lookup_insert_ne, lookup_insert_eq in Hj by done.
  rewrite lookup_insert_ne, lookup_insert_eq in Hp by done.
  rewrite lookup_insert_eq in Hd.
  destruct (agents w !! "judge") as [j|]; [|done].
  destruct (agents w !! "prosecutor") as [p|]; [|done].
  destruct (agents w !! "defense_lawyer") as [d|]; [|done].
  simpl in *. exists j, p, d. repeat split; try congruence.
  intros key H1 H2 H3. specialize (Hkey key).
  rewrite !lookup_insert_ne, lookup_empty in Hkey by done.
  by destruct (agents w !! key).
Qed.

Lemma assign_mode_courtroom key b w :
  key = "prosecutor" ∨ key = "defense_lawyer" →
  courtroom w → courtroom (assign_mode key b w).2.
Proof.
  intros Hkey (bp & bd & Hmodes).
  destruct (courtroom_agents w bp bd Hmodes)
    as (j & p & d & _ & _ & Hp & _ & Hd & _ & _).
  unfold assign_mode, courtroom, modes in *.
  destruct Hkey as [-> | ->].
  - rewrite Hp. simpl. rewrite fmap_insert, Hmodes. exists b, bd.
    unfold courtroom_modes. simpl.
    rewrite (insert_insert_ne _ "prosecutor" "defense_lawyer") by done.
    by rewrite insert_insert_eq.
  - rewrite Hd. simpl. rewrite fmap_insert, Hmodes. exists bp, b.
    unfold courtroom_modes. simpl. by rewrite insert_insert_eq.
Qed.

Lemma on_message_courtroom data w : courtroom w → courtroom (on_message data w).2.
Proof.
  intros Hw. unfold on_message.
  destruct (subscript data "event") as [ev|]; [|done].
  destruct (eq_str ev "set_role").
  - destruct (subscript data "role") as [role|]; [|done].
    assert (∀ k1 b1 k2 b2,
              k1 = "prosecutor" ∨ k1 = "defense_lawyer" →
              k2 = "prosecutor" ∨ k2 = "defense_lawyer" →
              courtroom (and_then (assign_mode k1 b1) (assign_mode k2 b2) w).2) as Hboth.
    { intros k1 b1 k2 b2 H1 H2. unfold and_then.
      pose proof (assign_mode_courtroom k1 b1 w H1 Hw) as Hfirst.
      destruct (assign_mode k1 b1 w) as [[|e] w']; simpl in *; [|done].
      by apply assign_mode_courtroom. }
    repeat case_match; apply Hboth; auto.
  - destruct (eq_str ev "user_input"); [|done].
    by destruct (subscript data "message").
Qed.

Lemma session_inv_step a s : session_inv s → session_inv (step a s).
Proof.
  intros [Hw Ht]. destruct a; simpl.
  - destruct (simulation_task s) as [k| | |] eqn:Htask;
      try (split; [done|by rewrite Htask]).
    destruct (advance_modes k (store s) Ht) as [Hmodes Hk].
    destruct (advance k (store s)) as [t w']. simpl in *. split; [|done].
    destruct Hw as (bp & bd & Hw). exists bp, bd. simpl. by rewrite Hmodes.
  - destruct (handler_running s); [|done].
    pose proof (on_message_courtroom data (store s) Hw) as Hw'.
    destruct (on_message data (store s)) as [[|e] w']; simpl in *.
    + done.
    + split; [done|]. by destruct (simulation_task s).
  - destruct (handler_running s); [|done]. split; [done|].
    by destruct (simulation_task s).
  - done.
  - destruct (websocket (store s)) as [[]|], (handler_running s); try done.
    split; [done|]. by destruct (simulation_task s).
Qed.

Lemma session_inv_exec schedule s : session_inv s → session_inv (exec schedule s).
Proof.
  revert s. induction schedule as [|a schedule IH]; intros s Hs; [done|].
  simpl. apply IH. by apply session_inv_step.
Qed.

Lemma session_inv_connect env fs remote s :
  connect env fs remote = Ok s → session_inv s.
Proof.
  intros Hs. apply connect_ok in Hs as (c & agents0 & _ & Hagents & ->).
  split; [|apply keeps_modes_run].
  unfold create_courtroom_agents, TinyPerson.init in Hagents.
  destruct (get_llm_provider env "openai") as [provider|]; [|done].
  cbn [mbind result_mbind result_bind mret result_mret] in Hagents.
  destruct (subscript (plaintiff c) "lawyer") as [name_p|]; [|done].
  cbn [mbind result_mbind result_bind mret result_mret] in Hagents.
  destruct (subscript (defendant c) "lawyer") as [name_d|]; [|done].
  cbn [mbind result_mbind result_bind mret result_mret] in Hagents.
  injection Hagents as <-. exists false, false. unfold modes. simpl.
  by rewrite !fmap_insert, fmap_empty.
Qed.

Lemma human_agent_cases role :
  human_agent role = Some "prosecutor"
  ∨ human_agent role = Some "defense_lawyer"
  ∨ human_agent role = None.
Proof. unfold human_agent. repeat case_match; auto. Qed.

Lemma assigned_judge role : assigned role "judge" = false.
Proof.
  unfold assigned. apply bool_decide_eq_false.
  by destruct (human_agent_cases role) as [-> | [-> | ->]].
Qed.

Lemma set_agents_same w : set_agents (agents w) w = w.
Proof. by destruct w. Qed.

(** A role assignment in a courtroom: the handler accepts it, every agent's
    mode afterwards is the assigned one and nothing else about the agents
    changes; a second application changes nothing. *)
Lemma set_role_world data role w :
  courtroom w → is_role_assignment data role →
  ∃ w',
    on_message data w = (Ok (), w')
    ∧ w' = set_agents (agents w') w
    ∧ (∀ key, agents w' !! key
              = set_is_user_controlled (assigned role key) <$> agents w !! key)
    ∧ on_message data w' = (Ok (), w').
Proof.
  intros (bp & bd & Hmodes) Hdata.
  destruct (courtroom_agents w bp bd Hmodes)
    as (j & p & d & Hj & Hjm & Hp & _ & Hd & _ & Hother).
  eexists. split; [by apply (on_message_set_role data role w p d)|].
  set (p' := set_is_user_controlled (assigned role "prosecutor") p).
  set (d' := set_is_user_controlled (assigned role "defense_lawyer") d).
  split; [done|]. split.
  - intros key. simpl.
    destruct (decide (key = "defense_lawyer")) as [-> |Hkd].
    { by rewrite lookup_insert_eq, Hd. }
    rewrite lookup_insert_ne by done.
    destruct (decide (key = "prosecutor")) as [-> |Hkp].
    { by rewrite lookup_insert_eq, Hp. }
    rewrite lookup_insert_ne by done.
    destruct (decide (key = "judge")) as [-> |Hkj].
    + rewrite Hj, assigned_judge. simpl. by rewrite <- Hjm, set_is_user_controlled_id.
    + by rewrite Hother.
  - rewrite (on_message_set_role data role _ p' d'); [|done|..].
    + cbn [agents set_agents].
      change (set_is_user_controlled (assigned role "prosecutor") p') with p'.
      change (set_is_user_controlled (assigned role "defense_lawyer") d') with d'.
      rewrite (insert_id _ "prosecutor" p').
      * by rewrite insert_insert_eq.
      * rewrite lookup_insert_ne by done. by rewrite lookup_insert_eq.
    + simpl. rewrite lookup_insert_ne by done. by rewrite lookup_insert_eq.
    + simpl. by rewrite lookup_insert_eq.
Qed.

(** C4.  In every state a session can reach, a role assignment is accepted
    by the handler and leaves the controller task alone.  Afterwards an
    agent is human-controlled exactly when it is the one the assignment
    names, so at most one is, and every other agent, whatever its mode
    was, is autonomous: its [act] asks the provider.  Nothing but the mode
    changes, and applying the same assignment again changes nothing. *)
Theorem role_assignment_single_human env fs remote schedule s0 data role :
  connect env fs remote = Ok s0 →
  handler_running (exec schedule s0) = true →
  is_role_assignment data role →
  let s := exec schedule s0 in
  let s' := step (Receive data) s in
  handler_running s' = true
  ∧ simulation_task s' = simulation_task s
  ∧ (∀ key, agents (store s') !! key
            = set_is_user_controlled (assigned role key) <$> agents (store s) !! key)
  ∧ (∀ key self, agents (store s') !! key = Some self →
       (is_user_controlled self = true ↔ human_agent role = Some key))
  ∧ (∀ k1 k2 a1 a2,
       agents (store s') !! k1 = Some a1 → agents (store s') !! k2 = Some a2 →
       is_user_controlled a1 = true → is_user_controlled a2 = true → k1 = k2)
  ∧ (∀ key self service,
       agents (store s') !! key = Some self → human_agent role ≠ Some key →
       TinyPerson.act service self =
         match TinyPerson._build_prompt self with
         | Ok prompt =>
             (Ok (generate (llm_provider self) service prompt 150),
              set_memory
                (memory self
                 ++ ["Said: " +:+ generate (llm_provider self) service prompt 150])
                self)
         | Raised e => (Raised e, self)
         end)
  ∧ step (Receive data) s' = s'.
Proof.
  intros Hs0 Hrun Hdata s s'.
  pose proof (session_inv_exec schedule s0 (session_inv_connect _ _ _ _ Hs0))
    as [Hcourt _]. fold s in Hcourt, Hrun.
  destruct (set_role_world data role (store s) Hcourt Hdata)
    as (w' & Hmsg & Hw' & Hagents & Hagain).
  assert (s' = {| store := w'; simulation_task := simulation_task s;
                  handler_running := true |}) as Hs'.
  { unfold s'. simpl. by rewrite Hrun, Hmsg. }
  assert (∀ key self, agents w' !! key = Some self →
            (is_user_controlled self = true ↔ human_agent role = Some key)) as Hmode.
  { intros key self Hself. rewrite Hagents in Hself.
    destruct (agents (store s) !! key) as [before|]; [|done].
    injection Hself as <-. simpl. unfold assigned. apply bool_decide_eq_true. }
  rewrite Hs'. simpl. repeat split.
  - exact Hagents.
  - by apply Hmode.
  - by apply Hmode.
  - intros k1 k2 a1 a2 H1 H2 Ha1 Ha2.
    apply (Hmode _ _ H1) in Ha1. apply (Hmode _ _ H2) in Ha2. congruence.
  - intros key self service Hself Hkey. unfold TinyPerson.act.
    destruct (is_user_controlled self) eqn:Hflag; [|done].
    by apply (Hmode _ _ Hself) in Hflag.
  - by rewrite Hagain.
Qed.

Lemma role_assignment_single_human_witness :
  let s := exec [Tick; Tick; Tick; Tick; Receive take_prosecution]
              (doe_start (echo "Your Honour.")) in
  let s' := step (Receive take_defense) s in
  handler_running s' = true
  ∧ simulation_task s' = simulation_task s
  ∧ (∀ k1 k2 a1 a2,
       agents (store s') !! k1 = Some a1 → agents (store s') !! k2 = Some a2 →
       is_user_controlled a1 = true → is_user_controlled a2 = true → k1 = k2)
  ∧ step (Receive take_defense) s' = s'.
Proof.
  destruct (role_assignment_single_human with_key (disk state_v_doe)
              (echo "Your Honour.") [Tick; Tick; Tick; Tick; Receive take_prosecution]
              (doe_start (echo "Your Honour.")) take_defense (PStr "defense"))
    as (Hrun & Htask & _ & _ & Hone & _ & Hagain).
  - reflexivity.
  - vm_compute. reflexivity.
  - split; reflexivity.
  - auto.
Defined.

(** The modes along that schedule, evaluated: the prosecution is taken, then
    released when the defense is taken. *)
Example prosecution_then_defense :
  modes (store (exec [Tick; Tick; Tick; Tick; Receive take_prosecution]
                  (doe_start (echo "Your Honour."))))
    = courtroom_modes true false
  ∧ modes (store (exec [Tick; Tick; Tick; Tick; Receive take_prosecution;
                        Receive take_defense]
                    (doe_start (echo "Your Honour."))))
    = courtroom_modes false true.
Proof. split; vm_compute; reflexivity. Qed.

(** * The request for input *)

(** No persona of a courtroom session has a role: the request for input
    names the role [unknown], whoever is asked. *)
Lemma courtroom_request_names_no_role env c agents0 key self :
  create_courtroom_agents env c "openai" = Ok agents0 →
  agents0 !! key = Some self →
  request_user_input self
  = [("event", PStr "request_user_input"); ("role", PStr "unknown")].
Proof.
  intros Hagents Hself. unfold create_courtroom_agents, TinyPerson.init in Hagents.
  destruct (get_llm_provider env "openai") as [provider|]; [|done].
  cbn [mbind result_mbind result_bind mret result_mret] in Hagents.
  destruct (subscript (plaintiff c) "lawyer") as [name_p|]; [|done].
  cbn [mbind result_mbind result_bind mret result_mret] in Hagents.
  destruct (subscript (defendant c) "lawyer") as [name_d|]; [|done].
  cbn [mbind result_mbind result_bind mret result_mret] in Hagents.
  injection Hagents as <-.
  destruct (decide (key = "defense_lawyer")) as [-> |Hkd].
  { rewrite lookup_insert_eq in Hself. by injection Hself as <-. }
  rewrite lookup_insert_ne in Hself by done.
  destruct (decide (key = "prosecutor")) as [-> |Hkp].
  { rewrite lookup_insert_eq in Hself. by injection Hself as <-. }
  rewrite lookup_insert_ne in Hself by done.
  destruct (decide (key = "judge")) as [-> |Hkj].
  { rewrite lookup_insert_eq in Hself. by injection Hself as <-. }
  by rewrite lookup_insert_ne in Hself.
Qed.

(** C3, evaluated where the code departs from it.  The client takes the
    defense while the controller sleeps after the prosecutor's turn, and
    answers when asked.  The prompt is recorded as heard, the utterance is
    recorded as said and spoken verbatim; but the request for input that
    precedes it does not name the defense: its role is [unknown]. *)
Theorem request_for_input_names_no_role :
  let r := handler with_key (disk state_v_doe) (echo "Your Honour.")
             [Tick; Tick; Tick; Tick; Receive take_defense; Tick; Tick;
              Receive (PDict [("event", PStr "user_input");
                              ("message", PStr "Members of the jury.")]);
              Tick] in
  events_of r =
    [ [("event", PStr "trial_starts"); ("case_title", PStr "State v. Doe")];
      [("event", PStr "phase_starts"); ("phase", PStr "Opening Statements")];
      [("event", PStr "agent_speaks"); ("agent_name", PStr "Ann");
       ("message", PStr "Your Honour.")];
      [("event", PStr "request_user_input"); ("role", PStr "unknown")];
      [("event", PStr "agent_speaks"); ("agent_name", PStr "Bob");
       ("message", PStr "Members of the jury.")] ]
  ∧ memory_of r "defense_lawyer" =
      Some [ "Heard: " +:+ SimulationController.prompt_d (PStr "Ann") (PStr "Bob");
             "Said: Members of the jury." ].
Proof. vm_compute. split; reflexivity. Qed.

(** * Relations a session stays within *)

Lemma sync_within_mono {A} R (c : coro A) (P Q : A → Prop) :
  (∀ a, P a → Q a) → sync_within R c P → sync_within R c Q.
Proof.
  intros HPQ. induction c as [a|e|X f k IH|payload k IH|secs k IH|k IH]; simpl.
  - apply HPQ.
  - done.
  - intros H w. destruct (H w) as [HR Hk]. split; [done|]. intros x Hx. by apply IH, Hk.
  - apply IH.
  - apply IH.
  - intros H x. apply IH, H.
Qed.

Lemma sync_within_bind {A B} R (c : coro A) (k : A → coro B) (P : A → Prop) Q :
  sync_within R c P → (∀ a, P a → sync_within R (k a) Q) →
  sync_within R (c ≫= k) Q.
Proof.
  intros Hc Hk. unfold mbind, coro_mbind.
  induction c as [a|e|X f k' IH|payload k' IH|secs k' IH|k' IH]; simpl in *.
  - by apply Hk.
  - done.
  - intros w. destruct (Hc w) as [HR Hk']. split; [done|]. intros x Hx. by apply IH, Hk'.
  - by apply IH.
  - by apply IH.
  - intros x. apply IH, Hc.
Qed.

Section within.
Context (R : relation world) (HR : session_relation R).

Local Instance within_preorder : PreOrder R := relation_preorder R HR.

Lemma advance_within (c : coro ()) w :
  sync_within R c (λ _, True) →
  R w (advance c w).2
  ∧ match (advance c w).1 with
    | Pending k => sync_within R k (λ _, True)
    | _ => True
    end.
Proof.
  revert w. induction c as [[]|e|X f k IH|payload k IH|secs k IH|k IH];
    intros w Hc; simpl in *; try done.
  - destruct (Hc w) as [Hf Hk].
    destruct (f w) as [[x|e] w']; simpl in *; [|done].
    destruct (IH x w' (Hk x eq_refl)) as [Hw' ?]. split; [by etrans|done].
  - destruct (websocket w) as [[]|] eqn:Hws; simpl; [|done..].
    split; [by apply relation_send|done].
  - destruct (user_input_queue w) as [|item rest] eqn:Hq; [done|].
    destruct (IH item (set_user_input_queue rest w) (Hc item)) as [Hw' ?].
    split; [|done]. etrans; [by apply (relation_get R HR w item)|exact Hw'].
Qed.

Lemma step_within a s :
  task_within R s → R (store s) (store (step a s)) ∧ task_within R (step a s).
Proof.
  unfold task_within. intros Ht. destruct a; simpl.
  - destruct (simulation_task s) as [k| | |] eqn:Htask;
      try (split; [done|by rewrite Htask]).
    destruct (advance_within k (store s) Ht) as [Hw Hk].
    by destruct (advance k (store s)) as [t w'].
  - destruct (handler_running s); [|done].
    pose proof (relation_message R HR data (store s)) as Hw.
    destruct (on_message data (store s)) as [[|e] w']; simpl in *; [done|].
    split; [done|]. by destruct (simulation_task s).
  - destruct (handler_running s); [|done]. split; [done|].
    by destruct (simulation_task s).
  - split; [apply (relation_break R HR)|done].
  - destruct (websocket (store s)) as [[]|], (handler_running s); try done.
    split; [done|]. by destruct (simulation_task s).
Qed.

Lemma exec_within schedule s :
  task_within R s →
  R (store s) (store (exec schedule s)) ∧ task_within R (exec schedule s).
Proof.
  revert s. induction schedule as [|a schedule IH]; intros s Hs; [done|].
  simpl. destruct (step_within a s Hs) as [Hstep Hs'].
  destruct (IH _ Hs') as [Hrest ?]. split; [by etrans|done].
Qed.

(** Later in a session set up by [connect], the world is within [R] of
    what it was earlier. *)
Lemma handler_within env fs remote schedule later s :
  sync_within R SimulationController.run (λ _, True) →
  handler env fs remote schedule = Ok s →
  ∃ s', handler env fs remote (schedule ++ later) = Ok s'
        ∧ R (store s) (store s').
Proof.
  intros Hrun. unfold handler.
  destruct (connect env fs remote) as [s0|] eqn:Hs0; [|done].
  simpl. intros [= <-]. eexists. split; [done|].
  unfold exec. rewrite foldl_app. apply exec_within.
  apply connect_ok in Hs0 as (c & agents0 & _ & _ & ->).
  apply (exec_within schedule). exact Hrun.
Qed.

End within.

(** ** The synchronous blocks of the controller *)

Lemma sync_within_sync {X} R (f : world → result X * world) (P : X → Prop) :
  (∀ w, R w (f w).2) → (∀ w x, (f w).1 = Ok x → P x) →
  sync_within R (Sync f Return) P.
Proof. intros HR HP w. split; [apply HR|]. intros x Hx. simpl. by eapply HP. Qed.

Lemma set_llm_calls_same w : set_llm_calls (llm_calls w) w = w.
Proof. by destruct w. Qed.

Lemma extends_refl self : extends self self.
Proof. done. Qed.

Lemma extends_trans a b c : extends a b → extends b c → extends a c.
Proof.
  intros (Hm1 & Hp1 & Hl1) (Hm2 & Hp2 & Hl2).
  split; [by etrans|]. split; congruence.
Qed.

Lemma extends_remember self entries :
  extends self (set_memory (memory self ++ entries) self).
Proof. split; [by apply prefix_app_r|done]. Qed.

Lemma extends_act service self :
  extends self (TinyPerson.act service self).2.
Proof.
  unfold TinyPerson.act. destruct (is_user_controlled self).
  - by destruct (last (memory self)).
  - destruct (TinyPerson._build_prompt self); [apply extends_remember|done].
Qed.

Lemma extends_listen message self :
  extends self match TinyPerson.listen message self with
               | Ok self' => self'
               | Raised _ => self
               end.
Proof.
  unfold TinyPerson.listen.
  destruct (dict_getitem (persona self) "name"); [apply extends_remember|done].
Qed.

Section blocks.
Context (R : relation world) `{!Reflexive R}.

Lemma sync_within_read {X} (f : world → X) : sync_within R (read f) (λ _, True).
Proof. by apply sync_within_sync. Qed.

Lemma sync_within_agent_get {X} agent (get : TinyPerson → result X) :
  sync_within R (agent_get agent get) (λ _, True).
Proof.
  apply sync_within_sync; [|done]. intros w. by destruct (agents w !! agent).
Qed.

Lemma sync_within_send_event e :
  sync_within R (SimulationController.send_event e) (λ _, True).
Proof. intros w. split; [done|]. intros [[]|] _; done. Qed.

Lemma sync_within_agents_getitem key :
  sync_within R (SimulationController.agents_getitem key) (λ agent, agent = key).
Proof.
  apply sync_within_sync; intros w.
  - by destruct (agents w !! key).
  - destruct (agents w !! key); [|done]. by intros x [= <-].
Qed.

Lemma sync_within_with_agent {X} agent
    (method : world → TinyPerson → result X * TinyPerson) :
  (∀ w w', turn_step agent w w' → R w w') →
  (∀ w self, extends self (method w self).2
             ∧ is_user_controlled (method w self).2 = is_user_controlled self) →
  sync_within R (with_agent agent method) (λ _, True).
Proof.
  intros Hturn Hmethod. apply sync_within_sync; [|done]. intros w.
  destruct (agents w !! agent) as [self|] eqn:Hself; [|done].
  destruct (Hmethod w self) as [Hext Hmode].
  destruct (method w self) as [r self']. simpl in *. apply Hturn.
  exists self, self', (llm_calls w). do 3 (split; [done|]).
  symmetry. exact (set_llm_calls_same (set_agents _ w)).
Qed.

Lemma sync_within_get_agent_action agent prompt :
  (∀ w w', turn_step agent w w' → R w w') →
  sync_within R (SimulationController.get_agent_action agent prompt) (λ _, True).
Proof.
  intros Hturn. unfold SimulationController.get_agent_action.
  eapply sync_within_bind.
  { apply sync_within_with_agent; [done|]. intros w self.
    pose proof (extends_listen prompt self) as Hext. unfold TinyPerson.listen in *.
    by destruct (dict_getitem (persona self) "name"). }
  intros _ _. eapply sync_within_bind; [apply sync_within_agent_get|].
  intros [] _.
  - eapply sync_within_bind; [apply sync_within_agent_get|]. intros role _.
    eapply sync_within_bind; [apply sync_within_send_event|]. intros _ _.
    eapply (sync_within_bind _ _ _ (λ _, True)); [done|]. intros user_message _.
    eapply sync_within_bind; [|done].
    apply sync_within_with_agent; [done|]. intros w self.
    split; [apply extends_remember|done].
  - eapply sync_within_bind; [|done].
    apply (sync_within_sync _ _ (λ _, True)); [|done]. intros w.
    destruct (agents w !! agent) as [self|] eqn:Hself; [|done].
    pose proof (extends_act (service w (llm_calls w)) self) as Hext.
    pose proof (act_keeps_mode (service w (llm_calls w)) self) as Hmode.
    destruct (TinyPerson.act _ self) as [r self']. simpl in *. apply Hturn.
    by eexists self, self', _.
Qed.

Lemma sync_within_run :
  (∀ agent w w', is_lawyer agent → turn_step agent w w' → R w w') →
  (∀ w, R w (set_phase OPENING_STATEMENTS w)) →
  sync_within R SimulationController.run (λ _, True).
Proof.
  intros Hturn Hphase.
  unfold SimulationController.run, SimulationController.run_opening_statements,
    SimulationController.persona_name.
  eapply sync_within_bind; [apply sync_within_read|]. intros c _.
  eapply sync_within_bind; [apply sync_within_send_event|]. intros _ _.
  eapply sync_within_bind; [by apply (sync_within_sync _ _ (λ _, True))|]. intros _ _.
  eapply (sync_within_bind _ _ _ (λ _, True));
    [|intros _ _; apply sync_within_send_event].
  eapply sync_within_bind; [apply sync_within_send_event|]. intros _ _.
  eapply sync_within_bind; [apply sync_within_agents_getitem|]. intros ? ->.
  eapply sync_within_bind; [apply sync_within_agents_getitem|]. intros ? ->.
  eapply sync_within_bind; [apply sync_within_read|]. intros c' _.
  eapply sync_within_bind.
  { apply sync_within_get_agent_action. intros w w'. apply Hturn. by left. }
  intros statement_p _.
  eapply sync_within_bind; [apply sync_within_agent_get|]. intros name_p _.
  eapply sync_within_bind; [apply sync_within_send_event|]. intros _ _.
  eapply (sync_within_bind _ _ _ (λ _, True)); [done|]. intros _ _.
  eapply sync_within_bind; [apply sync_within_agent_get|]. intros name_p' _.
  eapply sync_within_bind; [apply sync_within_agent_get|]. intros name_d _.
  eapply sync_within_bind.
  { apply sync_within_get_agent_action. intros w w'. apply Hturn. by right. }
  intros statement_d _.
  eapply sync_within_bind; [apply sync_within_agent_get|]. intros name_d' _.
  eapply sync_within_bind; [apply sync_within_send_event|]. intros _ _.
  done.
Qed.

End blocks.

(** ** What the handler does to the world *)

#[global] Instance handler_step_preorder : PreOrder handler_step.
Proof.
  split.
  - by intros w.
  - intros w1 w2 w3 (?&?&?&?&?&?&Hp1&Hk1) (?&?&?&?&?&?&Hp2&Hk2).
    repeat split; try congruence.
    intros key Hkey. by rewrite Hk2, Hk1.
Qed.

Lemma assign_mode_handler_step key b w :
  is_lawyer key → handler_step w (assign_mode key b w).2.
Proof.
  intros Hkey. unfold assign_mode.
  destruct (agents w !! key) as [self|] eqn:Hself; [|done].
  repeat split; simpl.
  - intros key'. destruct (decide (key' = key)) as [->|Hne].
    + by rewrite lookup_insert_eq, Hself.
    + by rewrite lookup_insert_ne.
  - intros key' Hkey'. rewrite lookup_insert_ne; [done|]. by intros <-.
Qed.

Lemma on_message_handler_step data w :
  handler_step (set_user_input_queue (user_input_queue (on_message data w).2) w)
               (on_message data w).2
  ∧ handler_step w (on_message data w).2.
Proof.
  assert (∀ k1 b1 k2 b2, is_lawyer k1 → is_lawyer k2 →
            handler_step w (and_then (assign_mode k1 b1) (assign_mode k2 b2) w).2
            ∧ user_input_queue (and_then (assign_mode k1 b1) (assign_mode k2 b2) w).2
              = user_input_queue w) as Hboth.
  { intros k1 b1 k2 b2 H1 H2. unfold and_then.
    pose proof (assign_mode_handler_step k1 b1 w H1) as Hw1.
    pose proof (assign_mode_frame k1 b1 w) as (_ & _ & Hq1 & _).
    destruct (assign_mode k1 b1 w) as [[|e] w1]; simpl in *; [|done].
    pose proof (assign_mode_handler_step k2 b2 w1 H2) as Hw2.
    pose proof (assign_mode_frame k2 b2 w1) as (_ & _ & Hq2 & _).
    split; [by etrans|congruence]. }
  assert (∀ w', handler_step w w' → user_input_queue w' = user_input_queue w →
            handler_step (set_user_input_queue (user_input_queue w') w) w'
            ∧ handler_step w w') as Hsame.
  { intros w' Hw' ->. by rewrite set_queue_same. }
  unfold on_message.
  destruct (subscript data "event") as [ev|]; [|by apply Hsame].
  destruct (eq_str ev "set_role").
  - destruct (subscript data "role") as [role|]; [|by apply Hsame].
    repeat case_match; apply Hsame; apply Hboth; by (left + right).
  - destruct (eq_str ev "user_input"); [|by apply Hsame].
    destruct (subscript data "message"); [|by apply Hsame]. done.
Qed.

(** ** The stream only grows *)

Lemma stream_grows_relation : session_relation stream_grows.
Proof.
  split.
  - split; [intros w; by unfold stream_grows|].
    intros w1 w2 w3. unfold stream_grows. intros. by etrans.
  - intros w e _. by apply prefix_app_r.
  - intros w item rest _. by unfold stream_grows.
  - intros data w. destruct (on_message_handler_step data w) as [_ (Ho & _)].
    unfold stream_grows. by rewrite Ho.
  - intros w. by unfold stream_grows.
Qed.

Lemma stream_grows_run : sync_within stream_grows SimulationController.run (λ _, True).
Proof.
  pose proof (relation_preorder _ stream_grows_relation).
  apply sync_within_run; [apply _| |by unfold stream_grows].
  intros agent w w' _ (self & self' & calls & _ & _ & _ & ->).
  by unfold stream_grows.
Qed.

(** ** Histories only grow *)

Lemma histories_grow_relation : session_relation histories_grow.
Proof.
  split.
  - split.
    + intros w key self Hself. by exists self.
    + intros w1 w2 w3 H12 H23 key self Hself.
      destruct (H12 key self Hself) as (self2 & Hself2 & Hext2).
      destruct (H23 key self2 Hself2) as (self3 & Hself3 & Hext3).
      exists self3. split; [done|]. by eapply extends_trans.
  - intros w e _ key self Hself. by exists self.
  - intros w item rest _ key self Hself. by exists self.
  - intros data w key self Hself.
    destruct (on_message_handler_step data w) as [_ (_&_&_&_&_&_&Hp&_)].
    specialize (Hp key). rewrite Hself in Hp.
    destruct (agents (on_message data w).2 !! key) as [self'|]; [|done].
    exists self'. split; [done|]. injection Hp as Hpe Hm Hl.
    unfold extends. by rewrite Hm, Hpe, Hl.
  - intros w key self Hself. by exists self.
Qed.

Lemma histories_grow_run :
  sync_within histories_grow SimulationController.run (λ _, True).
Proof.
  pose proof (relation_preorder _ histories_grow_relation).
  apply sync_within_run; [apply _| |].
  - intros agent w w' _ (self & self' & calls & Hself & Hext & _ & ->) key self0 Hself0.
    simpl. destruct (decide (key = agent)) as [->|Hne].
    + rewrite lookup_insert_eq. exists self'. split; [done|]. congruence.
    + rewrite lookup_insert_ne by done. by exists self0.
  - intros w key self Hself. by exists self.
Qed.

(** ** A closed connection *)

Lemma once_closed_relation : session_relation once_closed.
Proof.
  split.
  - split; [by intros w|].
    intros w1 w2 w3 [Ha1 Hc1] [Ha2 Hc2]. split; [auto|].
    intros Hw1. destruct (Hc1 Hw1) as [Hw2 Ho2]. destruct (Hc2 Hw2) as [Hw3 Ho3].
    split; congruence.
  - intros w e Hws. split; [done|]. simpl. congruence.
  - done.
  - intros data w. destruct (on_message_handler_step data w) as [_ (Ho & Hws & _)].
    split; [by rewrite Hws|]. by rewrite Ho, Hws.
  - intros w. split; simpl; [by destruct (websocket w)|]. by intros ->.
Qed.

Lemma once_closed_run : sync_within once_closed SimulationController.run (λ _, True).
Proof.
  pose proof (relation_preorder _ once_closed_relation).
  apply sync_within_run; [apply _| |done].
  by intros agent w w' _ (self & self' & calls & _ & _ & _ & ->).
Qed.

(** ** The bystanders *)

Lemma lawyers_only_relation : session_relation lawyers_only.
Proof.
  split.
  - split; [by repeat split; auto|].
    intros w1 w2 w3 (Hc1 & Hs1 & Hp1 & Hk1) (Hc2 & Hs2 & Hp2 & Hk2).
    repeat split; try congruence.
    + destruct Hp2 as [Hp2|Hp2]; [|by right].
      destruct Hp1 as [Hp1|Hp1]; [left|right]; congruence.
    + intros key H1 H2. by rewrite Hk2, Hk1.
  - by repeat split; auto.
  - by repeat split; auto.
  - intros data w.
    destruct (on_message_handler_step data w) as [_ (_&_&Hc&Hs&_&Hp&_&Hk)].
    repeat split; auto. intros key H1 H2. apply Hk. by intros [|].
  - by repeat split; auto.
Qed.

Lemma lawyers_only_run : sync_within lawyers_only SimulationController.run (λ _, True).
Proof.
  pose proof (relation_preorder _ lawyers_only_relation).
  apply sync_within_run; [apply _| |].
  - intros agent w w' Hagent (self & self' & calls & _ & _ & _ & ->).
    repeat split; auto. intros key H1 H2. simpl.
    rewrite lookup_insert_ne; [done|]. by destruct Hagent as [-> | ->].
  - intros w. repeat split; auto.
Qed.

(** ** Sessions under every schedule *)

Lemma handler_exec env fs remote schedule :
  handler env fs remote schedule
  = match connect env fs remote with
    | Ok s0 => Ok (exec schedule s0)
    | Raised e => Raised e
    end.
Proof. unfold handler. by destruct (connect env fs remote). Qed.

Lemma exec_app schedule later s :
  exec (schedule ++ later) s = exec later (exec schedule s).
Proof. unfold exec. by rewrite foldl_app. Qed.

Lemma connect_within R env fs remote s0 schedule later :
  session_relation R →
  sync_within R SimulationController.run (λ _, True) →
  connect env fs remote = Ok s0 →
  R (store (exec schedule s0)) (store (exec (schedule ++ later) s0)).
Proof.
  intros HR Hrun Hs0. rewrite exec_app.
  assert (task_within R s0) as Hstart.
  { apply connect_ok in Hs0 as (c & agents0 & _ & _ & ->). exact Hrun. }
  destruct (exec_within R HR schedule s0 Hstart) as [_ Hnow].
  by destruct (exec_within R HR later _ Hnow) as [Hlater _].
Qed.

(** X1.  The outbound stream of a connection is append-only: whatever the
    schedule, the events a client has received so far stay the first events
    of the stream, in the same order, however the session goes on. *)
Theorem outbound_append_only env fs remote schedule later :
  events_of (handler env fs remote schedule)
    `prefix_of` events_of (handler env fs remote (schedule ++ later)).
Proof.
  rewrite !handler_exec.
  destruct (connect env fs remote) as [s0|] eqn:Hs0; [|done].
  apply (connect_within stream_grows env fs remote s0 schedule later);
    [apply stream_grows_relation|apply stream_grows_run|done].
Qed.

(** X2.  The history of an agent is append-only, and its persona and its
    provider are fixed once the session is set up: whatever happens later
    in a session, every agent is still there, with the same persona and
    provider, and its earlier memory is the beginning of its later one. *)
Theorem histories_append_only env fs remote schedule later key self :
  agent_of (handler env fs remote schedule) key = Some self →
  ∃ self', agent_of (handler env fs remote (schedule ++ later)) key = Some self'
           ∧ memory self `prefix_of` memory self'
           ∧ persona self' = persona self
           ∧ llm_provider self' = llm_provider self.
Proof.
  rewrite !handler_exec.
  destruct (connect env fs remote) as [s0|] eqn:Hs0; [|done].
  apply (connect_within histories_grow env fs remote s0 schedule later);
    [apply histories_grow_relation|apply histories_grow_run|done].
Qed.

Lemma histories_append_only_witness :
  let r := handler with_key (disk state_v_doe) (echo "Your Honour.") in
  ∃ self self',
    agent_of (r (replicate 4 Tick)) "prosecutor" = Some self
    ∧ agent_of (r (replicate 4 Tick ++ replicate 5 Tick)) "prosecutor" = Some self'
    ∧ memory self `prefix_of` memory self'
    ∧ persona self' = persona self.
Proof.
  intros r.
  assert (is_Some (agent_of (r (replicate 4 Tick)) "prosecutor")) as [self Hself].
  { vm_compute. by eexists. }
  destruct (histories_append_only with_key (disk state_v_doe) (echo "Your Honour.")
              (replicate 4 Tick) (replicate 5 Tick) "prosecutor" self Hself)
    as (self' & Hself' & Hmem & Hpersona & _).
  exists self, self'. exact (conj Hself (conj Hself' (conj Hmem Hpersona))).
Defined.

(** X3.  Once the connection has closed, nothing more is added to the
    outbound stream, whatever the controller task and the client do. *)
Theorem closed_connection_is_silent env fs remote schedule later :
  events_of (handler env fs remote (schedule ++ Break :: later))
  = events_of (handler env fs remote schedule).
Proof.
  rewrite !handler_exec.
  destruct (connect env fs remote) as [s0|] eqn:Hs0; [|done]. simpl.
  pose proof (connect_within once_closed env fs remote s0 [] schedule
                once_closed_relation once_closed_run Hs0) as [Hws _].
  pose proof (connect_within once_closed env fs remote s0 (schedule ++ [Break]) later
                once_closed_relation once_closed_run Hs0) as [_ Hclosed].
  rewrite <- (assoc_L (++)) in Hclosed. simpl in Hclosed, Hws.
  rewrite exec_snoc in Hclosed. simpl in Hclosed.
  destruct (websocket (store (exec schedule s0))) as [ws|] eqn:Hlink.
  - by destruct Hclosed as [_ ->].
  - destruct Hws; [|done].
    by apply connect_ok in Hs0 as (c & agents0 & _ & _ & ->).
Qed.

(** X4.  Only the two lawyers take part in a session: in every state a
    session can reach, the case and the generation services are the ones
    it was set up with, the judge (and any agent other than the two
    lawyers) is exactly as [create_courtroom_agents] made it, and the
    phase is [PRE_TRIAL] or [OPENING_STATEMENTS]. *)
Theorem bystanders_untouched env fs remote schedule s0 :
  connect env fs remote = Ok s0 →
  let s := exec schedule s0 in
  case (store s) = case (store s0)
  ∧ service (store s) = service (store s0)
  ∧ (∀ key, key ≠ "prosecutor" → key ≠ "defense_lawyer" →
            agents (store s) !! key = agents (store s0) !! key)
  ∧ (phase (store s) = PRE_TRIAL ∨ phase (store s) = OPENING_STATEMENTS).
Proof.
  intros Hs0 s.
  pose proof (connect_within lawyers_only env fs remote s0 [] schedule
                lawyers_only_relation lawyers_only_run Hs0) as (Hc & Hs & Hp & Hk).
  simpl in *. fold s in Hc, Hs, Hp, Hk. repeat split; try done.
  destruct Hp as [-> | ->]; [left|by right].
  by apply connect_ok in Hs0 as (c & agents0 & _ & _ & ->).
Qed.

Lemma bystanders_untouched_witness :
  let s0 := doe_start (echo "Your Honour.") in
  let s := exec (replicate 9 Tick) s0 in
  agents (store s) !! "judge" = agents (store s0) !! "judge"
  ∧ (phase (store s) = PRE_TRIAL ∨ phase (store s) = OPENING_STATEMENTS).
Proof.
  destruct (bystanders_untouched with_key (disk state_v_doe) (echo "Your Honour.")
              (replicate 9 Tick) (doe_start (echo "Your Honour.")))
    as (_ & _ & Hkey & Hphase).
  - reflexivity.
  - exact (conj (Hkey "judge" ltac:(discriminate) ltac:(discriminate)) Hphase).
Defined.
(** * The end of the handler *)

Lemma set_websocket_same w : set_websocket (websocket w) w = w.
Proof. by destruct w. Qed.

(** Once the handler has left its loop and the task has ended, only the
    state of the connection can change. *)
Lemma step_dead a s :
  handler_running s = false →
  (∀ k, simulation_task s ≠ Pending k) →
  ∃ ws, step a s = {| store := set_websocket ws (store s);
                      simulation_task := simulation_task s;
                      handler_running := false |}.
Proof.
  destruct s as [w t running]. simpl. intros -> Htask.
  destruct a; simpl.
  - exists (websocket w). rewrite set_websocket_same.
    destruct t as [k| | |]; [by destruct (Htask k)|done..].
  - exists (websocket w). by rewrite set_websocket_same.
  - exists (websocket w). by rewrite set_websocket_same.
  - by eexists.
  - exists (websocket w). rewrite set_websocket_same.
    by destruct (websocket w) as [[]|].
Qed.

Lemma exec_dead later s :
  handler_running s = false →
  (∀ k, simulation_task s ≠ Pending k) →
  ∃ ws, exec later s = {| store := set_websocket ws (store s);
                          simulation_task := simulation_task s;
                          handler_running := false |}.
Proof.
  intros Hrun Htask. induction later as [|a later (ws & IH)] using rev_ind.
  - exists (websocket (store s)). rewrite set_websocket_same, <- Hrun. by destruct s.
  - rewrite exec_snoc, IH.
    destruct (step_dead a {| store := set_websocket ws (store s);
                             simulation_task := simulation_task s;
                             handler_running := false |} eq_refl Htask) as [ws' ->].
    by exists ws'.
Qed.

Lemma cancel_not_pending t k : cancel t ≠ Pending k.
Proof. by destruct t. Qed.

Lemma malformed_raises data w :
  well_formed data = false → ∃ e, on_message data w = (Raised e, w).
Proof.
  unfold well_formed, on_message.
  destruct (subscript data "event") as [ev|e]; [|by eexists].
  destruct (eq_str ev "set_role").
  { destruct (subscript data "role"); [done|by eexists]. }
  destruct (eq_str ev "user_input"); [|done].
  destruct (subscript data "message"); [done|by eexists].
Qed.

(** X5.  When the handler leaves its loop, because a message is no JSON,
    is no object with an [event] field, is a role assignment without a
    role or an utterance without a message, or because it sees that the
    connection has closed, the controller task is cancelled unless it had
    ended; from then on, whatever arrives, the task stays as it is, nothing
    is sent, and agents and queue stay as they are. *)
Theorem handler_exit_cancels_for_good (s : session) (a : action) (later : list action) :
  handler_running s = true →
  ends_handler a s = true →
  let s' := exec (a :: later) s in
  handler_running s' = false
  ∧ simulation_task s' = cancel (simulation_task s)
  ∧ outbound (store s') = outbound (store s)
  ∧ agents (store s') = agents (store s)
  ∧ user_input_queue (store s') = user_input_queue (store s).
Proof.
  intros Hrun Hends s'.
  assert (step a s = {| store := store s; simulation_task := cancel (simulation_task s);
                        handler_running := false |}) as Hstep.
  { destruct a; try done; simpl in *; rewrite Hrun.
    - apply negb_true_iff in Hends.
      by destruct (malformed_raises data (store s) Hends) as [e ->].
    - done.
    - by destruct (websocket (store s)) as [[]|]. }
  destruct (exec_dead later (step a s)) as (ws & Hlater).
  { by rewrite Hstep. }
  { rewrite Hstep. apply cancel_not_pending. }
  change (exec later (step a s)) with s' in Hlater.
  by rewrite Hlater, Hstep.
Qed.

Lemma handler_exit_cancels_for_good_witness :
  let s' := exec [ReceiveGarbage; Receive hello; Tick; Receive take_defense] bob_waits in
  handler_running s' = false
  ∧ simulation_task s' = Cancelled
  ∧ outbound (store s') = outbound (store bob_waits)
  ∧ agents (store s') = agents (store bob_waits)
  ∧ user_input_queue (store s') = [].
Proof.
  apply (handler_exit_cancels_for_good bob_waits ReceiveGarbage
           [Receive hello; Tick; Receive take_defense]); reflexivity.
Defined.



(** * Transcripts *)

Lemma persona_insert agent self self' (a : gmap string TinyPerson) key :
  a !! agent = Some self → persona self' = persona self →
  persona <$> <[agent := self']> a !! key = persona <$> a !! key.
Proof.
  intros Hself Hsame. destruct (decide (key = agent)) as [->|Hne].
  - rewrite lookup_insert_eq, Hself. simpl. by rewrite Hsame.
  - by rewrite lookup_insert_ne.
Qed.

Section transcript.
Context (link : option channel → Prop) (E : exn → Prop).
Hypothesis Hnone : ¬ link None.
Hypothesis Hclosed : link (Some Closed) → E ConnectionClosed.
Context (c : Case) (persona_p persona_d : list (string * pyval)) (name_p name_d : pyval).
Hypothesis Hname_p : dict_find persona_p "name" = Some name_p.
Hypothesis Hname_d : dict_find persona_d "name" = Some name_d.
Local Abbreviation R := (handler_env link).
Local Abbreviation I := (cast link c persona_p persona_d).
Local Abbreviation says := (says R I E).

#[local] Instance handler_env_preorder : PreOrder R.
Proof.
  split.
  - by intros w.
  - intros w1 w2 w3 (Ho1 & Hl1 & Hc1 & Hn1 & Hp1) (Ho2 & Hl2 & Hc2 & Hn2 & Hp2).
    split; [congruence|]. split; [auto|]. split; [congruence|].
    split; [congruence|]. intros key. by rewrite Hp2, Hp1.
Qed.

Lemma cast_keeps w w' :
  I w → websocket w' = websocket w → case w' = case w →
  (∀ key, persona <$> agents w' !! key = persona <$> agents w !! key) →
  I w'.
Proof.
  intros (Hl & Hc & Hp & Hd) Hws Hcase Hpersona.
  split; [by rewrite Hws|]. split; [congruence|]. by rewrite !Hpersona.
Qed.

Lemma cast_stable w w' : I w → R w w' → I w'.
Proof.
  intros (Hl & Hc & Hp & Hd) (_ & Hl' & Hc' & _ & Hp').
  split; [auto|]. split; [congruence|]. by rewrite !Hp'.
Qed.

Lemma says_mono {A} (k : coro A) (Q Q' : A → list event → nat → Prop) :
  (∀ a L m, Q a L m → Q' a L m) → says k Q → says k Q'.
Proof.
  intros HQ Hk n w Hw. eapply wp_mono; [|by apply Hk].
  intros [a|e] _ w'; [|done]. intros (Hw' & L & m & H & Ho & Hn).
  split; [done|]. exists L, m. auto.
Qed.

Lemma says_bind {A B} (k : coro A) (k' : A → coro B) Q1 Q :
  says k Q1 →
  (∀ a L1 m1, Q1 a L1 m1 → says (k' a) (λ b L2 m2, Q b (L1 ++ L2) (m1 + m2)%nat)) →
  says (k ≫= k') Q.
Proof.
  intros Hk Hk' n w Hw. apply wp_bind. eapply wp_mono; [|by apply Hk].
  intros [a|e] n' w'; [|done]. intros (Hw' & L1 & m1 & H1 & Ho1 & Hn1).
  eapply wp_mono; [|by apply (Hk' a L1 m1 H1)].
  intros [b|e] _ w''; [|done]. intros (Hw'' & L2 & m2 & H2 & Ho2 & Hn2).
  split; [done|]. exists (L1 ++ L2), (m1 + m2)%nat.
  split; [done|]. rewrite Ho2, Ho1, Hn2, Hn1. split; [by rewrite (assoc_L (++))|lia].
Qed.

Lemma says_ret {A} (a : A) (Q : A → list event → nat → Prop) :
  Q a [] 0%nat → says (Return a) Q.
Proof.
  intros HQ n w Hw. simpl. split; [done|]. exists [], 0%nat.
  by rewrite app_nil_r, Nat.add_0_r.
Qed.

(** A synchronous block that keeps the stream, the connection, the case,
    the personas and the number of calls. *)
Lemma says_sync {X} (f : world → result X * world) (P : X → Prop) :
  (∀ w, I w → ∃ x w', f w = (Ok x, w') ∧ P x
                      ∧ outbound w' = outbound w ∧ llm_calls w' = llm_calls w
                      ∧ websocket w' = websocket w ∧ case w' = case w
                      ∧ ∀ key, persona <$> agents w' !! key = persona <$> agents w !! key) →
  says (Sync f Return) (λ x L m, P x ∧ L = [] ∧ m = 0%nat).
Proof.
  intros Hf n w Hw. destruct (Hf w Hw) as (x & w' & Hfw & HP & Ho & Hn & Hws & Hc & Hp).
  simpl. rewrite Hfw. simpl. split; [by apply (cast_keeps w)|].
  exists [], 0%nat. by rewrite app_nil_r, Nat.add_0_r.
Qed.

Lemma says_send_event (e : event) :
  says (SimulationController.send_event e) (λ _ L m, L = [e] ∧ m = 0%nat).
Proof.
  intros n w Hw. pose proof Hw as (Hl & _). simpl.
  destruct (websocket w) as [[]|] eqn:Hws; simpl; rewrite ?Hws.
  - intros w' Hw'. simpl. split.
    + eapply cast_stable; [|exact Hw']. by apply (cast_keeps w).
    + destruct Hw' as (Ho & _ & _ & Hn & _). exists [e], 0%nat.
      rewrite Ho, Hn. simpl. by rewrite Nat.add_0_r.
  - by apply Hclosed.
  - done.
Qed.

Lemma says_sleep secs :
  says (AwaitSleep secs (Return ())) (λ _ L m, L = [] ∧ m = 0%nat).
Proof.
  intros n w Hw. simpl. intros w' Hw'. split; [by eapply cast_stable|].
  destruct Hw' as (Ho & _ & _ & Hn & _). exists [], 0%nat.
  by rewrite Ho, Hn, app_nil_r, Nat.add_0_r.
Qed.

Lemma says_read_case : says (read case) (λ x L m, x = c ∧ L = [] ∧ m = 0%nat).
Proof.
  apply says_sync. intros w (_ & Hc & _). by exists (case w), w.
Qed.

Lemma says_set_phase p :
  says (write (set_phase p)) (λ _ L m, True ∧ L = [] ∧ m = 0%nat).
Proof. apply says_sync. intros w _. by exists (), (set_phase p w). Qed.

Section lawyer.
Context (agent : string) (persona_a : list (string * pyval)) (name_a : pyval).
Hypothesis Hagent : ∀ w, I w → persona <$> agents w !! agent = Some persona_a.
Hypothesis Hname_a : dict_find persona_a "name" = Some name_a.

Lemma cast_agent w :
  I w → ∃ self, agents w !! agent = Some self ∧ persona self = persona_a.
Proof.
  intros Hw. specialize (Hagent w Hw).
  destruct (agents w !! agent) as [self|]; [|done].
  exists self. split; [done|]. by injection Hagent.
Qed.

Lemma says_agents_getitem :
  says (SimulationController.agents_getitem agent)
       (λ x L m, x = agent ∧ L = [] ∧ m = 0%nat).
Proof.
  apply says_sync. intros w Hw. destruct (cast_agent w Hw) as (self & Hself & _).
  exists agent, w. by rewrite Hself.
Qed.

Lemma says_persona_name :
  says (SimulationController.persona_name agent)
       (λ x L m, x = name_a ∧ L = [] ∧ m = 0%nat).
Proof.
  apply says_sync. intros w Hw. destruct (cast_agent w Hw) as (self & Hself & Hp).
  exists name_a, w. unfold dict_getitem. by rewrite Hself, Hp, Hname_a.
Qed.

(** A turn: either the client is asked and no call is made, or one call is
    made and nothing is sent. *)
Lemma says_get_agent_action prompt :
  says (SimulationController.get_agent_action agent prompt)
       (λ _ L m,
          (L = [ [("event", PStr "request_user_input");
                  ("role", dict_get persona_a "role" (PStr "unknown"))] ]
           ∧ m = 0%nat)
          ∨ (L = [] ∧ m = 1%nat)).
Proof.
  intros n w Hw. destruct (cast_agent w Hw) as (self & Hself & Hp).
  assert (dict_find (persona self) "name" = Some name_a) as Hname by by rewrite Hp.
  unfold SimulationController.get_agent_action.
  apply wp_bind, wp_sync. rewrite Hself, (listen_named _ _ name_a Hname). wp_pure.
  set (heard := set_memory _ self).
  set (w1 := set_agents _ w).
  assert (I w1) as Hw1.
  { apply (cast_keeps w); [done..|]. intros key. by apply (persona_insert _ self). }
  apply wp_bind; eapply wp_agent_get; [unfold w1; find_agent|]. wp_pure.
  change (is_user_controlled heard) with (is_user_controlled self).
  destruct (is_user_controlled self) eqn:Hmode.
  - apply wp_bind; eapply wp_agent_get; [unfold w1; find_agent|]. wp_pure.
    change (persona heard) with (persona self). rewrite Hp.
    apply wp_bind. eapply wp_mono; [|by apply says_send_event].
    intros [[]|e] n2 w2; [|done]. intros (Hw2 & L & m & [-> ->] & Ho2 & Hn2).
    apply wp_bind. simpl. split; [done|].
    intros w3 Hw3 item rest Hq.
    pose proof (cast_stable _ _ Hw2 Hw3) as HIw3.
    destruct (cast_agent w3 HIw3) as (self3 & Hself3 & Hp3).
    simpl. rewrite Hself3. simpl. split.
    + apply (cast_keeps w3); [done..|]. intros key. by apply (persona_insert _ self3).
    + destruct Hw3 as (Ho3 & _ & _ & Hn3 & _).
      eexists _, 0%nat. split; [by left|]. rewrite Ho3, Hn3, Ho2, Hn2.
      simpl. split; [done|lia].
  - apply wp_bind, wp_sync. unfold w1 at 1. simpl agents. rewrite lookup_insert_eq.
    destruct (act_autonomous (service w1 (llm_calls w1)) heard name_a)
      as (pr & _ & Hact); [done..|].
    rewrite Hact. wp_pure. simpl. split.
    + apply (cast_keeps w1); [done..|]. intros key.
      apply (persona_insert _ heard); [|done]. unfold w1. find_agent.
    + exists [], 1%nat. split; [by right|]. by rewrite app_nil_r, Hmode, Nat.add_1_r.
Qed.

End lawyer.

Lemma cast_prosecutor w : I w → persona <$> agents w !! "prosecutor" = Some persona_p.
Proof. by intros (_ & _ & Hp & _). Qed.

Lemma cast_defense w : I w → persona <$> agents w !! "defense_lawyer" = Some persona_d.
Proof. by intros (_ & _ & _ & Hd). Qed.

Lemma says_run :
  says SimulationController.run
    (λ _ L m, ∃ human_p human_d m_p m_d,
       L = transcript c (dict_get persona_p "role" (PStr "unknown"))
             (dict_get persona_d "role" (PStr "unknown"))
             name_p name_d human_p human_d m_p m_d
       ∧ m = generated human_p human_d).
Proof.
  unfold SimulationController.run, SimulationController.run_opening_statements.
  eapply says_bind; [apply says_read_case|]. intros ? ? ? (-> & -> & ->).
  eapply says_bind; [apply says_send_event|]. intros _ ? ? (-> & ->).
  eapply says_bind; [apply says_set_phase|]. intros _ ? ? (_ & -> & ->).
  eapply (says_bind _ _ (λ _ L m, ∃ human_p human_d m_p m_d,
            L = opening_event
                :: turn_events human_p (dict_get persona_p "role" (PStr "unknown"))
                     name_p m_p
                ++ turn_events human_d (dict_get persona_d "role" (PStr "unknown"))
                     name_d m_d
            ∧ m = generated human_p human_d)).
  2: { intros _ L m (human_p & human_d & m_p & m_d & -> & ->).
       eapply says_mono; [|apply says_send_event]. intros _ ? ? (-> & ->).
       exists human_p, human_d, m_p, m_d. split; [|unfold generated; lia].
       unfold transcript. simpl. by rewrite <- !(assoc_L (++)). }
  eapply says_bind; [apply says_send_event|]. intros _ ? ? (-> & ->).
  eapply says_bind; [apply (says_agents_getitem _ _ cast_prosecutor)|].
  intros ? ? ? (-> & -> & ->).
  eapply says_bind; [apply (says_agents_getitem _ _ cast_defense)|].
  intros ? ? ? (-> & -> & ->).
  eapply says_bind; [apply says_read_case|]. intros ? ? ? (-> & -> & ->).
  eapply says_bind; [apply (says_get_agent_action _ _ name_p cast_prosecutor Hname_p)|].
  intros m_p L_p n_p Hturn_p.
  eapply says_bind; [apply (says_persona_name _ _ name_p cast_prosecutor Hname_p)|].
  intros ? ? ? (-> & -> & ->).
  eapply says_bind; [apply says_send_event|]. intros _ ? ? (-> & ->).
  eapply says_bind; [apply says_sleep|]. intros _ ? ? (-> & ->).
  eapply says_bind; [apply (says_persona_name _ _ name_p cast_prosecutor Hname_p)|].
  intros ? ? ? (-> & -> & ->).
  eapply says_bind; [apply (says_persona_name _ _ name_d cast_defense Hname_d)|].
  intros ? ? ? (-> & -> & ->).
  eapply says_bind; [apply (says_get_agent_action _ _ name_d cast_defense Hname_d)|].
  intros m_d L_d n_d Hturn_d.
  eapply says_bind; [apply (says_persona_name _ _ name_d cast_defense Hname_d)|].
  intros ? ? ? (-> & -> & ->).
  eapply says_bind; [apply says_send_event|]. intros _ ? ? (-> & ->).
  eapply says_mono; [|apply says_sleep]. intros _ ? ? (-> & ->).
  destruct Hturn_p as [[-> ->]|[-> ->]], Hturn_d as [[-> ->]|[-> ->]].
  - by exists true, true, m_p, m_d.
  - by exists true, false, m_p, m_d.
  - by exists false, true, m_p, m_d.
  - by exists false, false, m_p, m_d.
Qed.

End transcript.

(** ** From the controller to sessions *)

Lemma respects_handler_env (link : option channel → Prop) (a : action) :
  (a = Break →
   ∀ ws, link ws → link (match ws with Some _ => Some Closed | None => None end)) →
  respects (handler_env link) a.
Proof.
  intros Hbreak.
  assert (∀ w w', handler_step w w' → handler_env link w w') as Hstep.
  { intros w w' (Ho & Hws & Hc & _ & Hn & _ & Hp & _). split; [done|].
    split; [by rewrite Hws|]. split; [done|]. split; [done|].
    intros key. specialize (Hp key). unfold profile in Hp.
    destruct (agents w' !! key), (agents w !! key); simpl in *; try done.
    injection Hp as Hp _ _. by rewrite Hp. }
  destruct a; [by left|right; intros s; simpl..].
  - destruct (handler_running s); [|by apply Hstep].
    destruct (on_message_handler_step data (store s)) as [_ Hw].
    destruct (on_message data (store s)) as [[|e] w']; by apply Hstep.
  - destruct (handler_running s); by apply Hstep.
  - split; [done|]. split; [by apply Hbreak|done].
  - destruct (websocket (store s)) as [[]|], (handler_running s); by apply Hstep.
Qed.

Lemma connect_cast env fs remote s0 :
  connect env fs remote = Ok s0 →
  ∃ name_p name_d persona_p persona_d,
    persona <$> agents (store s0) !! "prosecutor" = Some persona_p
    ∧ persona <$> agents (store s0) !! "defense_lawyer" = Some persona_d
    ∧ subscript (plaintiff (case (store s0))) "lawyer" = Ok name_p
    ∧ subscript (defendant (case (store s0))) "lawyer" = Ok name_d
    ∧ dict_find persona_p "name" = Some name_p
    ∧ dict_find persona_d "name" = Some name_d
    ∧ dict_get persona_p "role" (PStr "unknown") = PStr "unknown"
    ∧ dict_get persona_d "role" (PStr "unknown") = PStr "unknown"
    ∧ websocket (store s0) = Some Open
    ∧ outbound (store s0) = [] ∧ llm_calls (store s0) = 0%nat
    ∧ simulation_task s0 = Pending SimulationController.run.
Proof.
  intros Hs0. apply connect_ok in Hs0 as (c & agents0 & _ & Hagents & ->).
  unfold create_courtroom_agents, TinyPerson.init in Hagents.
  destruct (get_llm_provider env "openai") as [provider|]; [|done].
  cbn [mbind result_mbind result_bind mret result_mret] in Hagents.
  destruct (subscript (plaintiff c) "lawyer") as [name_p|] eqn:Hp; [|done].
  cbn [mbind result_mbind result_bind mret result_mret] in Hagents.
  destruct (subscript (defendant c) "lawyer") as [name_d|] eqn:Hd; [|done].
  cbn [mbind result_mbind result_bind mret result_mret] in Hagents.
  injection Hagents as <-. simpl.
  eexists name_p, name_d, _, _. rewrite Hp, Hd.
  rewrite lookup_insert_ne, !lookup_insert_eq by done. simpl.
  do 8 (split; [reflexivity|]). done.
Qed.

Section sessions.
Context (link : option channel → Prop) (E : exn → Prop).
Hypothesis Hnone : ¬ link None.
Hypothesis Hclosed : link (Some Closed) → E ConnectionClosed.
Hypothesis Hopen : link (Some Open).

Lemma session_outcome env fs remote schedule s0 :
  connect env fs remote = Ok s0 →
  Forall (respects (handler_env link)) schedule →
  match simulation_task (exec schedule s0) with
  | Finished =>
      ∃ name_p name_d human_p human_d m_p m_d,
        subscript (plaintiff (case (store s0))) "lawyer" = Ok name_p
        ∧ subscript (defendant (case (store s0))) "lawyer" = Ok name_d
        ∧ outbound (store (exec schedule s0))
          = transcript (case (store s0)) (PStr "unknown") (PStr "unknown")
              name_p name_d human_p human_d m_p m_d
        ∧ llm_calls (store (exec schedule s0)) = generated human_p human_d
  | Crashed e => E e
  | _ => True
  end.
Proof.
  intros Hs0 Hall.
  destruct (connect_cast env fs remote s0 Hs0)
    as (name_p & name_d & persona_p & persona_d & Hp & Hd & Hlp & Hld & Hnp & Hnd
        & Hrp & Hrd & Hws & Hout & Hcalls & Htask).
  pose proof (handler_env_preorder link) as Hpre.
  set (Φ := λ (r : result ()) (_ : nat) (w' : world),
         match r with
         | Ok _ => ∃ human_p human_d m_p m_d,
             outbound w' = transcript (case (store s0)) (PStr "unknown")
                             (PStr "unknown") name_p name_d
                             human_p human_d m_p m_d
             ∧ llm_calls w' = generated human_p human_d
         | Raised e => E e
         end).
  assert (task_inv (handler_env link) True Φ 0 s0) as Hstart.
  { unfold task_inv. rewrite Htask. exists 0%nat. split; [by left|].
    intros w' Hw'. eapply wp_mono;
      [|apply (says_run link E Hnone Hclosed (case (store s0)) persona_p persona_d
                 name_p name_d Hnp Hnd 0%nat w')].
    + intros [[]|e] n' w''; unfold Φ; [|done].
      intros (_ & L & m & (hp & hd & m_p & m_d & -> & ->) & Ho & Hn).
      destruct Hw' as (Ho' & _ & _ & Hn' & _).
      exists hp, hd, m_p, m_d. by rewrite Ho, Hn, Ho', Hn', Hout, Hcalls, Hrp, Hrd.
    + apply (cast_stable link (case (store s0)) persona_p persona_d (store s0));
        [|done]. unfold cast. by rewrite Hws. }
  pose proof (adequacy (handler_env link) True Φ schedule s0 Hall Hstart) as Had.
  unfold task_inv in Had.
  destruct (simulation_task (exec schedule s0)) as [k| |e|]; [done| | |done].
  - destruct Had as (n & w1 & (hp & hd & m_p & m_d & Ho & Hn) & (Ho' & _ & _ & Hn' & _)).
    exists name_p, name_d, hp, hd, m_p, m_d. by rewrite Ho', Hn'.
  - by destruct Had as (n & w1 & He & _).
Qed.

End sessions.

(** X7.  The stream of a session whose controller task has run to its end,
    whatever the client sent and whenever: [trial_starts] with the title of
    the case, the start of the opening statements, the turn of the
    plaintiff's lawyer, the turn of the defendant's lawyer, and
    [trial_finished].  A turn is one [agent_speaks] under the lawyer's name,
    preceded by one request for input when the turn was the client's.  The
    provider has been called once for each turn that was not the client's. *)
Theorem completed_session_transcript env fs remote schedule s0 :
  connect env fs remote = Ok s0 →
  simulation_task (exec schedule s0) = Finished →
  ∃ name_p name_d human_p human_d m_p m_d,
    subscript (plaintiff (case (store s0))) "lawyer" = Ok name_p
    ∧ subscript (defendant (case (store s0))) "lawyer" = Ok name_d
    ∧ outbound (store (exec schedule s0))
      = transcript (case (store s0)) (PStr "unknown") (PStr "unknown")
          name_p name_d human_p human_d m_p m_d
    ∧ llm_calls (store (exec schedule s0)) = generated human_p human_d.
Proof.
  intros Hs0 Hend.
  pose proof (session_outcome (λ ws, ws ≠ None) (λ _, True)) as H.
  specialize (H ltac:(by intros []) ltac:(done) ltac:(done) env fs remote schedule s0 Hs0).
  rewrite Hend in H. apply H.
  apply Forall_forall. intros a _. apply respects_handler_env.
  intros _ [ws|]; done.
Qed.

Lemma completed_session_transcript_witness :
  let s0 := doe_start (echo "Your Honour.") in
  let schedule := [Tick; Tick; Tick; Tick; Receive take_defense; Tick;
                   Receive hello; Tick; Tick; Tick; Tick] in
  ∃ name_p name_d human_p human_d m_p m_d,
    subscript (plaintiff (case (store s0))) "lawyer" = Ok name_p
    ∧ subscript (defendant (case (store s0))) "lawyer" = Ok name_d
    ∧ outbound (store (exec schedule s0))
      = transcript (case (store s0)) (PStr "unknown") (PStr "unknown")
          name_p name_d human_p human_d m_p m_d
    ∧ llm_calls (store (exec schedule s0)) = generated human_p human_d.
Proof.
  intros s0 schedule.
  apply (completed_session_transcript with_key (disk state_v_doe)
           (echo "Your Honour.") schedule s0).
  - reflexivity.
  - vm_compute. reflexivity.
Defined.



(** * A [TinyWorld] *)

Lemma is_said_said text : is_said ("Said: " +:+ text) = true.
Proof. unfold is_said. simpl. by destruct text. Qed.

Lemma set_memory_nil self : set_memory (memory self ++ []) self = self.
Proof. rewrite app_nil_r. by destruct self. Qed.

Lemma said_more_refl self : said_more 0 self self.
Proof. exists []. by rewrite set_memory_nil. Qed.

Lemma said_more_trans n1 n2 a b c :
  said_more n1 a b → said_more n2 b c → said_more (n1 + n2) a c.
Proof.
  intros (said1 & -> & <- & Hs1) (said2 & -> & <- & Hs2).
  exists (said1 ++ said2). simpl. rewrite (assoc_L (++)).
  split; [done|]. split; [by rewrite length_app|by apply Forall_app].
Qed.

Lemma said_more_mode n a b :
  said_more n a b →
  is_user_controlled b = is_user_controlled a ∧ persona b = persona a.
Proof. by intros (said & -> & _). Qed.

Lemma after_turns_refl w : after_turns (λ _, 0%nat) w w.
Proof.
  intros key. destruct (agents w !! key) as [self|]; [|done].
  exists self. split; [done|]. destruct (is_user_controlled self); apply said_more_refl.
Qed.

Lemma after_turns_trans c1 c2 w1 w2 w3 :
  after_turns c1 w1 w2 → after_turns c2 w2 w3 →
  after_turns (λ key, c1 key + c2 key)%nat w1 w3.
Proof.
  intros H12 H23 key. specialize (H12 key). specialize (H23 key).
  destruct (agents w1 !! key) as [a|].
  - destruct H12 as (b & Hb & Hab). rewrite Hb in H23.
    destruct H23 as (c & Hc & Hbc). exists c. split; [done|].
    destruct (said_more_mode _ _ _ Hab) as [Hmode _]. rewrite Hmode in Hbc.
    destruct (is_user_controlled a);
      [by apply (said_more_trans 0 0 a b c)|by apply (said_more_trans _ _ a b c)].
  - by rewrite H12 in H23.
Qed.

Lemma after_turns_ext c c' w w' :
  (∀ key, c key = c' key) → after_turns c w w' → after_turns c' w w'.
Proof.
  intros Hext H key. specialize (H key). rewrite <- Hext. exact H.
Qed.

(** The turns taken do not change who can act, nor who is autonomous. *)
Lemma after_turns_ready c w w' agent :
  after_turns c w w' →
  ready w' agent = ready w agent ∧ autonomous w' agent = autonomous w agent.
Proof.
  intros H. specialize (H agent). unfold ready, autonomous.
  destruct (agents w !! agent) as [a|]; [|by rewrite H].
  destruct H as (b & -> & said & -> & Hlen & _). unfold can_act. simpl.
  destruct (is_user_controlled a); [|done].
  apply nil_length_inv in Hlen as ->. by rewrite app_nil_r.
Qed.

Lemma calls_per_turn_after c w w' agents :
  after_turns c w w' → calls_per_turn w' agents = calls_per_turn w agents.
Proof.
  intros H. unfold calls_per_turn. f_equal.
  induction agents as [|a agents IH]; [done|]. simpl.
  destruct (after_turns_ready c w w' a H) as [_ ->]. by rewrite IH.
Qed.

Lemma forallb_ready_after c w w' agents :
  after_turns c w w' → forallb (ready w') agents = forallb (ready w) agents.
Proof.
  intros H. induction agents as [|a agents IH]; [done|]. simpl.
  destruct (after_turns_ready c w w' a H) as [-> _]. by rewrite IH.
Qed.

Lemma after_turns_insert agent a b n w calls :
  agents w !! agent = Some a →
  said_more (if is_user_controlled a then 0 else n) a b →
  after_turns (λ key, if String.eqb key agent then n else 0)%nat w
    (set_llm_calls calls (set_agents (<[agent := b]> (agents w)) w)).
Proof.
  intros Ha Hab key. simpl. destruct (decide (key = agent)) as [->|Hne].
  - rewrite Ha, lookup_insert_eq, String.eqb_refl. by exists b.
  - rewrite lookup_insert_ne by done.
    destruct (agents w !! key) as [other|]; [|done]. exists other. split; [done|].
    apply String.eqb_neq in Hne. rewrite Hne.
    destruct (is_user_controlled other); apply said_more_refl.
Qed.

(** One agent acts. *)
Lemma act_through_ready agent w :
  ready w agent = true →
  ∃ said w',
    act_through agent w = (Ok said, w')
    ∧ llm_calls w' = (llm_calls w + if autonomous w agent then 1 else 0)%nat
    ∧ after_turns (λ key, if String.eqb key agent then 1 else 0)%nat w w'.
Proof.
  unfold ready, autonomous, act_through, can_act.
  destruct (agents w !! agent) as [a|] eqn:Ha; [|done].
  destruct (is_user_controlled a) eqn:Hmode.
  - unfold TinyPerson.act. rewrite Hmode.
    destruct (memory a) as [|entry older] eqn:Hmem; [done|]. intros _.
    destruct (last (entry :: older)) as [final|] eqn:Hlast.
    2: { by apply last_None in Hlast. }
    eexists _, _. split; [reflexivity|]. simpl. split; [lia|].
    apply (after_turns_insert agent a a 1 w); [done|]. rewrite Hmode.
    apply said_more_refl.
  - destruct (dict_find (persona a) "name") as [name|] eqn:Hname; [|done]. intros _.
    destruct (act_autonomous (service w (llm_calls w)) a name Hmode Hname)
      as (prompt & _ & ->).
    eexists _, _. split; [reflexivity|]. simpl. split; [lia|].
    apply (after_turns_insert agent a _ 1 w); [done|]. rewrite Hmode.
    eexists [_]. split; [reflexivity|]. split; [done|].
    constructor; [apply is_said_said|constructor].
Qed.

(** One agent cannot act. *)
Lemma act_through_fails agent a w :
  agents w !! agent = Some a → can_act a = false →
  ∃ w', act_through agent w = (Raised (act_error a), w')
        ∧ llm_calls w' = llm_calls w
        ∧ after_turns (λ _, 0%nat) w w'.
Proof.
  intros Ha. unfold act_through, can_act, act_error, TinyPerson.act. rewrite Ha.
  assert (after_turns (λ _, 0%nat) w
            (set_llm_calls (llm_calls w) (set_agents (<[agent := a]> (agents w)) w)))
    as Hsame.
  { eapply after_turns_ext; [|apply (after_turns_insert agent a a 0 w); [done|]].
    - intros key. simpl. by destruct (String.eqb key agent).
    - destruct (is_user_controlled a); apply said_more_refl. }
  destruct (is_user_controlled a).
  - destruct (memory a) as [|entry older] eqn:Hmem; [|done]. intros _.
    simpl. by eexists.
  - unfold TinyPerson._build_prompt, dict_getitem.
    destruct (dict_find (persona a) "name"); [done|]. intros _. simpl. by eexists.
Qed.

Lemma occurrences_cons key agent agents :
  occurrences key (agent :: agents)
  = ((if String.eqb key agent then 1 else 0) + occurrences key agents)%nat.
Proof. unfold occurrences. simpl. by destruct (String.eqb key agent). Qed.

Lemma calls_per_turn_cons w agent agents :
  calls_per_turn w (agent :: agents)
  = ((if autonomous w agent then 1 else 0) + calls_per_turn w agents)%nat.
Proof. unfold calls_per_turn. simpl. by destruct (autonomous w agent). Qed.

Lemma calls_per_turn_app w ahead behind :
  calls_per_turn w (ahead ++ behind)
  = (calls_per_turn w ahead + calls_per_turn w behind)%nat.
Proof.
  unfold calls_per_turn. by rewrite List.filter_app, length_app.
Qed.

(** The inner loop, when every agent listed can act. *)
Lemma everyone_acts_ready agents w :
  forallb (ready w) agents = true →
  ∃ w', TinyWorld.everyone_acts agents w = (Ok (), w')
        ∧ llm_calls w' = (llm_calls w + calls_per_turn w agents)%nat
        ∧ after_turns (λ key, occurrences key agents) w w'.
Proof.
  revert w. induction agents as [|agent agents IH]; intros w Hready.
  - exists w. split; [done|]. split; [unfold calls_per_turn; simpl; lia|].
    apply after_turns_refl.
  - simpl in Hready. apply andb_true_iff in Hready as [Hagent Hrest].
    destruct (act_through_ready agent w Hagent) as (said & w1 & Hact & Hcalls1 & H1).
    destruct (IH w1) as (w' & Hloop & Hcalls & H').
    { by rewrite (forallb_ready_after _ w w1 _ H1). }
    exists w'. simpl. rewrite Hact. split; [done|]. split.
    + rewrite Hcalls, Hcalls1, calls_per_turn_cons,
        (calls_per_turn_after _ w w1 _ H1). lia.
    + eapply after_turns_ext; [|by eapply after_turns_trans].
      intros key. simpl. by rewrite occurrences_cons.
Qed.

Lemma turns_ready n self w :
  forallb (ready w) (TinyWorld.agents self) = true →
  ∃ w', TinyWorld.turns n self w
        = (Ok (), ({| TinyWorld.name := TinyWorld.name self;
                      TinyWorld.agents := TinyWorld.agents self;
                      TinyWorld.current_turn := TinyWorld.current_turn self + Z.of_nat n |},
                   w'))
        ∧ llm_calls w' = (llm_calls w + n * calls_per_turn w (TinyWorld.agents self))%nat
        ∧ after_turns (λ key, n * occurrences key (TinyWorld.agents self))%nat w w'.
Proof.
  revert self w. induction n as [|n IH]; intros self w Hready.
  - exists w. split; [|split; [simpl; lia|apply after_turns_refl]].
    simpl. rewrite Z.add_0_r. by destruct self.
  - destruct (everyone_acts_ready _ w Hready) as (w1 & Hloop & Hcalls1 & H1).
    destruct (IH {| TinyWorld.name := TinyWorld.name self;
                    TinyWorld.agents := TinyWorld.agents self;
                    TinyWorld.current_turn := TinyWorld.current_turn self + 1 |} w1)
      as (w' & Hturns & Hcalls & H').
    { simpl. by rewrite (forallb_ready_after _ w w1 _ H1). }
    simpl in Hturns, Hcalls, H'.
    exists w'. simpl TinyWorld.turns. rewrite Hloop, Hturns. split.
    + do 3 f_equal. lia.
    + split.
      * rewrite Hcalls, Hcalls1, (calls_per_turn_after _ w w1 _ H1). lia.
      * eapply after_turns_ext; [|by eapply after_turns_trans]. intros key. simpl. lia.
Qed.

(** X9.  [TinyWorld.run] when every agent listed can act (an autonomous one
    has a name, a human-controlled one a memory entry): the run returns,
    [current_turn] has advanced by the number of steps (by nothing for a
    negative number), the provider has been called once per step for each
    listing of an autonomous agent, each autonomous agent has remembered
    that many more utterances of its own after what it remembered before,
    and the human-controlled ones are exactly as they were.  An agent
    listed twice acts twice a step. *)
Theorem tinyworld_run_when_all_can_act (self : TinyWorld.TinyWorld) (w : world) (steps : Z) :
  forallb (ready w) (TinyWorld.agents self) = true →
  ∃ w',
    TinyWorld.run steps self w
    = (Ok (), ({| TinyWorld.name := TinyWorld.name self;
                  TinyWorld.agents := TinyWorld.agents self;
                  TinyWorld.current_turn := TinyWorld.current_turn self + Z.max 0 steps |},
               w'))
    ∧ llm_calls w'
      = (llm_calls w + Z.to_nat steps * calls_per_turn w (TinyWorld.agents self))%nat
    ∧ after_turns (λ key, Z.to_nat steps * occurrences key (TinyWorld.agents self))%nat
        w w'.
Proof.
  intros Hready. unfold TinyWorld.run.
  destruct (turns_ready (Z.to_nat steps) self w Hready) as (w' & Hturns & H).
  exists w'. split; [|done]. rewrite Hturns. do 3 f_equal. lia.
Qed.

Lemma tinyworld_run_when_all_can_act_witness :
  let court := TinyWorld.init "court" ["ann"; "bob"; "ann"] in
  ∃ w', TinyWorld.run 3 court (chamber bob)
        = (Ok (), ({| TinyWorld.name := "court";
                      TinyWorld.agents := ["ann"; "bob"; "ann"];
                      TinyWorld.current_turn := 0 + Z.max 0 3 |}, w'))
        ∧ llm_calls w' = (0 + Z.to_nat 3 * calls_per_turn (chamber bob) ["ann"; "bob"; "ann"])%nat
        ∧ after_turns (λ key, Z.to_nat 3 * occurrences key ["ann"; "bob"; "ann"])%nat
            (chamber bob) w'.
Proof.
  intros court.
  apply (tinyworld_run_when_all_can_act court (chamber bob) 3).
  vm_compute. reflexivity.
Defined.

(** X10.  [TinyWorld.run] stops at the first agent that cannot act: when
    the agents listed before it can, a run of at least one step raises in
    its first turn, [IndexError] for a human-controlled agent without a
    memory entry and [KeyError] for an autonomous one without a name;
    [current_turn] is not advanced, and the agents listed before it have
    acted once. *)
Theorem tinyworld_run_stops_at_first_failure
    (self : TinyWorld.TinyWorld) (w : world) (steps : Z)
    (ahead behind : list string) (agent : string) (a : TinyPerson) :
  TinyWorld.agents self = ahead ++ agent :: behind →
  forallb (ready w) ahead = true →
  agents w !! agent = Some a →
  can_act a = false →
  0 < steps →
  ∃ w',
    TinyWorld.run steps self w = (Raised (act_error a), (self, w'))
    ∧ llm_calls w' = (llm_calls w + calls_per_turn w ahead)%nat
    ∧ after_turns (λ key, occurrences key ahead) w w'.
Proof.
  intros Hagents Hahead Ha Hcannot Hsteps. unfold TinyWorld.run.
  destruct (Z.to_nat steps) as [|n] eqn:Hn; [lia|]. simpl. rewrite Hagents. clear Hn.
  assert (∀ w0, forallb (ready w0) ahead = true → agents w0 !! agent = Some a →
            ∃ w', TinyWorld.everyone_acts (ahead ++ agent :: behind) w0
                  = (Raised (act_error a), w')
                  ∧ llm_calls w' = (llm_calls w0 + calls_per_turn w0 ahead)%nat
                  ∧ after_turns (λ key, occurrences key ahead) w0 w') as Hloop.
  { clear w Hahead Ha Hagents. induction ahead as [|first ahead IH]; intros w Hahead Ha.
    - destruct (act_through_fails agent a w Ha Hcannot) as (w' & Hact & Hcalls & H').
      exists w'. simpl. rewrite Hact. split; [done|].
      split; [unfold calls_per_turn; simpl; lia|done].
    - simpl in Hahead. apply andb_true_iff in Hahead as [Hfirst Hrest].
      destruct (act_through_ready first w Hfirst) as (said & w1 & Hact & Hcalls1 & H1).
      assert (agents w1 !! agent = Some a) as Ha1.
      { pose proof (H1 agent) as Hagent. rewrite Ha in Hagent.
        destruct Hagent as (a' & Ha' & said' & -> & Hlen & _). rewrite Ha'.
        destruct (String.eqb agent first) eqn:Heq.
        - apply String.eqb_eq in Heq as ->. unfold ready in Hfirst.
          rewrite Ha in Hfirst. congruence.
        - assert (said' = []) as ->.
          { apply nil_length_inv. rewrite Hlen. by destruct (is_user_controlled a). }
          by rewrite set_memory_nil. }
      destruct (IH w1) as (w' & Hrun & Hcalls & H'); [|done|].
      { by rewrite (forallb_ready_after _ w w1 _ H1). }
      exists w'. simpl. rewrite Hact. split; [done|]. split.
      + rewrite Hcalls, Hcalls1, calls_per_turn_cons,
          (calls_per_turn_after _ w w1 _ H1). lia.
      + eapply after_turns_ext; [|by eapply after_turns_trans].
        intros key. simpl. by rewrite occurrences_cons. }
  destruct (Hloop w Hahead Ha) as (w' & -> & H). by exists w'.
Qed.

Lemma tinyworld_run_stops_at_first_failure_witness :
  let court := TinyWorld.init "court" ["ann"; "bob"; "ann"] in
  ∃ w', TinyWorld.run 2 court (chamber silent_bob)
        = (Raised (act_error silent_bob), (court, w'))
        ∧ llm_calls w' = (0 + calls_per_turn (chamber silent_bob) ["ann"])%nat
        ∧ after_turns (λ key, occurrences key ["ann"]) (chamber silent_bob) w'.
Proof.
  intros court.
  apply (tinyworld_run_stops_at_first_failure court (chamber silent_bob) 2
           ["ann"] ["ann"] "bob" silent_bob).
  - reflexivity.
  - vm_compute. reflexivity.
  - vm_compute. reflexivity.
  - reflexivity.
  - lia.
Defined.

Lemma turns_app m n self w :
  TinyWorld.turns (m + n) self w
  = match TinyWorld.turns m self w with
    | (Ok _, (self', w')) => TinyWorld.turns n self' w'
    | failed => failed
    end.
Proof.
  revert self w. induction m as [|m IH]; intros self w; [done|]. simpl.
  destruct (TinyWorld.everyone_acts (TinyWorld.agents self) w) as [[[]|e] w1]; [|done].
  apply IH.
Qed.

(** X11.  Runs compose: a run of [m + n] steps is a run of [m] steps
    followed, unless it raised, by a run of [n] steps from where the first
    one ended; the failure of the first one is the failure of the whole. *)
Theorem tinyworld_run_composes (self : TinyWorld.TinyWorld) (w : world) (m n : Z) :
  0 ≤ m → 0 ≤ n →
  TinyWorld.run (m + n) self w
  = match TinyWorld.run m self w with
    | (Ok _, (self', w')) => TinyWorld.run n self' w'
    | failed => failed
    end.
Proof.
  intros Hm Hn. unfold TinyWorld.run. rewrite Z2Nat.inj_add by done.
  apply turns_app.
Qed.

Lemma tinyworld_run_composes_witness :
  let court := TinyWorld.init "court" ["ann"; "bob"] in
  (0 ≤ 1 ∧ 0 ≤ 2)
  ∧ TinyWorld.run (1 + 2) court (chamber bob)
    = match TinyWorld.run 1 court (chamber bob) with
      | (Ok _, (self', w')) => TinyWorld.run 2 self' w'
      | failed => failed
      end.
Proof.
  intros court. split; [lia|].
  apply (tinyworld_run_composes court (chamber bob) 1 2); lia.
Defined.

(** * The input queue *)

Lemma on_message_arrival data w :
  user_input_queue (on_message data w).2
  = user_input_queue w ++ match utterance_of data with
                          | Some message => [message]
                          | None => []
                          end.
Proof.
  unfold on_message, utterance_of.
  destruct (subscript data "event") as [ev|]; [|by rewrite app_nil_r].
  destruct (eq_str ev "set_role").
  - rewrite app_nil_r. destruct (subscript data "role") as [role|]; [|done].
    assert (∀ k1 b1 k2 b2,
              user_input_queue (and_then (assign_mode k1 b1) (assign_mode k2 b2) w).2
              = user_input_queue w) as Hboth.
    { intros k1 b1 k2 b2. unfold and_then.
      pose proof (assign_mode_frame k1 b1 w) as (_ & _ & Hq1 & _).
      destruct (assign_mode k1 b1 w) as [[|e] w1]; simpl in *; [|done].
      pose proof (assign_mode_frame k2 b2 w1) as (_ & _ & Hq2 & _). congruence. }
    repeat case_match; apply Hboth.
  - destruct (eq_str ev "user_input"); [|by rewrite app_nil_r].
    destruct (subscript data "message"); [done|by rewrite app_nil_r].
Qed.

Lemma takes_mono {A} b (c : coro A) (Q Q' : A → nat → Prop) :
  (∀ a b', Q a b' → Q' a b') → takes b c Q → takes b c Q'.
Proof.
  intros HQ. revert b.
  induction c as [a|e|X f k IH|payload k IH|secs k IH|k IH]; intros b; simpl.
  - apply HQ.
  - done.
  - intros [Hf Hk]. split; [done|]. intros x. apply IH, Hk.
  - apply IH.
  - apply IH.
  - destruct b as [|b']; [done|]. intros Hk x. apply IH, Hk.
Qed.

Lemma takes_bind {A B} b (c : coro A) (k : A → coro B) (Q1 : A → nat → Prop) Q :
  takes b c Q1 → (∀ a b1, Q1 a b1 → takes b1 (k a) Q) → takes b (c ≫= k) Q.
Proof.
  intros Hc Hk. unfold mbind, coro_mbind. revert b Hc.
  induction c as [a|e|X f k' IH|payload k' IH|secs k' IH|k' IH]; intros b Hc;
    simpl in *.
  - by apply Hk.
  - done.
  - destruct Hc as [Hf Hk']. split; [done|]. intros x. apply IH, Hk'.
  - by apply IH.
  - by apply IH.
  - destruct b as [|b']; [done|]. intros x. apply IH, Hc.
Qed.

(** A synchronous block that leaves the queue alone takes nothing. *)
Lemma takes_sync {X} b (f : world → result X * world) :
  (∀ w, user_input_queue (f w).2 = user_input_queue w) →
  takes b (Sync f Return) (λ _ b', b' = b).
Proof. intros Hf. by split. Qed.

Lemma takes_with_agent {X} b agent
    (method : world → TinyPerson → result X * TinyPerson) :
  takes b (with_agent agent method) (λ _ b', b' = b).
Proof.
  apply takes_sync. intros w. destruct (agents w !! agent); [|done].
  by destruct (method w t).
Qed.

Lemma takes_agent_get {X} b agent (get : TinyPerson → result X) :
  takes b (agent_get agent get) (λ _ b', b' = b).
Proof. apply takes_sync. intros w. by destruct (agents w !! agent). Qed.

(** After [send_event] the task has been suspended, or there is no
    websocket and nothing has happened. *)
Lemma takes_send_event b e :
  takes b (SimulationController.send_event e) (λ _ b', b' = 1%nat ∨ b' = b).
Proof. split; [done|]. intros [ws|]; simpl; auto. Qed.

(** A turn takes at most one item, and none before it has been suspended
    at the request for input, if there is a websocket. *)
Lemma takes_get_agent_action agent prompt :
  takes 1 (SimulationController.get_agent_action agent prompt) (λ _ b', b' ≤ 1)%nat.
Proof.
  unfold SimulationController.get_agent_action, SimulationController.listen,
    SimulationController.remember, agent_field.
  eapply takes_bind; [apply takes_with_agent|]. intros _ ? ->.
  eapply takes_bind; [apply takes_agent_get|]. intros user_controlled ? ->.
  destruct user_controlled.
  - eapply takes_bind; [apply takes_agent_get|]. intros role ? ->.
    eapply takes_bind; [apply takes_send_event|]. intros _ ? [-> | ->].
    + eapply (takes_bind _ _ _ (λ _ b', b' = 0%nat)); [by intros x|].
      intros user_message ? ->.
      eapply takes_bind; [apply takes_with_agent|]. intros _ ? ->. simpl. lia.
    + eapply (takes_bind _ _ _ (λ _ b', b' = 0%nat)); [by intros x|].
      intros user_message ? ->.
      eapply takes_bind; [apply takes_with_agent|]. intros _ ? ->. simpl. lia.
  - eapply (takes_bind _ _ _ (λ _ b', b' = 1%nat));
      [|intros response ? ->; simpl; lia].
    unfold SimulationController.act. apply takes_sync. intros w.
    destruct (agents w !! agent); [|done].
    by destruct (TinyPerson.act _ t).
Qed.

Lemma takes_run : takes 1 SimulationController.run (λ _ _, True).
Proof.
  unfold SimulationController.run, SimulationController.run_opening_statements,
    SimulationController.persona_name, SimulationController.agents_getitem,
    read, write.
  eapply takes_bind; [by apply takes_sync|]. intros c ? ->.
  eapply takes_bind; [apply takes_send_event|]. intros ? ? Hb. simpl in Hb.
  assert (b1 = 1%nat) as -> by (by destruct Hb). clear Hb.
  eapply takes_bind; [by apply takes_sync|]. intros _ ? ->.
  eapply (takes_bind _ _ _ (λ _ _, True));
    [|intros ? ? ?; eapply takes_mono; [|apply takes_send_event]; done].
  eapply takes_bind; [apply takes_send_event|]. intros ? ? Hb. simpl in Hb.
  assert (b1 = 1%nat) as -> by (by destruct Hb). clear Hb.
  eapply takes_bind;
    [apply takes_sync; intros w; by destruct (agents w !! "prosecutor")|].
  intros prosecutor ? ->.
  eapply takes_bind;
    [apply takes_sync; intros w; by destruct (agents w !! "defense_lawyer")|].
  intros defense_lawyer ? ->.
  eapply takes_bind; [by apply takes_sync|]. intros c' ? ->.
  eapply takes_bind; [apply takes_get_agent_action|]. intros statement_p b_p Hp.
  eapply takes_bind; [apply takes_agent_get|]. intros name_p ? ->.
  eapply takes_bind; [apply takes_send_event|]. intros ? b_s ?.
  eapply (takes_bind _ _ _ (λ _ b', b' = 1%nat)); [done|]. intros _ ? ->.
  eapply takes_bind; [apply takes_agent_get|]. intros name_p' ? ->.
  eapply takes_bind; [apply takes_agent_get|]. intros name_d ? ->.
  eapply takes_bind; [apply takes_get_agent_action|]. intros statement_d b_d Hd.
  eapply takes_bind; [apply takes_agent_get|]. intros name_d' ? ->.
  eapply takes_bind; [apply takes_send_event|]. intros ? b_s' ?.
  done.
Qed.

(** One resumption of the task takes at most one item, from the front of
    the queue. *)
Lemma advance_takes (c : coro ()) b w :
  takes b c (λ _ _, True) → (b ≤ 1)%nat →
  user_input_queue (advance c w).2 `suffix_of` user_input_queue w
  ∧ (length (user_input_queue w) ≤ length (user_input_queue (advance c w).2) + b)%nat
  ∧ match (advance c w).1 with
    | Pending k => takes 1 k (λ _ _, True)
    | _ => True
    end.
Proof.
  revert b w. induction c as [[]|e|X f k IH|payload k IH|secs k IH|k IH];
    intros b w Hc Hb; simpl in *.
  - split; [done|]. split; [lia|done].
  - split; [done|]. split; [lia|done].
  - destruct Hc as [Hf Hk]. specialize (Hf w). unfold same_queue in Hf.
    destruct (f w) as [[x|e] w']; simpl in *.
    + rewrite <- Hf. by apply (IH x b w').
    + rewrite Hf. split; [done|]. split; [lia|done].
  - destruct (websocket w) as [[]|]; simpl; (split; [done|]; split; [lia|done]).
  - split; [done|]. split; [lia|done].
  - destruct b as [|b']; [done|]. assert (b' = 0%nat) as -> by lia.
    destruct (user_input_queue w) as [|item rest] eqn:Hq.
    + simpl. rewrite Hq. split; [done|]. split; [simpl; lia|exact Hc].
    + destruct (IH item 0%nat (set_user_input_queue rest w) (Hc item))
        as (Hsuffix & Hlength & Hk); [lia|].
      simpl in Hsuffix, Hlength. split; [by apply suffix_cons_r|].
      split; [simpl; lia|done].
Qed.

Lemma step_takes a s :
  match simulation_task s with
  | Pending k => takes 1 k (λ _ _, True)
  | _ => True
  end →
  user_input_queue (store (step a s))
    `suffix_of` (user_input_queue (store s) ++ arrival a s)
  ∧ (length (user_input_queue (store s) ++ arrival a s)
     ≤ length (user_input_queue (store (step a s))) + if is_tick a then 1 else 0)%nat
  ∧ match simulation_task (step a s) with
    | Pending k => takes 1 k (λ _ _, True)
    | _ => True
    end.
Proof.
  intros Ht. destruct a; simpl; rewrite ?app_nil_r.
  - destruct (simulation_task s) as [k| | |] eqn:Htask;
      try (rewrite Htask; split; [done|]; split; [lia|done]).
    destruct (advance_takes k 1 (store s) Ht) as (Hsuffix & Hlength & Hk); [lia|].
    by destruct (advance k (store s)) as [t w'].
  - destruct (handler_running s);
      [|rewrite app_nil_r; split; [done|]; split; [lia|done]].
    pose proof (on_message_arrival data (store s)) as Hq.
    destruct (on_message data (store s)) as [[|e] w']; simpl in *; rewrite Hq.
    + split; [done|]. split; [lia|done].
    + split; [done|]. split; [lia|]. by destruct (simulation_task s).
  - destruct (handler_running s); simpl; (split; [done|]; split; [lia|]); [|done].
    by destruct (simulation_task s).
  - split; [done|]. split; [lia|done].
  - destruct (websocket (store s)) as [[]|], (handler_running s); simpl;
      (split; [done|]; split; [lia|]); try done.
    by destruct (simulation_task s).
Qed.

Lemma exec_takes later s :
  match simulation_task s with
  | Pending k => takes 1 k (λ _ _, True)
  | _ => True
  end →
  user_input_queue (store (exec later s))
    `suffix_of` (user_input_queue (store s) ++ arrivals later s)
  ∧ (length (user_input_queue (store s) ++ arrivals later s)
     ≤ length (user_input_queue (store (exec later s))) + ticks later)%nat
  ∧ match simulation_task (exec later s) with
    | Pending k => takes 1 k (λ _ _, True)
    | _ => True
    end.
Proof.
  revert s. induction later as [|a later IH]; intros s Hs.
  - simpl. rewrite app_nil_r. split; [done|]. split; [lia|done].
  - destruct (step_takes a s Hs) as (Hstep & Hlstep & Hs').
    destruct (IH _ Hs') as (Hrest & Hlrest & Hlater).
    split; [|split; [|done]].
    + simpl. etrans; [exact Hrest|]. rewrite (assoc_L (++)). by apply suffix_app.
    + change (exec (a :: later) s) with (exec later (step a s)).
      simpl arrivals. simpl ticks.
      rewrite (assoc_L (++)), length_app. rewrite length_app in Hlrest.
      destruct (is_tick a); lia.
Qed.

(** X12.  The input queue is first-in first-out under every schedule.  From
    any state of a session to any later one, take the earlier queue
    followed by the messages of the utterances the handler has read in
    between, in the order it read them: the later queue is what is left of
    that list after items have been taken from its front, at most one for
    each resumption of the controller task.  So nothing joins the queue but
    those messages, at its back; nothing leaves it but at its front, and
    only when the task runs; no item is lost, and the items are never
    reordered. *)
Theorem input_queue_is_fifo env fs remote schedule later s0 :
  connect env fs remote = Ok s0 →
  let s := exec schedule s0 in
  let offered := user_input_queue (store s) ++ arrivals later s in
  let left := user_input_queue (store (exec later s)) in
  left `suffix_of` offered
  ∧ (length offered ≤ length left + ticks later)%nat.
Proof.
  intros Hs0 s offered left.
  assert (match simulation_task s0 with
          | Pending k => takes 1 k (λ _ _, True)
          | _ => True
          end) as Hstart.
  { apply connect_ok in Hs0 as (c & agents0 & _ & _ & ->). apply takes_run. }
  destruct (exec_takes schedule s0 Hstart) as (_ & _ & Hnow).
  by destruct (exec_takes later s Hnow) as (Hsuffix & Hlength & _).
Qed.

Lemma input_queue_is_fifo_witness :
  let s0 := doe_start (echo "Your Honour.") in
  let s := exec [Tick; Tick; Tick; Tick; Receive take_defense; Tick; Tick] s0 in
  let later := [Receive hello; Receive take_prosecution;
                Receive (PDict [("event", PStr "user_input");
                                ("message", PStr "second")]);
                Tick] in
  user_input_queue (store (exec later s))
    `suffix_of` (user_input_queue (store s) ++ arrivals later s)
  ∧ (length (user_input_queue (store s) ++ arrivals later s)
     ≤ length (user_input_queue (store (exec later s))) + ticks later)%nat.
Proof.
  intros s0 s later.
  apply (input_queue_is_fifo with_key (disk state_v_doe) (echo "Your Honour.")
           [Tick; Tick; Tick; Tick; Receive take_defense; Tick; Tick] later s0).
  reflexivity.
Defined.

(** That run, evaluated: two utterances arrive while the defense waits, the
    waiting turn takes the first, and the second stays on the queue. *)
Example two_utterances :
  let s0 := doe_start (echo "Your Honour.") in
  let s := exec [Tick; Tick; Tick; Tick; Receive take_defense; Tick; Tick] s0 in
  let later := [Receive hello; Receive take_prosecution;
                Receive (PDict [("event", PStr "user_input");
                                ("message", PStr "second")]);
                Tick] in
  user_input_queue (store s) = []
  ∧ arrivals later s = [PStr "hello?"; PStr "second"]
  ∧ user_input_queue (store (exec later s)) = [PStr "second"].
Proof. vm_compute. repeat split. Qed.

(** * Personas and prompts *)

Lemma dict_find_set d key value key' :
  dict_find (dict_set d key value) key'
  = if String.eqb key key' then Some value else dict_find d key'.
Proof.
  induction d as [|[k v] d IH]; simpl.
  - done.
  - destruct (String.eqb_spec k key) as [->|Hk]; simpl.
    + by destruct (String.eqb key key').
    + rewrite IH. destruct (String.eqb_spec k key') as [->|Hk']; [|done].
      apply String.eqb_neq in Hk. by rewrite String.eqb_sym, Hk.
Qed.

Lemma keys_dict_set d key value :
  keys (dict_set d key value)
  = match dict_find d key with
    | Some _ => keys d
    | None => keys d ++ [key]
    end.
Proof.
  unfold keys. induction d as [|[k v] d IH]; simpl; [done|].
  destruct (String.eqb_spec k key) as [->|Hk]; simpl; [done|].
  rewrite IH. by destruct (dict_find d key).
Qed.

(** X13.  [define] behaves as an assignment to a dict entry: afterwards
    the key holds the new value and every other key what it held; a key
    that was defined keeps its place among the keys and a new one comes
    last, so no key is ever listed twice; the memory, the provider and the
    mode are not touched. *)
Theorem define_then_lookup (key : string) (value : pyval) (self : TinyPerson) :
  let self' := TinyPerson.define key value self in
  (∀ key', dict_find (persona self') key'
           = if String.eqb key key' then Some value else dict_find (persona self) key')
  ∧ keys (persona self')
    = match dict_find (persona self) key with
      | Some _ => keys (persona self)
      | None => keys (persona self) ++ [key]
      end
  ∧ (NoDup (keys (persona self)) → NoDup (keys (persona self')))
  ∧ memory self' = memory self
  ∧ llm_provider self' = llm_provider self
  ∧ is_user_controlled self' = is_user_controlled self.
Proof.
  simpl. split; [intros key'; apply dict_find_set|].
  split; [apply keys_dict_set|]. split; [|done].
  rewrite keys_dict_set. intros Hnodup.
  destruct (dict_find (persona self) key) eqn:Hfind; [done|].
  apply NoDup_app. split; [done|]. split; [|apply NoDup_singleton].
  intros k Hk ->%list_elem_of_singleton.
  clear Hnodup. unfold keys in Hk. induction (persona self) as [|[k v] d IH]; simpl in *.
  - by apply elem_of_nil in Hk.
  - destruct (String.eqb_spec k key) as [->|Hne]; [done|].
    apply elem_of_cons in Hk as [Hk|Hk]; [done|]. by apply IH.
Qed.

Lemma define_then_lookup_witness :
  let self' := TinyPerson.define "role" (PStr "prosecutor") ann in
  dict_find (persona self') "role" = Some (PStr "prosecutor")
  ∧ keys (persona self') = ["name"; "role"]
  ∧ memory self' = memory ann.
Proof.
  destruct (define_then_lookup "role" (PStr "prosecutor") ann)
    as (Hfind & Hkeys & _ & Hmemory & _).
  exact (conj (Hfind "role") (conj Hkeys Hmemory)).
Defined.

Lemma drop_last_n {A} (older recent : list A) n :
  length recent = n →
  TinyPerson.last_n n (older ++ recent) = TinyPerson.last_n n recent.
Proof.
  intros <-. unfold TinyPerson.last_n. rewrite length_app.
  replace (length older + length recent - length recent)%nat with (length older) by lia.
  by rewrite drop_app_length, Nat.sub_diag.
Qed.

(** X14.  An agent looks five entries back and no further: with five or
    more entries in its memory, whatever preceded the last five changes
    neither the prompt built for the provider nor what [act] returns, in
    either mode. *)
Theorem act_looks_five_entries_back service (self : TinyPerson)
    (older older' recent : list string) :
  length recent = 5%nat →
  TinyPerson._build_prompt (set_memory (older ++ recent) self)
  = TinyPerson._build_prompt (set_memory (older' ++ recent) self)
  ∧ (TinyPerson.act service (set_memory (older ++ recent) self)).1
    = (TinyPerson.act service (set_memory (older' ++ recent) self)).1.
Proof.
  intros Hlen.
  assert (TinyPerson._build_prompt (set_memory (older ++ recent) self)
          = TinyPerson._build_prompt (set_memory (older' ++ recent) self)) as Hprompt.
  { unfold TinyPerson._build_prompt. simpl. by rewrite !(drop_last_n _ recent 5). }
  split; [done|]. unfold TinyPerson.act. simpl.
  destruct (is_user_controlled self).
  - destruct recent as [|entry recent] using rev_ind; [done|].
    by rewrite !(assoc_L (++)), !last_snoc.
  - rewrite Hprompt.
    by destruct (TinyPerson._build_prompt (set_memory (older' ++ recent) self)).
Qed.

Lemma act_looks_five_entries_back_witness :
  let recent := ["Heard: a"; "Said: b"; "Heard: c"; "Said: d"; "Heard: e"] in
  length recent = 5%nat
  ∧ TinyPerson._build_prompt (set_memory (["Heard: long ago"] ++ recent) ann)
    = TinyPerson._build_prompt (set_memory ([] ++ recent) ann)
  ∧ (TinyPerson.act (echo "Your Honour." 0%nat)
       (set_memory (["Heard: long ago"] ++ recent) ann)).1
    = (TinyPerson.act (echo "Your Honour." 0%nat) (set_memory ([] ++ recent) ann)).1.
Proof.
  intros recent. split; [reflexivity|].
  apply (act_looks_five_entries_back (echo "Your Honour." 0%nat) ann
           ["Heard: long ago"] [] recent).
  reflexivity.
Defined.

(** * Setting a session up: the agents and the failures *)

(** X15.  [create_courtroom_agents] returns exactly when the provider can
    be made and the case names a lawyer for the plaintiff and one for the
    defendant.  It then holds three agents, under the keys [judge],
    [prosecutor] and [defense_lawyer]: all autonomous, with an empty memory,
    the same provider and the traits name, age, occupation and personality,
    named Judge Reynolds and after the two lawyers.  Otherwise it raises
    what the first failing step raised: the provider is made first, then
    the plaintiff's lawyer is read, then the defendant's. *)
Theorem create_courtroom_agents_outcome env c provider_name :
  match create_courtroom_agents env c provider_name with
  | Ok agents0 =>
      ∃ provider name_p name_d j p d,
        get_llm_provider env provider_name = Ok provider
        ∧ subscript (plaintiff c) "lawyer" = Ok name_p
        ∧ subscript (defendant c) "lawyer" = Ok name_d
        ∧ agents0 = <["defense_lawyer" := d]> (<["prosecutor" := p]> (<["judge" := j]> ∅))
        ∧ Forall (λ self, is_user_controlled self = false ∧ memory self = []
                          ∧ llm_provider self = provider
                          ∧ keys (persona self)
                            = ["name"; "age"; "occupation"; "personality"])
                 [j; p; d]
        ∧ dict_find (persona j) "name" = Some (PStr "Judge Reynolds")
        ∧ dict_find (persona p) "name" = Some name_p
        ∧ dict_find (persona d) "name" = Some name_d
  | Raised e =>
      get_llm_provider env provider_name = Raised e
      ∨ (is_ok (get_llm_provider env provider_name)
         ∧ (subscript (plaintiff c) "lawyer" = Raised e
            ∨ (is_ok (subscript (plaintiff c) "lawyer")
               ∧ subscript (defendant c) "lawyer" = Raised e)))
  end.
Proof.
  unfold create_courtroom_agents, TinyPerson.init.
  destruct (get_llm_provider env provider_name) as [provider|]; [|by left].
  cbn [mbind result_mbind result_bind mret result_mret].
  destruct (subscript (plaintiff c) "lawyer") as [name_p|]; [|right; split; [done|by left]].
  cbn [mbind result_mbind result_bind mret result_mret].
  destruct (subscript (defendant c) "lawyer") as [name_d|];
    [|right; split; [done|by right]].
  cbn [mbind result_mbind result_bind mret result_mret].
  eexists provider, name_p, name_d, _, _, _.
  do 4 (split; [reflexivity|]). split; [|done].
  repeat constructor.
Qed.

Lemma get_llm_provider_openai env :
  get_llm_provider env "openai"
  = match OPENAI_API_KEY env with
    | Some key =>
        if String.eqb key "" then
          Raised (ValueError "OpenAI API key not provided. Set the OPENAI_API_KEY environment variable.")
        else Ok (OpenAIProvider key)
    | None =>
        Raised (ValueError "OpenAI API key not provided. Set the OPENAI_API_KEY environment variable.")
    end.
Proof. done. Qed.

(** X16.  How setting a session up fails, in the order the handler checks.
    Reading the case file comes first: a missing file and a file that is no
    JSON raise [Exception] with the path, and any other failure of the read
    (the path is a directory, the file may not be read, its bytes are no
    text) is not caught by [load_case] and is raised as it is; a JSON value
    that is no object raises [AttributeError].  Then, with the case loaded,
    a missing or empty [OPENAI_API_KEY] raises [ValueError], before the
    lawyers are looked at; then a plaintiff, and then a defendant, without
    a lawyer raises what the subscript raises.  When none of these fails
    the session starts, with an open connection, an empty stream and an
    empty queue. *)
Theorem connect_outcome env fs remote :
  match connect env fs remote, fs "cases/case-001.json" with
  | Raised e, NoSuchFile =>
      e = Exception "Case file not found at: cases/case-001.json"
  | Raised e, NotJson =>
      e = Exception "Error decoding JSON from file: cases/case-001.json"
  | Raised e, Unreadable e' => e = e'
  | Raised e, Parsed (PDict d) =>
      match get_llm_provider env "openai" with
      | Raised e' =>
          e = e'
          ∧ e = ValueError "OpenAI API key not provided. Set the OPENAI_API_KEY environment variable."
          ∧ (OPENAI_API_KEY env = None ∨ OPENAI_API_KEY env = Some "")
      | Ok _ =>
          subscript (dict_get d "plaintiff" PNone) "lawyer" = Raised e
          ∨ (is_ok (subscript (dict_get d "plaintiff" PNone) "lawyer")
             ∧ subscript (dict_get d "defendant" PNone) "lawyer" = Raised e)
      end
  | Raised e, Parsed _ => e = AttributeError
  | Ok s0, Parsed (PDict d) =>
      is_ok (get_llm_provider env "openai")
      ∧ is_ok (subscript (dict_get d "plaintiff" PNone) "lawyer")
      ∧ is_ok (subscript (dict_get d "defendant" PNone) "lawyer")
      ∧ websocket (store s0) = Some Open
      ∧ outbound (store s0) = [] ∧ user_input_queue (store s0) = []
      ∧ phase (store s0) = PRE_TRIAL
      ∧ handler_running s0 = true
  | Ok _, _ => False
  end.
Proof.
  unfold connect, load_case.
  destruct (fs "cases/case-001.json") as [| |case_data|unread]; [done|done| |done].
  destruct case_data as [| | | | | |d]; try done.
  cbn [Case.init method_get mbind result_mbind result_bind mret result_mret].
  unfold create_courtroom_agents, TinyPerson.init.
  rewrite get_llm_provider_openai.
  destruct (OPENAI_API_KEY env) as [key|] eqn:Hkey.
  2: { cbn [mbind result_mbind result_bind mret result_mret]. auto. }
  destruct (String.eqb_spec key "") as [->|Hne].
  { cbn [mbind result_mbind result_bind mret result_mret]. auto. }
  cbn [mbind result_mbind result_bind mret result_mret plaintiff defendant].
  destruct (subscript (dict_get d "plaintiff" PNone) "lawyer") as [name_p|];
    cbn [mbind result_mbind result_bind mret result_mret]; [|by left].
  destruct (subscript (dict_get d "defendant" PNone) "lawyer") as [name_d|];
    cbn [mbind result_mbind result_bind mret result_mret]; [|by right].
  done.
Qed.

(** A case file that cannot be read as text: the error is not the
    [Exception] of [load_case], and no session exists. *)
Example undecodable_case_file :
  let fs : filesystem :=
    λ _, Unreadable (UnicodeDecodeError "'utf-8' codec can't decode byte 0xff") in
  handler with_key fs (echo "Your Honour.") (replicate 9 Tick)
  = Raised (UnicodeDecodeError "'utf-8' codec can't decode byte 0xff").
Proof. reflexivity. Qed.

(** X17.  What one inbound message can do to the shared objects, whether
    the handler accepts it or raises: the stream, the connection, the case,
    the services, the number of calls and the phase are as they were; every
    agent keeps its persona, memory and provider, and only the two lawyers
    can change mode; the queue is as it was, or has the message of an
    utterance appended. *)
Theorem message_changes_modes_and_queue (data : pyval) (w : world) :
  let w' := (on_message data w).2 in
  outbound w' = outbound w ∧ websocket w' = websocket w
  ∧ case w' = case w ∧ service w' = service w
  ∧ llm_calls w' = llm_calls w ∧ phase w' = phase w
  ∧ (∀ key, profile <$> agents w' !! key = profile <$> agents w !! key)
  ∧ (∀ key, key ≠ "prosecutor" → key ≠ "defense_lawyer" →
            agents w' !! key = agents w !! key)
  ∧ (user_input_queue w' = user_input_queue w
     ∨ ∃ message, is_utterance data message
                  ∧ user_input_queue w' = user_input_queue w ++ [message]).
Proof.
  intros w'. destruct (on_message_handler_step data w) as [_ H].
  fold w' in H. destruct H as (Ho & Hws & Hc & Hs & Hn & Hp & Hprofile & Hother).
  do 7 (split; [done|]). split.
  { intros key H1 H2. apply Hother. by intros [|]. }
  unfold w', on_message.
  destruct (subscript data "event") as [ev|] eqn:Hev; [|by left].
  destruct (eq_str ev "set_role") eqn:Hset.
  - left. destruct (subscript data "role") as [role|]; [|done].
    assert (∀ k1 b1 k2 b2,
              user_input_queue (and_then (assign_mode k1 b1) (assign_mode k2 b2) w).2
              = user_input_queue w) as Hboth.
    { intros k1 b1 k2 b2. unfold and_then.
      pose proof (assign_mode_frame k1 b1 w) as (_ & _ & Hq1 & _).
      destruct (assign_mode k1 b1 w) as [[|e] w1]; simpl in *; [|done].
      pose proof (assign_mode_frame k2 b2 w1) as (_ & _ & Hq2 & _). congruence. }
    repeat case_match; apply Hboth.
  - destruct (eq_str ev "user_input") eqn:Hinput; [|by left].
    destruct (subscript data "message") as [message|] eqn:Hmessage; [|by left].
    right. exists message. split; [|done]. split; [|done].
    destruct ev as [| | | |text| |]; try done. by apply String.eqb_eq in Hinput as ->.
Qed.
